(** * RadixNodeConnection: a shallow embedding of the node connection engine

    Source: [src/modules/universe/RadixNodeConnection.ts].

    The class is event driven.  Its methods and its event handlers are
    embedded as computations in a state-and-exception monad over a [World]:
    the fields of the connection object, the heap of rxjs subjects it
    allocates (subjects are shared by reference between the tables of the
    connection, the timer closures, the promise callbacks and the caller),
    the timers of the JavaScript runtime, the remote calls in flight, the
    promises handed to the caller, and the notifications that observers of
    the subjects have received so far.

    Calls to [logger] have no effect on any of this and are left out. *)

From stdpp Require Import base option list strings pretty.
From Stdlib Require Import NArith ZArith Lia Sorted.

Set Default Proof Using "Type".
Local Open Scope string_scope.
Local Open Scope list_scope.

(** ** JavaScript values *)

(** Values of type [any]: remote call parameters, responses, rejection
    reasons and thrown values.  [JError name message] stands for an instance
    of the error class [name]. *)
#[warnings="-register-all"]
Inductive JsVal : Type :=
| JUndefined
| JNull
| JBool (b : bool)
| JNum (n : Z)
| JStr (s : string)
| JArr (xs : list JsVal)
| JObj (fields : list (string * JsVal))
| JError (name message : string).

(** The outcome of running a piece of JavaScript: a value, or a thrown one. *)
Inductive Completion (A : Type) : Type :=
| Normal (a : A)
| Throw (e : JsVal).
Arguments Normal {A} a.
Arguments Throw {A} e.

Definition TypeError : JsVal := JError "TypeError" "undefined is not an object".

(** Conversion to boolean, as in [if (x)] and [x && y]. *)
Definition truthy (v : JsVal) : bool :=
  match v with
  | JUndefined | JNull => false
  | JBool b => b
  | JNum n => negb (n =? 0)%Z
  | JStr s => negb (String.eqb s "")
  | JArr _ | JObj _ | JError _ _ => true
  end.

(** ** Objects used as dictionaries

    [{ [key: string]: V }].  Every key that the connection stores is either
    the decimal form of a strictly increasing counter or a Base58 address, so
    [for ... in] enumerates the keys in insertion order; the entries are kept
    in that order. *)
Definition JsObject (V : Type) : Type := list (string * V).

Fixpoint js_get {V} (k : string) (o : JsObject V) : option V :=
  match o with
  | [] => None
  | (k', v) :: o' => if String.eqb k k' then Some v else js_get k o'
  end.

(** [o[k] = v]: an existing key keeps its place, a new key goes last. *)
Fixpoint js_set {V} (k : string) (v : V) (o : JsObject V) : JsObject V :=
  match o with
  | [] => [(k, v)]
  | (k', v') :: o' =>
      if String.eqb k k' then (k, v) :: o' else (k', v') :: js_set k v o'
  end.

(** [delete o[k]]. *)
Fixpoint js_delete {V} (k : string) (o : JsObject V) : JsObject V :=
  match o with
  | [] => []
  | (k', v') :: o' =>
      if String.eqb k k' then js_delete k o' else (k', v') :: js_delete k o'
  end.

Definition js_keys {V} (o : JsObject V) : list string := map fst o.

(** Property read [v.k] on a value of type [any]. *)
Definition js_field (k : string) (v : JsVal) : Completion JsVal :=
  match v with
  | JUndefined | JNull => Throw TypeError
  | JObj fields => Normal (default JUndefined (js_get k fields))
  | _ => Normal JUndefined
  end.

(** String concatenation [s + x] where [x] may be [undefined]. *)
Definition js_string_of_optional (x : option string) : string :=
  default "undefined" x.


(** ** The serializer

    [RadixSerializer], [RadixAtom] and [RadixEUID] live in [../atommodel],
    which is outside the files at hand: the connection is parametric in them. *)
Class Serializer : Type := {
  (** [RadixAtom] *)
  Atom : Type;
  (** [atom.toJSON()] *)
  atom_toJSON : Atom -> JsVal;
  (** [RadixSerializer.fromJSON(json)] on one wire-encoded atom *)
  fromJSON : JsVal -> Completion Atom;
  (** [deserializedAtom.hid.equals(RadixEUID.fromJSON(hid))] *)
  hid_equals : Atom -> JsVal -> Completion bool;
  (** [RadixEUID] *)
  EUID : Type;
  (** [id.toJSON()] *)
  euid_toJSON : EUID -> JsVal;
}.

Section Embedding.
Context `{Serializer}.

(** ** rxjs subjects ([Subject.ts] and [BehaviorSubject.ts]; rxjs 5 and rxjs 6
    agree on everything that is used here) *)

(** [RadixAtomUpdate], as far as the connection builds it. *)
Record RadixAtomUpdate : Type := {
  action : string;
  atom : Atom;
  processedData : JsVal;
}.

(** What the streams of the connection carry. *)
Inductive StreamVal : Type :=
| SVState (s : string)
| SVSynced (b : bool)
| SVUpdate (u : RadixAtomUpdate).

(** What an observer is handed. *)
Inductive Notif : Type :=
| Next (v : StreamVal)
| Error (e : JsVal)
| Complete.

(** A subject.  [_value] is [Some] for a [BehaviorSubject] and [None] for a
    plain [Subject].  Observers are named by the number they were given when
    they subscribed. *)
Record Subject : Type := {
  closed : bool;
  isStopped : bool;
  hasError : bool;
  thrownError : JsVal;
  observers : list nat;
  _value : option StreamVal;
}.

Definition ObjectUnsubscribedError : JsVal :=
  JError "ObjectUnsubscribedError" "object unsubscribed".

(** ** The connection and its runtime *)

(** The [rpc-websockets] client, as far as the connection looks at it.
    [closeCalls] counts the invocations of [close()]; [listening] says that
    the two notification handlers are registered; [openPromise] is the
    promise of the [openConnection] call that made the client. *)
Record Socket : Type := {
  ready : bool;
  closeCalls : nat;
  listening : bool;
  openPromise : nat;
}.

(** The fields of [RadixNodeConnection]. *)
Record Conn : Type := {
  pingInterval : option nat;
  _socket : option Socket;
  _subscriptions : JsObject nat;
  _atomUpdateSubjects : JsObject nat;
  _addressSubscriptions : JsObject string;
  _syncedSubscriptions : JsObject nat;
  lastSubscriberId : N;
}.

(** The callbacks handed to [setTimeout] and [setInterval]. *)
Inductive TimerAction : Type :=
| OpenTimeout (p : nat)
| SubmitTimeout (atomStateSubject : nat)
| Ping.

#[global] Instance TimerAction_eq_dec : EqDecision TimerAction.
Proof. solve_decision. Defined.

(** An armed timer: [period] is [Some] for [setInterval]. *)
Record Timer : Type := {
  tid : nat;
  due : N;
  period : option N;
  callback : TimerAction;
}.

(** The [.then]/[.catch] callbacks waiting on a remote call. *)
Inductive Kont : Type :=
| KPing
| KSubscribe (address subscriberId : string)
| KUnsubscribe (address : string) (subscriberId : option string) (p : nat)
| KSubmit (timeout atomStateSubject : nat)
| KGetAtom (p : nat).

(** Values that promises of the connection resolve with. *)
#[warnings="-register-all"]
Inductive PVal : Type :=
| PUndefined
| PJs (v : JsVal)
| PAtom (a : Atom)
| PArray (vs : list PVal).

Inductive Settled : Type :=
| Pending
| Fulfilled (v : PVal)
| Rejected (e : JsVal).

Record World : Type := {
  conn : Conn;
  (** heap of subjects, addressed by position *)
  subjects : list Subject;
  (** every notification handed to an observer, oldest first *)
  trace : list (nat * Notif);
  observerCount : nat;
  (** clock of the runtime in milliseconds, and the armed timers *)
  now : N;
  timers : list Timer;
  timerCount : nat;
  (** remote calls sent (method, params), and the callbacks of those not
      yet answered, keyed by position in [outbox] *)
  outbox : list (string * JsVal);
  pending : list (nat * Kont);
  (** promises handed out, and the [Promise.all] aggregates (inputs, result) *)
  promises : list Settled;
  alls : list (list nat * nat);
  (** events emitted by the connection itself: ['open'], ['closed'] *)
  emitted : list string;
  (** exceptions that escaped a handler or a promise chain *)
  uncaught : list JsVal;
}.

Definition set_conn (f : Conn -> Conn) (w : World) : World :=
  {| conn := f (conn w); subjects := subjects w; trace := trace w;
     observerCount := observerCount w; now := now w; timers := timers w;
     timerCount := timerCount w; outbox := outbox w; pending := pending w;
     promises := promises w; alls := alls w; emitted := emitted w;
     uncaught := uncaught w |}.

Definition set_subjects (f : list Subject -> list Subject) (w : World) : World :=
  {| conn := conn w; subjects := f (subjects w); trace := trace w;
     observerCount := observerCount w; now := now w; timers := timers w;
     timerCount := timerCount w; outbox := outbox w; pending := pending w;
     promises := promises w; alls := alls w; emitted := emitted w;
     uncaught := uncaught w |}.

Definition set_trace (f : list (nat * Notif) -> list (nat * Notif)) (w : World) : World :=
  {| conn := conn w; subjects := subjects w; trace := f (trace w);
     observerCount := observerCount w; now := now w; timers := timers w;
     timerCount := timerCount w; outbox := outbox w; pending := pending w;
     promises := promises w; alls := alls w; emitted := emitted w;
     uncaught := uncaught w |}.

Definition set_observerCount (f : nat -> nat) (w : World) : World :=
  {| conn := conn w; subjects := subjects w; trace := trace w;
     observerCount := f (observerCount w); now := now w; timers := timers w;
     timerCount := timerCount w; outbox := outbox w; pending := pending w;
     promises := promises w; alls := alls w; emitted := emitted w;
     uncaught := uncaught w |}.

Definition set_now (f : N -> N) (w : World) : World :=
  {| conn := conn w; subjects := subjects w; trace := trace w;
     observerCount := observerCount w; now := f (now w); timers := timers w;
     timerCount := timerCount w; outbox := outbox w; pending := pending w;
     promises := promises w; alls := alls w; emitted := emitted w;
     uncaught := uncaught w |}.

Definition set_timers (f : list Timer -> list Timer) (w : World) : World :=
  {| conn := conn w; subjects := subjects w; trace := trace w;
     observerCount := observerCount w; now := now w; timers := f (timers w);
     timerCount := timerCount w; outbox := outbox w; pending := pending w;
     promises := promises w; alls := alls w; emitted := emitted w;
     uncaught := uncaught w |}.

Definition set_timerCount (f : nat -> nat) (w : World) : World :=
  {| conn := conn w; subjects := subjects w; trace := trace w;
     observerCount := observerCount w; now := now w; timers := timers w;
     timerCount := f (timerCount w); outbox := outbox w; pending := pending w;
     promises := promises w; alls := alls w; emitted := emitted w;
     uncaught := uncaught w |}.

Definition set_outbox (f : list (string * JsVal) -> list (string * JsVal)) (w : World) : World :=
  {| conn := conn w; subjects := subjects w; trace := trace w;
     observerCount := observerCount w; now := now w; timers := timers w;
     timerCount := timerCount w; outbox := f (outbox w); pending := pending w;
     promises := promises w; alls := alls w; emitted := emitted w;
     uncaught := uncaught w |}.

Definition set_pending (f : list (nat * Kont) -> list (nat * Kont)) (w : World) : World :=
  {| conn := conn w; subjects := subjects w; trace := trace w;
     observerCount := observerCount w; now := now w; timers := timers w;
     timerCount := timerCount w; outbox := outbox w; pending := f (pending w);
     promises := promises w; alls := alls w; emitted := emitted w;
     uncaught := uncaught w |}.

Definition set_promises (f : list Settled -> list Settled) (w : World) : World :=
  {| conn := conn w; subjects := subjects w; trace := trace w;
     observerCount := observerCount w; now := now w; timers := timers w;
     timerCount := timerCount w; outbox := outbox w; pending := pending w;
     promises := f (promises w); alls := alls w; emitted := emitted w;
     uncaught := uncaught w |}.

Definition set_alls (f : list (list nat * nat) -> list (list nat * nat)) (w : World) : World :=
  {| conn := conn w; subjects := subjects w; trace := trace w;
     observerCount := observerCount w; now := now w; timers := timers w;
     timerCount := timerCount w; outbox := outbox w; pending := pending w;
     promises := promises w; alls := f (alls w); emitted := emitted w;
     uncaught := uncaught w |}.

Definition set_emitted (f : list string -> list string) (w : World) : World :=
  {| conn := conn w; subjects := subjects w; trace := trace w;
     observerCount := observerCount w; now := now w; timers := timers w;
     timerCount := timerCount w; outbox := outbox w; pending := pending w;
     promises := promises w; alls := alls w; emitted := f (emitted w);
     uncaught := uncaught w |}.

Definition set_uncaught (f : list JsVal -> list JsVal) (w : World) : World :=
  {| conn := conn w; subjects := subjects w; trace := trace w;
     observerCount := observerCount w; now := now w; timers := timers w;
     timerCount := timerCount w; outbox := outbox w; pending := pending w;
     promises := promises w; alls := alls w; emitted := emitted w;
     uncaught := f (uncaught w) |}.

Definition set_pingInterval (v : option nat) (c : Conn) : Conn :=
  {| pingInterval := v; _socket := _socket c;
     _subscriptions := _subscriptions c;
     _atomUpdateSubjects := _atomUpdateSubjects c;
     _addressSubscriptions := _addressSubscriptions c;
     _syncedSubscriptions := _syncedSubscriptions c;
     lastSubscriberId := lastSubscriberId c |}.

Definition set__socket (v : option Socket) (c : Conn) : Conn :=
  {| pingInterval := pingInterval c; _socket := v;
     _subscriptions := _subscriptions c;
     _atomUpdateSubjects := _atomUpdateSubjects c;
     _addressSubscriptions := _addressSubscriptions c;
     _syncedSubscriptions := _syncedSubscriptions c;
     lastSubscriberId := lastSubscriberId c |}.

Definition set__subscriptions (f : JsObject nat -> JsObject nat) (c : Conn) : Conn :=
  {| pingInterval := pingInterval c; _socket := _socket c;
     _subscriptions := f (_subscriptions c);
     _atomUpdateSubjects := _atomUpdateSubjects c;
     _addressSubscriptions := _addressSubscriptions c;
     _syncedSubscriptions := _syncedSubscriptions c;
     lastSubscriberId := lastSubscriberId c |}.

Definition set__atomUpdateSubjects (f : JsObject nat -> JsObject nat) (c : Conn) : Conn :=
  {| pingInterval := pingInterval c; _socket := _socket c;
     _subscriptions := _subscriptions c;
     _atomUpdateSubjects := f (_atomUpdateSubjects c);
     _addressSubscriptions := _addressSubscriptions c;
     _syncedSubscriptions := _syncedSubscriptions c;
     lastSubscriberId := lastSubscriberId c |}.

Definition set__addressSubscriptions (f : JsObject string -> JsObject string) (c : Conn) : Conn :=
  {| pingInterval := pingInterval c; _socket := _socket c;
     _subscriptions := _subscriptions c;
     _atomUpdateSubjects := _atomUpdateSubjects c;
     _addressSubscriptions := f (_addressSubscriptions c);
     _syncedSubscriptions := _syncedSubscriptions c;
     lastSubscriberId := lastSubscriberId c |}.

Definition set__syncedSubscriptions (f : JsObject nat -> JsObject nat) (c : Conn) : Conn :=
  {| pingInterval := pingInterval c; _socket := _socket c;
     _subscriptions := _subscriptions c;
     _atomUpdateSubjects := _atomUpdateSubjects c;
     _addressSubscriptions := _addressSubscriptions c;
     _syncedSubscriptions := f (_syncedSubscriptions c);
     lastSubscriberId := lastSubscriberId c |}.

Definition set_lastSubscriberId (v : N) (c : Conn) : Conn :=
  {| pingInterval := pingInterval c; _socket := _socket c;
     _subscriptions := _subscriptions c;
     _atomUpdateSubjects := _atomUpdateSubjects c;
     _addressSubscriptions := _addressSubscriptions c;
     _syncedSubscriptions := _syncedSubscriptions c;
     lastSubscriberId := v |}.


(** ** The monad: state that survives an exception *)

Definition M (A : Type) : Type := World -> Completion A * World.

Definition ret {A} (a : A) : M A := fun w => (Normal a, w).

Definition bind {A B} (m : M A) (k : A -> M B) : M B :=
  fun w =>
    match m w with
    | (Normal a, w') => k a w'
    | (Throw e, w') => (Throw e, w')
    end.

Definition throw {A} (e : JsVal) : M A := fun w => (Throw e, w).

(** [try { m } catch (e) { h e }] *)
Definition try_catch {A} (m : M A) (h : JsVal -> M A) : M A :=
  fun w =>
    match m w with
    | (Normal a, w') => (Normal a, w')
    | (Throw e, w') => h e w'
    end.

Definition gets {A} (f : World -> A) : M A := fun w => (Normal (f w), w).

Definition modify (f : World -> World) : M unit := fun w => (Normal tt, f w).

Definition lift_completion {A} (c : Completion A) : M A :=
  fun w => (c, w).

Declare Scope js_scope.
Delimit Scope js_scope with js.
Notation "x <- c1 ;; c2" := (bind c1 (fun x => c2))
  (at level 20, c1 at level 99, c2 at level 200, only parsing) : js_scope.
Notation "c1 ;; c2" := (bind c1 (fun _ => c2))
  (at level 100, c2 at level 200, only parsing, right associativity) : js_scope.
Local Open Scope js_scope.

(** [for (const x of xs) { f x }] *)
Fixpoint for_each {A} (xs : list A) (f : A -> M unit) : M unit :=
  match xs with
  | [] => ret tt
  | x :: xs' => f x ;; for_each xs' f
  end.

(** The world after a computation, whatever its outcome. *)
Definition exec {A} (m : M A) (w : World) : World := snd (m w).


(** A method call or field read on a value that may be [undefined]. *)
Definition defined {A} (x : option A) : M A :=
  match x with
  | Some a => ret a
  | None => throw TypeError
  end.

(** [for (let i = 0; i < xs.length; i++) { f i xs[i] }], counting from [i]. *)
Fixpoint for_each_indexed {A} (i : nat) (xs : list A) (f : nat -> A -> M unit) : M unit :=
  match xs with
  | [] => ret tt
  | x :: xs' => f i x ;; for_each_indexed (S i) xs' f
  end.

(** ** Operations of rxjs subjects *)

(** A subject after [error(err)]. *)
Definition failed_subject (s : Subject) (err : JsVal) : Subject :=
  {| closed := closed s; isStopped := true; hasError := true;
     thrownError := err; observers := []; _value := _value s |}.

(** A subject after [complete()]. *)
Definition completed_subject (s : Subject) : Subject :=
  {| closed := closed s; isStopped := true; hasError := hasError s;
     thrownError := thrownError s; observers := []; _value := _value s |}.

(** A [BehaviorSubject] after its value has been replaced. *)
Definition with_value (s : Subject) (v : option StreamVal) : Subject :=
  {| closed := closed s; isStopped := isStopped s; hasError := hasError s;
     thrownError := thrownError s; observers := observers s; _value := v |}.

(** What [os] are handed when each of them gets [n]. *)
Definition deliveries (os : list nat) (n : Notif) : list (nat * Notif) :=
  map (fun o => (o, n)) os.

Definition read_subject (l : nat) : M Subject :=
  hp <- gets subjects ;; defined (hp !! l).

Definition write_subject (l : nat) (s : Subject) : M unit :=
  modify (set_subjects (fun hp => <[l := s]> hp)).

(** Hands [n] to each of the observers [os], in their order. *)
Definition notify (os : list nat) (n : Notif) : M unit :=
  modify (set_trace (fun t => t ++ deliveries os n)).

(** [new Subject()] when [v] is [None], [new BehaviorSubject(v0)] when it is
    [Some v0]. *)
Definition new_subject (v : option StreamVal) : M nat :=
  l <- gets (fun w => length (subjects w)) ;;
  modify (set_subjects (fun hp =>
    hp ++ [ {| closed := false; isStopped := false; hasError := false;
               thrownError := JNull; observers := []; _value := v |} ])) ;;
  ret l.

(** [Subject.next]; on a [BehaviorSubject] the value is stored first. *)
Definition next (l : nat) (v : StreamVal) : M unit :=
  s0 <- read_subject l ;;
  (match _value s0 with
   | Some _ => write_subject l (with_value s0 (Some v))
   | None => ret tt
   end) ;;
  s <- read_subject l ;;
  if closed s then throw ObjectUnsubscribedError
  else if isStopped s then ret tt
  else notify (observers s) (Next v).

(** [Subject.error] *)
Definition error (l : nat) (err : JsVal) : M unit :=
  s <- read_subject l ;;
  if closed s then throw ObjectUnsubscribedError
  else
    write_subject l (failed_subject s err) ;;
    notify (observers s) (Error err).

(** [Subject.complete] *)
Definition complete (l : nat) : M unit :=
  s <- read_subject l ;;
  if closed s then throw ObjectUnsubscribedError
  else
    write_subject l (completed_subject s) ;;
    notify (observers s) Complete.

(** [Subject.unsubscribe] *)
Definition unsubscribe_subject (l : nat) : M unit :=
  s <- read_subject l ;;
  write_subject l
    {| closed := true; isStopped := true; hasError := hasError s;
       thrownError := thrownError s; observers := []; _value := _value s |}.

(** [subject.subscribe(observer)]: a fresh observer attaches to the subject.
    A subject that has failed hands the error over at once, one that has
    stopped hands over the completion, a live [BehaviorSubject] its value. *)
Definition subscribe_observer (l : nat) : M nat :=
  o <- gets observerCount ;;
  modify (set_observerCount S) ;;
  s <- read_subject l ;;
  if closed s then throw ObjectUnsubscribedError
  else if hasError s then notify [o] (Error (thrownError s)) ;; ret o
  else if isStopped s then notify [o] Complete ;; ret o
  else
    write_subject l
      {| closed := closed s; isStopped := isStopped s; hasError := hasError s;
         thrownError := thrownError s; observers := observers s ++ [o];
         _value := _value s |} ;;
    (match _value s with
     | Some v => notify [o] (Next v)
     | None => ret tt
     end) ;;
    ret o.

(** What observer [o] has been handed so far, oldest first. *)
Definition observed (o : nat) (w : World) : list Notif :=
  map snd (filter (fun d => d.1 = o) (trace w)).

(** ** Timers of the runtime *)

Definition set_timer (delay : N) (per : option N) (a : TimerAction) : M nat :=
  id <- gets timerCount ;;
  modify (set_timerCount S) ;;
  t <- gets now ;;
  modify (set_timers (fun ts =>
    ts ++ [ {| tid := id; due := (t + delay)%N; period := per; callback := a |} ])) ;;
  ret id.

Definition setTimeout (a : TimerAction) (delay : N) : M nat :=
  set_timer delay None a.

Definition setInterval (a : TimerAction) (delay : N) : M nat :=
  set_timer delay (Some delay) a.

(** [clearTimeout(id)] and [clearInterval(id)]; [id] may be [undefined]. *)
Definition clear_timer (id : option nat) : M unit :=
  modify (set_timers (fun ts => filter (fun t => Some (tid t) <> id) ts)).

Definition clearTimeout (id : nat) : M unit := clear_timer (Some id).
Definition clearInterval (id : option nat) : M unit := clear_timer id.

(** ** Promises *)

Definition new_promise : M nat :=
  p <- gets (fun w => length (promises w)) ;;
  modify (set_promises (fun ps => ps ++ [Pending])) ;;
  ret p.

(** A promise settles once; later attempts are ignored. *)
Definition settle_one (p : nat) (o : Settled) : M unit :=
  ps <- gets promises ;;
  match ps !! p with
  | Some Pending => modify (set_promises (fun ps => <[p := o]> ps))
  | _ => ret tt
  end.

Definition fulfilled_value (ps : list Settled) (p : nat) : option PVal :=
  match ps !! p with
  | Some (Fulfilled v) => Some v
  | _ => None
  end.

(** The values of [inputs] if every one of them is fulfilled. *)
Fixpoint all_values (ps : list Settled) (inputs : list nat) : option (list PVal) :=
  match inputs with
  | [] => Some []
  | p :: inputs' =>
      match fulfilled_value ps p, all_values ps inputs' with
      | Some v, Some vs => Some (v :: vs)
      | _, _ => None
      end
  end.

Fixpoint first_rejection (ps : list Settled) (inputs : list nat) : option JsVal :=
  match inputs with
  | [] => None
  | p :: inputs' =>
      match ps !! p with
      | Some (Rejected e) => Some e
      | _ => first_rejection ps inputs'
      end
  end.

(** The reaction of one [Promise.all] aggregate to the settling of [p]. *)
Definition notify_all (p : nat) (o : Settled) (watch : list nat * nat) : M unit :=
  if decide (p ∈ watch.1) then
    match o with
    | Rejected e => settle_one watch.2 (Rejected e)
    | Fulfilled _ =>
        ps <- gets promises ;;
        match all_values ps watch.1 with
        | Some vs => settle_one watch.2 (Fulfilled (PArray vs))
        | None => ret tt
        end
    | Pending => ret tt
    end
  else ret tt.

Definition settle (p : nat) (o : Settled) : M unit :=
  ps <- gets promises ;;
  match ps !! p with
  | Some Pending =>
      modify (set_promises (fun ps => <[p := o]> ps)) ;;
      ws <- gets alls ;;
      for_each ws (notify_all p o)
  | _ => ret tt
  end.

Definition resolve (p : nat) (v : PVal) : M unit := settle p (Fulfilled v).
Definition reject (p : nat) (e : JsVal) : M unit := settle p (Rejected e).

(** [Promise.all(inputs)] *)
Definition Promise_all (inputs : list nat) : M nat :=
  target <- new_promise ;;
  ps <- gets promises ;;
  (match first_rejection ps inputs with
   | Some e => settle_one target (Rejected e)
   | None =>
       match all_values ps inputs with
       | Some vs => settle_one target (Fulfilled (PArray vs))
       | None => modify (set_alls (fun ws => ws ++ [(inputs, target)]))
       end
   end) ;;
  ret target.

(** ** The transport *)

Definition the_socket : M Socket :=
  c <- gets conn ;; defined (_socket c).

(** [this._socket.close()]: the close event itself comes later, from the
    transport. *)
Definition socket_close : M unit :=
  s <- the_socket ;;
  modify (set_conn (set__socket (Some
    {| ready := ready s; closeCalls := S (closeCalls s);
       listening := listening s; openPromise := openPromise s |}))).

(** [this._socket.call(method, params)] with the callbacks [k] attached to
    the promise it returns. *)
Definition socket_call (method : string) (params : JsVal) (k : Kont) : M unit :=
  _ <- the_socket ;;
  cid <- gets (fun w => length (outbox w)) ;;
  modify (set_outbox (fun ob => ob ++ [(method, params)])) ;;
  modify (set_pending (fun pd => pd ++ [(cid, k)])).

(** [this.emit(event)] *)
Definition emit (event : string) : M unit :=
  modify (set_emitted (fun es => es ++ [event])).

(** ** Notifications pushed by the node *)

Record Notification : Type := {
  subscriberId : N;
}.

Record AtomReceivedNotification : Type := {
  arn_notification :> Notification;
  atoms : list JsVal;
  isHead : bool;
}.

Record AtomSubmissionStateUpdateNotification : Type := {
  asn_notification :> Notification;
  value : string;
  message : option string;
}.

(** The notification by which the node reports [v] for subscriber [id]. *)
Definition state_notification (id : N) (v : string) (m : option string)
  : AtomSubmissionStateUpdateNotification :=
  {| asn_notification := {| subscriberId := id |}; value := v; message := m |}.

(** The notification that carries [batch] for subscriber [id]. *)
Definition atoms_notification (id : N) (batch : list JsVal) (head : bool)
  : AtomReceivedNotification :=
  {| arn_notification := {| subscriberId := id |}; atoms := batch; isHead := head |}.

(** A number used as a property key is its decimal form. *)
Definition key_of (n : N) : string := pretty n.

(** ** The methods of [RadixNodeConnection] *)

Definition getSubscriberId : M string :=
  modify (set_conn (fun c => set_lastSubscriberId (lastSubscriberId c + 1)%N c)) ;;
  c <- gets conn ;;
  ret (key_of (lastSubscriberId c)).

Definition isReady : M bool :=
  c <- gets conn ;;
  ret (match _socket c with
       | Some s => ready s
       | None => false
       end).

Definition ping : M unit :=
  r <- isReady ;;
  if r then socket_call "Network.getInfo" (JObj [("id", JNum 0)]) KPing
  else ret tt.

(** The callback of the timer armed by [openConnection]. *)
Definition on_open_timeout (p : nat) : M unit :=
  s <- the_socket ;;
  if negb (ready s) then
    socket_close ;;
    emit "closed" ;;
    reject p (JStr "Timeout")
  else ret tt.

(** [openConnection]: the body of the promise executor.  The listeners it
    registers on the new client are [on_socket_open], [on_socket_error] and
    [_onClosed] below. *)
Definition openConnection : M nat :=
  p <- new_promise ;;
  modify (set_conn (set__socket (Some
    {| ready := false; closeCalls := 0; listening := false; openPromise := p |}))) ;;
  _ <- setTimeout (OpenTimeout p) 5000 ;;
  ret p.

(** The listener for ['error'] registered by [openConnection]. *)
Definition on_socket_error (p : nat) (err : JsVal) : M unit :=
  reject p err.

(** The listener for ['open'] registered by [openConnection]. *)
Definition on_socket_open (p : nat) : M unit :=
  i <- setInterval Ping 10000 ;;
  modify (set_conn (set_pingInterval (Some i))) ;;
  emit "open" ;;
  s <- the_socket ;;
  modify (set_conn (set__socket (Some
    {| ready := ready s; closeCalls := closeCalls s; listening := true;
       openPromise := openPromise s |}))) ;;
  resolve p PUndefined.

Definition subscribe (address : string) : M (option nat) :=
  subscriberId <- getSubscriberId ;;
  modify (set_conn (set__addressSubscriptions (js_set address subscriberId))) ;;
  l <- new_subject None ;;
  modify (set_conn (set__subscriptions (js_set subscriberId l))) ;;
  b <- new_subject (Some (SVSynced false)) ;;
  modify (set_conn (set__syncedSubscriptions (js_set subscriberId b))) ;;
  socket_call "Atoms.subscribe"
    (JObj [("subscriberId", JStr subscriberId);
           ("query", JObj [("address", JStr address)]);
           ("debug", JBool true)])
    (KSubscribe address subscriberId) ;;
  c <- gets conn ;;
  ret (js_get subscriberId (_subscriptions c)).

(** [this._subscriptions[subscriberId]] where [subscriberId] itself may be
    [undefined]. *)
Definition lookup_optional_key {V} (k : option string) (o : JsObject V) : option V :=
  js_get (default "undefined" k) o.

Definition js_optional_string (k : option string) : JsVal :=
  match k with
  | Some s => JStr s
  | None => JUndefined
  end.

(** [unsubscribe(address)].  An exception in the executor rejects the
    promise. *)
Definition unsubscribe (address : string) : M nat :=
  c <- gets conn ;;
  let subscriberId := js_get address (_addressSubscriptions c) in
  p <- new_promise ;;
  try_catch
    (socket_call "Atoms.cancel"
       (JObj [("subscriberId", js_optional_string subscriberId)])
       (KUnsubscribe address subscriberId p))
    (fun e => reject p e) ;;
  ret p.

Definition isSynced (address : string) : M (option nat) :=
  c <- gets conn ;;
  let subscriberId := js_get address (_addressSubscriptions c) in
  ret (lookup_optional_key subscriberId (_syncedSubscriptions c)).

(** The [for ... in] loop of [unsubscribeAll]: the promises of the
    individual unsubscriptions, in the order of the addresses. *)
Fixpoint unsubscribe_each (addresses : list string) : M (list nat) :=
  match addresses with
  | [] => ret []
  | address :: rest =>
      p <- unsubscribe address ;;
      ps <- unsubscribe_each rest ;;
      ret (p :: ps)
  end.

(** [unsubscribeAll()].  The promise returned is settled by the aggregate
    exactly as the aggregate is, so the two are one promise here. *)
Definition unsubscribeAll : M nat :=
  c <- gets conn ;;
  unsubscriptions <- unsubscribe_each (js_keys (_addressSubscriptions c)) ;;
  Promise_all unsubscriptions.

(** The callback of the timer armed by [submitAtom]. *)
Definition on_submit_timeout (atomStateSubject : nat) : M unit :=
  socket_close ;;
  error atomStateSubject (JStr "Socket timeout").

Definition submitAtom (a : Atom) : M nat :=
  subscriberId <- getSubscriberId ;;
  atomStateSubject <- new_subject (Some (SVState "CREATED")) ;;
  modify (set_conn (set__atomUpdateSubjects (js_set subscriberId atomStateSubject))) ;;
  timeout <- setTimeout (SubmitTimeout atomStateSubject) 5000 ;;
  let atomJSON := atom_toJSON a in
  socket_call "Universe.submitAtomAndSubscribe"
    (JObj [("subscriberId", JStr subscriberId); ("atom", atomJSON)])
    (KSubmit timeout atomStateSubject) ;;
  ret atomStateSubject.

(** [getAtomById(id)]: an [async] method, so whatever is thrown in its body
    rejects the promise it returns. *)
Definition getAtomById (id : EUID) : M nat :=
  p <- new_promise ;;
  try_catch
    (socket_call "Atoms.getAtomInfo" (JObj [("id", euid_toJSON id)]) (KGetAtom p))
    (fun e => reject p e) ;;
  ret p.

Definition close : M unit := socket_close.

(** The body of a [for (const subscriberId in table)] loop of [_onClosed]. *)
Definition close_subject (table : JsObject nat) (subscriberId : string) : M unit :=
  l <- defined (js_get subscriberId table) ;;
  s <- read_subject l ;;
  if negb (closed s) then error l (JStr "Socket closed") else ret tt.

Definition _onClosed : M unit :=
  c <- gets conn ;;
  clearInterval (pingInterval c) ;;
  for_each (js_keys (_subscriptions c)) (close_subject (_subscriptions c)) ;;
  for_each (js_keys (_atomUpdateSubjects c)) (close_subject (_atomUpdateSubjects c)) ;;
  emit "closed".

Definition _onAtomSubmissionStateUpdate
    (notification : AtomSubmissionStateUpdateNotification) : M unit :=
  c <- gets conn ;;
  let value := value notification in
  let message := message notification in
  let subject := js_get (key_of (subscriberId notification)) (_atomUpdateSubjects c) in
  if String.eqb value "SUBMITTING" || String.eqb value "SUBMITTED" then
    l <- defined subject ;;
    next l (SVState value)
  else if String.eqb value "STORED" then
    l <- defined subject ;;
    next l (SVState value) ;;
    complete l
  else if String.eqb value "COLLISION" || String.eqb value "ILLEGAL_STATE"
          || String.eqb value "UNSUITABLE_PEER" || String.eqb value "VALIDATION_ERROR" then
    l <- defined subject ;;
    error l (JStr (value ++ ": " ++ js_string_of_optional message))
  else ret tt.

(** [RadixSerializer.fromJSON] on the array of a notification: element by
    element, in order; the first failure is thrown. *)
Fixpoint fromJSON_atoms (jsons : list JsVal) : M (list Atom) :=
  match jsons with
  | [] => ret []
  | j :: rest =>
      a <- lift_completion (fromJSON j) ;;
      others <- fromJSON_atoms rest ;;
      ret (a :: others)
  end.

(** One round of the loop "Check HIDs for testing": it only logs. *)
Definition check_hid (serialized : list JsVal) (i : nat) (deserializedAtom : Atom) : M unit :=
  let serializedAtom := default JUndefined (serialized !! i) in
  hid <- lift_completion (js_field "hid" serializedAtom) ;;
  if truthy hid then
    _ <- lift_completion (hid_equals deserializedAtom hid) ;;
    ret tt
  else ret tt.

Definition store_update (a : Atom) : StreamVal :=
  SVUpdate {| action := "STORE"; atom := a; processedData := JObj [] |}.

Definition _onAtomReceivedNotification (notification : AtomReceivedNotification) : M unit :=
  deserializedAtoms <- fromJSON_atoms (atoms notification) ;;
  let isHead := isHead notification in
  for_each_indexed 0 deserializedAtoms (check_hid (atoms notification)) ;;
  c <- gets conn ;;
  let subscription := js_get (key_of (subscriberId notification)) (_subscriptions c) in
  for_each deserializedAtoms (fun a =>
    l <- defined subscription ;;
    next l (store_update a)) ;;
  c <- gets conn ;;
  l <- defined (js_get (key_of (subscriberId notification)) (_syncedSubscriptions c)) ;;
  next l (SVSynced isHead).

(** ** Callbacks of the remote calls *)

Definition take_pending (cid : nat) : M (option Kont) :=
  pd <- gets pending ;;
  modify (set_pending (fun pd => filter (fun e => e.1 <> cid) pd)) ;;
  ret (snd <$> head (filter (fun e => e.1 = cid) pd)).

(** What runs when the promise of a remote call settles with [r]. *)
Definition on_settled (k : Kont) (r : Completion JsVal) : M unit :=
  match k with
  | KPing => ret tt
  | KSubscribe address subscriberId =>
      match r with
      | Normal _ => ret tt
      | Throw err =>
          c <- gets conn ;;
          l <- defined (js_get subscriberId (_subscriptions c)) ;;
          error l err
      end
  | KUnsubscribe address subscriberId p =>
      try_catch
        (response <- lift_completion r ;;
         modify (set_conn (set__addressSubscriptions (js_delete address))) ;;
         c <- gets conn ;;
         l <- defined (lookup_optional_key subscriberId (_subscriptions c)) ;;
         complete l ;;
         resolve p (PJs response))
        (fun err => reject p err)
  | KSubmit timeout atomStateSubject =>
      try_catch
        (_ <- lift_completion r ;;
         clearTimeout timeout ;;
         next atomStateSubject (SVState "SUBMITTED"))
        (fun err =>
           clearTimeout timeout ;;
           error atomStateSubject err)
  | KGetAtom p =>
      try_catch
        (response <- lift_completion r ;;
         result <- lift_completion (js_field "result" response) ;;
         a <- lift_completion (fromJSON result) ;;
         resolve p (PAtom a))
        (fun err => reject p err)
  end.

(** ** The event loop *)

Inductive Event : Type :=
(** from the transport *)
| SocketOpen
| SocketClose
| SocketError (err : JsVal)
| RpcSettled (call : nat) (r : Completion JsVal)
| AtomsSubscribeUpdate (notification : AtomReceivedNotification)
| AtomSubmissionStateOnNext (notification : AtomSubmissionStateUpdateNotification)
(** from the application *)
| CallOpenConnection
| CallSubscribe (address : string)
| CallUnsubscribe (address : string)
| CallUnsubscribeAll
| CallSubmitAtom (a : Atom)
| CallGetAtomById (id : EUID)
| CallClose
| CallObserve (l : nat)
| CallUnsubscribeSubject (l : nat).

Definition set_ready (b : bool) : M unit :=
  c <- gets conn ;;
  match _socket c with
  | Some s =>
      modify (set_conn (set__socket (Some
        {| ready := b; closeCalls := closeCalls s; listening := listening s;
           openPromise := openPromise s |})))
  | None => ret tt
  end.

Definition handle (ev : Event) : M unit :=
  match ev with
  | SocketOpen =>
      c <- gets conn ;;
      match _socket c with
      | Some s => set_ready true ;; on_socket_open (openPromise s)
      | None => ret tt
      end
  | SocketClose =>
      c <- gets conn ;;
      match _socket c with
      | Some s => set_ready false ;; _onClosed
      | None => ret tt
      end
  | SocketError err =>
      c <- gets conn ;;
      match _socket c with
      | Some s => on_socket_error (openPromise s) err
      | None => ret tt
      end
  | RpcSettled call r =>
      k <- take_pending call ;;
      match k with
      | Some k => on_settled k r
      | None => ret tt
      end
  | AtomsSubscribeUpdate notification =>
      c <- gets conn ;;
      match _socket c with
      | Some s => if listening s then _onAtomReceivedNotification notification else ret tt
      | None => ret tt
      end
  | AtomSubmissionStateOnNext notification =>
      c <- gets conn ;;
      match _socket c with
      | Some s => if listening s then _onAtomSubmissionStateUpdate notification else ret tt
      | None => ret tt
      end
  | CallOpenConnection => _ <- openConnection ;; ret tt
  | CallSubscribe address => _ <- subscribe address ;; ret tt
  | CallUnsubscribe address => _ <- unsubscribe address ;; ret tt
  | CallUnsubscribeAll => _ <- unsubscribeAll ;; ret tt
  | CallSubmitAtom a => _ <- submitAtom a ;; ret tt
  | CallGetAtomById id => _ <- getAtomById id ;; ret tt
  | CallClose => close
  | CallObserve l => _ <- subscribe_observer l ;; ret tt
  | CallUnsubscribeSubject l => unsubscribe_subject l
  end.

(** Runs a task of the event loop; an exception that escapes it is recorded. *)
Definition task (m : M unit) (w : World) : World :=
  match m w with
  | (Normal _, w') => w'
  | (Throw e, w') => set_uncaught (fun es => es ++ [e]) w'
  end.

Definition step (ev : Event) (w : World) : World := task (handle ev) w.

(** *** Timers *)

Definition run_callback (a : TimerAction) : M unit :=
  match a with
  | OpenTimeout p => on_open_timeout p
  | SubmitTimeout atomStateSubject => on_submit_timeout atomStateSubject
  | Ping => ping
  end.

(** The armed timer that is due first; among equals the one armed first. *)
Fixpoint next_timer (ts : list Timer) : option Timer :=
  match ts with
  | [] => None
  | t :: ts' =>
      match next_timer ts' with
      | Some t' => Some (if (due t' <? due t)%N then t' else t)
      | None => Some t
      end
  end.

Definition reschedule (id : nat) (p : N) (t : Timer) : Timer :=
  if decide (tid t = id) then
    {| tid := tid t; due := (due t + p)%N; period := period t; callback := callback t |}
  else t.

(** The armed timers once [tm] has fired: a timeout is disarmed and an
    interval is armed again. *)
Definition timers_after (tm : Timer) (ts : list Timer) : list Timer :=
  match period tm with
  | None => filter (fun t => tid t <> tid tm) ts
  | Some p => map (reschedule (tid tm) p) ts
  end.

(** The runtime fires [tm]: the clock reaches its due time, the timer is
    disarmed or armed again, and then the callback runs. *)
Definition fire (tm : Timer) : M unit :=
  modify (set_now (N.max (due tm))) ;;
  modify (set_timers (timers_after tm)) ;;
  run_callback (callback tm).

(** How often timer [tm] fires up to time [t]. *)
Definition firings_of (t : N) (tm : Timer) : nat :=
  if (due tm <=? t)%N then
    match period tm with
    | None => 1
    | Some p => S (N.to_nat ((t - due tm) / p))
    end
  else 0.

Definition firings (t : N) (ts : list Timer) : nat :=
  sum_list (map (firings_of t) ts).

Fixpoint run_timers (fuel : nat) (t : N) (w : World) : World :=
  match fuel with
  | 0 => w
  | S fuel' =>
      match next_timer (timers w) with
      | Some tm =>
          if (due tm <=? t)%N then run_timers fuel' t (task (fire tm) w)
          else w
      | None => w
      end
  end.

(** Lets the clock reach [t]: every timer due by then fires, in order. *)
Definition advance (t : N) (w : World) : World :=
  set_now (N.max t) (run_timers (firings t (timers w)) t w).

(** An event that arrives at time [t]. *)
Definition deliver (te : N * Event) (w : World) : World :=
  step te.2 (advance te.1 w).

Definition run (evs : list (N * Event)) (w : World) : World :=
  foldl (fun w te => deliver te w) w evs.

(** The values of a submission state notification that the switch of
    [_onAtomSubmissionStateUpdate] has a case for. *)
Definition progress_states : list string := ["SUBMITTING"; "SUBMITTED"].
Definition failure_states : list string :=
  ["COLLISION"; "ILLEGAL_STATE"; "UNSUITABLE_PEER"; "VALIDATION_ERROR"].
Definition known_states : list string :=
  progress_states ++ ["STORED"] ++ failure_states.

(** A connection as the constructor leaves it. *)
Definition new_connection : World :=
  {| conn := {| pingInterval := None; _socket := None; _subscriptions := [];
                _atomUpdateSubjects := []; _addressSubscriptions := [];
                _syncedSubscriptions := []; lastSubscriberId := 1 |};
     subjects := []; trace := []; observerCount := 0;
     now := 0; timers := []; timerCount := 0;
     outbox := []; pending := [];
     promises := []; alls := [];
     emitted := []; uncaught := [] |}.

End Embedding.

Arguments RadixAtomUpdate {_}.
Arguments StreamVal {_}.
Arguments Notif {_}.
Arguments Subject {_}.
Arguments PVal {_}.
Arguments Settled {_}.
Arguments World {_}.
Arguments Event {_}.
Arguments M {_} A.

(** ** A small serializer to run the connection with

    Atoms are their own wire form: a string, or an object whose ["body"] is
    a string and whose ["hid"], when given, must be that string again. *)
Module Sample.

Definition decode (j : JsVal) : Completion string :=
  match j with
  | JStr s => Normal s
  | JObj fields =>
      match js_get "body" fields with
      | Some (JStr s) => Normal s
      | _ => Throw (JError "SchemaMismatch" "body")
      end
  | _ => Throw (JError "UnknownType" "atom")
  end.

Definition same_hid (a : string) (hid : JsVal) : Completion bool :=
  match hid with
  | JStr s => Normal (String.eqb a s)
  | _ => Throw (JError "MalformedIdentifier" "hid")
  end.

#[export] Instance serializer : Serializer := {|
  Atom := string;
  atom_toJSON := JStr;
  fromJSON := decode;
  hid_equals := same_hid;
  EUID := N;
  euid_toJSON := fun n => JStr (pretty n);
|}.

(** An open connection, 100 ms after [openConnection]. *)
Definition opened : World :=
  run [(0%N, CallOpenConnection); (100%N, SocketOpen)] new_connection.

(** An atom is submitted on it and the caller subscribes to the state
    stream that [submitAtom] returns: subject 0, observer 0, call 0,
    subscriber identifier 2. *)
Definition submitted : World :=
  run [(200%N, CallSubmitAtom "atom"); (200%N, CallObserve 0)] opened.

(** The node accepts the call. *)
Definition acknowledged : World :=
  run [(300%N, RpcSettled 0 (Normal JNull))] submitted.


(** The node reports STORED, 400 ms in. *)
Definition stored : World :=
  run [(400%N, AtomSubmissionStateOnNext (state_notification 2 "STORED" None))]
    acknowledged.

(** The socket closes after the atom has been stored, and somebody
    subscribes to the state stream after that. *)
Definition stored_then_closed : World :=
  run [(500%N, SocketClose); (600%N, CallObserve 0)] stored.

(** On the open connection somebody subscribes for address A1 and attaches
    to the delivery channel (subject 0, observer 0) and to the sync channel
    (subject 1, observer 1); the subscriber identifier is 2. *)
Definition subscribed : World :=
  run [(150%N, CallSubscribe "A1"); (150%N, CallObserve 0); (150%N, CallObserve 1)]
    opened.

Definition delivery_channel : Subject :=
  {| closed := false; isStopped := false; hasError := false; thrownError := JNull;
     observers := [0]; _value := None |}.

Definition sync_channel : Subject :=
  {| closed := false; isStopped := false; hasError := false; thrownError := JNull;
     observers := [1]; _value := Some (SVSynced false) |}.

(** A batch of two atoms, the second with its identifier. *)
Definition batch : list JsVal :=
  [JStr "atomA"; JObj [("body", JStr "atomB"); ("hid", JStr "atomB")]].

(** Two addresses are subscribed, the node has acknowledged both, and
    [unsubscribeAll] is called: promises 1 and 2 are the unsubscriptions of
    A1 and A2 (calls 2 and 3), promise 3 is the one returned. *)
Definition unsubscribing : World :=
  run [(150%N, CallSubscribe "A1"); (160%N, CallSubscribe "A2");
       (180%N, RpcSettled 0 (Normal JNull)); (180%N, RpcSettled 1 (Normal JNull));
       (200%N, CallUnsubscribeAll)] opened.

(** The node refuses to cancel A1 and has not answered for A2. *)
Definition first_refused : World :=
  run [(300%N, RpcSettled 2 (Throw (JStr "refused")))] unsubscribing.

(** The socket opens in time and closes again 100 ms later; the clock then
    reaches the 5000 ms of the timer that [openConnection] armed. *)
Definition opened_then_closed : World :=
  advance 5000 (run [(200%N, SocketClose)] opened).


(** The subscription for A1 is cancelled, call 1, and the node accepts: the
    delivery channel has completed. *)
Definition unsubscribed : World :=
  run [(200%N, CallUnsubscribe "A1"); (300%N, RpcSettled 1 (Normal JNull))] subscribed.

(** The socket of the open connection. *)
Definition open_socket : Socket :=
  {| ready := true; closeCalls := 0; listening := true; openPromise := 0 |}.

End Sample.

(** * Properties of the connection *)

Section Facts.
Context `{Serializer}.

(** ** Vocabulary of the statements *)

(** [m] keeps [P], whether it returns or throws. *)
Definition preserves {A} (P : World -> Prop) (m : M A) : Prop :=
  forall w, P w -> P (exec m w).

Definition silent (l : nat) (w : World) : Prop :=
  exists s, subjects w !! l = Some s /\ isStopped s = true /\ observers s = [].

(** The diagnostic check of one atom against its wire form does not throw. *)
Definition hid_check_passes (serializedAtom : JsVal) (a : Atom) : Prop :=
  match js_field "hid" serializedAtom with
  | Normal hid => truthy hid = true -> exists b, hid_equals a hid = Normal b
  | Throw _ => False
  end.

(** The batch [jsons] deserializes to [das], atom by atom. *)
Definition deserializes (jsons : list JsVal) (das : list Atom) : Prop :=
  Forall2 (fun j a => fromJSON j = Normal a /\ hid_check_passes j a) jsons das.


(** The subject that [submitAtom] makes. *)
Definition created_subject : Subject :=
  {| closed := false; isStopped := false; hasError := false;
     thrownError := JNull; observers := []; _value := Some (SVState "CREATED") |}.

(** The world in which [submitAtom a] makes its remote call: the subject is
    registered and the timer armed. *)
Definition before_submit_call (w : World) : World :=
  let subscriberId := key_of (lastSubscriberId (conn w) + 1) in
  let atomStateSubject := length (subjects w) in
  set_timers (fun ts => ts ++
      [ {| tid := timerCount w; due := (now w + 5000)%N; period := None;
           callback := SubmitTimeout atomStateSubject |} ])
    (set_timerCount S
      (set_conn (set__atomUpdateSubjects (js_set subscriberId atomStateSubject))
        (set_subjects (fun hp => hp ++ [created_subject])
          (set_conn (fun c => set_lastSubscriberId (lastSubscriberId c + 1)%N c) w)))).

(** The world that [submitAtom a] leaves when there is a socket. *)
Definition after_submitAtom (a : Atom) (w : World) : World :=
  let subscriberId := key_of (lastSubscriberId (conn w) + 1) in
  set_pending (fun pd => pd ++
      [(length (outbox w), KSubmit (timerCount w) (length (subjects w)))])
    (set_outbox (fun ob => ob ++
        [("Universe.submitAtomAndSubscribe",
          JObj [("subscriberId", JStr subscriberId); ("atom", atom_toJSON a)])])
      (before_submit_call w)).

(** The subjects that [subscribe] makes. *)
Definition delivery_subject : Subject :=
  {| closed := false; isStopped := false; hasError := false;
     thrownError := JNull; observers := []; _value := None |}.

Definition unsynced_subject : Subject :=
  {| closed := false; isStopped := false; hasError := false;
     thrownError := JNull; observers := []; _value := Some (SVSynced false) |}.

(** The world in which [subscribe(address)] makes its remote call. *)
Definition before_subscribe_call (address : string) (w : World) : World :=
  let subscriberId := key_of (lastSubscriberId (conn w) + 1) in
  set_conn (set__syncedSubscriptions (js_set subscriberId (length (subjects w) + 1)))
    (set_subjects (fun hp => hp ++ [unsynced_subject])
      (set_conn (set__subscriptions (js_set subscriberId (length (subjects w))))
        (set_subjects (fun hp => hp ++ [delivery_subject])
          (set_conn (set__addressSubscriptions (js_set address subscriberId))
            (set_conn (fun c => set_lastSubscriberId (lastSubscriberId c + 1)%N c) w))))).

(** The world that [subscribe(address)] leaves when there is a socket. *)
Definition after_subscribe (address : string) (w : World) : World :=
  let subscriberId := key_of (lastSubscriberId (conn w) + 1) in
  set_pending (fun pd => pd ++ [(length (outbox w), KSubscribe address subscriberId)])
    (set_outbox (fun ob => ob ++
        [("Atoms.subscribe",
          JObj [("subscriberId", JStr subscriberId);
                ("query", JObj [("address", JStr address)]);
                ("debug", JBool true)])])
      (before_subscribe_call address w)).

(** What holds of every world that the connection can be in: the counters
    are ahead of every name handed out, timers have distinct names and
    intervals a positive period, and whatever refers to a subject refers to
    one that exists. *)
Record well_formed (w : World) : Prop := {
  wf_timer_ids : Forall (fun tm => tid tm < timerCount w) (timers w);
  wf_timer_distinct : List.NoDup (map tid (timers w));
  wf_timer_periods : Forall (fun tm => period tm <> Some 0%N) (timers w);
  wf_timer_subjects :
    Forall (fun tm => forall l, callback tm = SubmitTimeout l -> l < length (subjects w))
      (timers w);
  wf_observers :
    Forall (fun s => Forall (fun o => o < observerCount w) (observers s)) (subjects w);
  wf_trace : Forall (fun d => d.1 < observerCount w) (trace w);
  wf_pending : Forall (fun e => e.1 < length (outbox w)) (pending w);
  wf_pending_subjects :
    Forall (fun e => forall t l, e.2 = KSubmit t l ->
                       l < length (subjects w) /\ t < timerCount w) (pending w);
  wf_subscriptions :
    Forall (fun e => e.2 < length (subjects w)) (_subscriptions (conn w));
  wf_atomUpdateSubjects :
    Forall (fun e => e.2 < length (subjects w)) (_atomUpdateSubjects (conn w));
  wf_syncedSubscriptions :
    Forall (fun e => e.2 < length (subjects w)) (_syncedSubscriptions (conn w));
}.

(** The stream of a submission that nothing has answered yet: subject [l]
    holds exactly [s], observer [o] has seen exactly [seen] and watches no
    other subject, and the timers whose callback fails [l] are exactly
    [guards]. *)
Record watched (l o : nat) (s : Subject) (seen : list Notif) (guards : list Timer)
    (w : World) : Prop := {
  watched_subject : subjects w !! l = Some s;
  watched_seen : observed o w = seen;
  watched_elsewhere :
    forall l' s', l' <> l -> subjects w !! l' = Some s' -> ~ In o (observers s');
  watched_guards :
    filter (fun tm => callback tm = SubmitTimeout l) (timers w) = guards;
  watched_socket : exists sock, _socket (conn w) = Some sock;
}.

(** [w] has the subjects, the trace and the timers of [w0], and a socket if
    [w0] has one. *)
Definition same_streams (w0 w : World) : Prop :=
  subjects w = subjects w0 /\ trace w = trace w0 /\ timers w = timers w0
  /\ (is_Some (_socket (conn w0)) -> is_Some (_socket (conn w))).

(** [close()] has been called on the socket at least [c] times. *)
Definition close_count (c : nat) (w : World) : Prop :=
  exists sock, _socket (conn w) = Some sock /\ c <= closeCalls sock.

(** What [submitAtom] says when nothing answers in time. *)
Definition socket_timeout : JsVal := JStr "Socket timeout".

(** [w] differs from [w0] at most in its promises. *)
Definition only_promises (w0 w : World) : Prop :=
  conn w = conn w0 /\ subjects w = subjects w0 /\ trace w = trace w0
  /\ observerCount w = observerCount w0 /\ now w = now w0
  /\ timers w = timers w0 /\ timerCount w = timerCount w0
  /\ outbox w = outbox w0 /\ pending w = pending w0
  /\ alls w = alls w0 /\ emitted w = emitted w0 /\ uncaught w = uncaught w0.

(** The remote call that [unsubscribe(address)] makes when the address is
    registered under [subscriberId]. *)
Definition cancel_call (subscriberId : option string) : string * JsVal :=
  ("Atoms.cancel", JObj [("subscriberId", js_optional_string subscriberId)]).

(** The world that [unsubscribe(address)] leaves when there is a socket. *)
Definition after_unsubscribe (address : string) (w : World) : World :=
  let subscriberId := js_get address (_addressSubscriptions (conn w)) in
  set_pending (fun pd => pd ++
      [(length (outbox w), KUnsubscribe address subscriberId (length (promises w)))])
    (set_outbox (fun ob => ob ++ [cancel_call subscriberId])
      (set_promises (fun ps => ps ++ [Pending]) w)).


(** The world that the loop of [unsubscribeAll] leaves when there is a
    socket. *)
Fixpoint after_unsubscribe_each (addresses : list string) (w : World) : World :=
  match addresses with
  | [] => w
  | address :: rest => after_unsubscribe_each rest (after_unsubscribe address w)
  end.

(** Promise [q] is fulfilled in [w]. *)
Definition fulfilled (w : World) (q : nat) : Prop :=
  exists v, promises w !! q = Some (Fulfilled v).

(** [m] keeps [P], whether it returns or throws, and what it returns
    satisfies [Q]. *)
Definition keeps {A} (P : World -> Prop) (m : M A) (Q : A -> Prop) : Prop :=
  forall w, P w -> P (exec m w) /\ forall a, (m w).1 = Normal a -> Q a.

(** A callback of a remote call that has nothing to do with the submission
    whose stream is [l] and whose timeout is [tid0]. *)
Definition kont_isolated (l tid0 : nat) (k : Kont) : Prop :=
  forall t l', k = KSubmit t l' -> t <> tid0 /\ l' <> l.

(** The tables of the connection reach subject [l] at most under [key], as
    the stream of a submission. *)
Record conn_isolated (l : nat) (key : string) (c : Conn) : Prop := {
  iso_subscriptions : Forall (fun e => e.2 <> l) (_subscriptions c);
  iso_syncedSubscriptions : Forall (fun e => e.2 <> l) (_syncedSubscriptions c);
  iso_atomUpdateSubjects : Forall (fun e => e.2 = l -> e.1 = key) (_atomUpdateSubjects c);
}.

(** Subject [l], observer [o], timer [tid0] and remote call [cid0] exist,
    and apart from that call and from [key] nothing refers to them. *)
Record isolated (l o tid0 cid0 : nat) (key : string) (w : World) : Prop := {
  iso_subject : l < length (subjects w);
  iso_observer : o < observerCount w;
  iso_timer : tid0 < timerCount w;
  iso_call : cid0 < length (outbox w);
  iso_conn : conn_isolated l key (conn w);
  iso_pending : Forall (fun e => e.1 <> cid0 -> kont_isolated l tid0 e.2) (pending w);
}.

(** The stream [l] of a submission while only other things happen. *)
Record attended (l o tid0 cid0 : nat) (key : string) (s : Subject)
    (seen : list Notif) (guards : list Timer) (c : nat) (w : World) : Prop := {
  att_watched : watched l o s seen guards w;
  att_guards : Forall (fun tm => tid tm = tid0) guards;
  att_isolated : isolated l o tid0 cid0 key w;
  att_close_count : close_count c w;
}.

(** The events that leave alone the submission with subscriber identifier
    [id0], remote call [cid0] and stream [l], and the socket it was made
    on: the remote call does not settle, the node reports nothing under
    [id0], the socket neither closes nor is replaced, and the application
    does not touch the stream. *)
Definition unrelated (id0 : N) (cid0 l : nat) (ev : Event) : Prop :=
  match ev with
  | SocketClose | CallOpenConnection => False
  | RpcSettled call _ => call <> cid0
  | AtomSubmissionStateOnNext notification => subscriberId notification <> id0
  | CallObserve l' | CallUnsubscribeSubject l' => l' <> l
  | _ => True
  end.

(** The stream of a submission before anything has touched it, with its
    one observer [o]. *)
Definition created_stream (o : nat) : Subject :=
  {| closed := false; isStopped := false; hasError := false; thrownError := JNull;
     observers := [o]; _value := Some (SVState "CREATED") |}.

(** The events that do not answer the submission with subscriber identifier
    [id0], remote call [cid0] and stream [l], and leave the socket it was
    made on: the remote call does not settle, the node does not report the
    atom stored or refused, the socket neither closes nor is replaced, and
    the application does not unsubscribe the stream. *)
Definition unanswering (id0 : N) (cid0 l : nat) (ev : Event) : Prop :=
  match ev with
  | SocketClose | CallOpenConnection => False
  | RpcSettled call _ => call <> cid0
  | AtomSubmissionStateOnNext notification =>
      subscriberId notification = id0 ->
      ~ In (value notification) ("STORED" :: failure_states)
  | CallUnsubscribeSubject l' => l' <> l
  | _ => True
  end.

(** The progress that an event reports for submission [id0]. *)
Definition own_report (id0 : N) (ev : Event) : list string :=
  match ev with
  | AtomSubmissionStateOnNext notification =>
      if decide (subscriberId notification = id0) then
        if String.eqb (value notification) "SUBMITTING"
           || String.eqb (value notification) "SUBMITTED"
        then [value notification] else []
      else []
  | _ => []
  end.

Definition own_reports (id0 : N) (evs : list (N * Event)) : list string :=
  flat_map (fun te => own_report id0 te.2) evs.

(** A stream that has not ended and has [o] among its observers, once. *)
Record observing (o : nat) (s : Subject) : Prop := {
  obs_open : closed s = false;
  obs_running : isStopped s = false;
  obs_sound : hasError s = false;
  obs_there : In o (observers s);
  obs_once : List.NoDup (observers s);
}.

(** A stream that has failed with the timeout of the submission. *)
Record expired (s : Subject) : Prop := {
  exp_open : closed s = false;
  exp_stopped : isStopped s = true;
  exp_failed : hasError s = true;
  exp_error : thrownError s = socket_timeout;
  exp_alone : observers s = [];
}.

(** What the subscriber of a submission has been handed when the progress
    [reports] has reached the stream. *)
Definition handed (reports : list string) : list Notif :=
  Next (SVState "CREATED") :: map (fun v => Next (SVState v)) reports.

(** The submission waits for its answer: the timeout [tm0] is armed, the
    stream runs and the subscriber has been handed [reports]. *)
Definition waiting (l o tid0 cid0 : nat) (key : string) (tm0 : Timer) (c : nat)
    (reports : list string) (w : World) : Prop :=
  exists s, observing o s
    /\ attended l o tid0 cid0 key s (handed reports) [tm0] c w.

(** The timeout of the submission has fired. *)
Definition timed_out (l o tid0 cid0 : nat) (key : string) (c : nat)
    (reports : list string) (w : World) : Prop :=
  exists s, expired s
    /\ attended l o tid0 cid0 key s (handed reports ++ [Error socket_timeout]) [] c w.

(** ** Vocabulary of the further properties *)

(** The worlds that the connection gets to from its construction. *)
Definition reachable (w : World) : Prop :=
  exists evs, w = run evs new_connection.

(** [k] is the decimal form of a subscriber identifier that has been handed
    out when the last one was [last]; the first is 2. *)
Definition issued (last : N) (k : string) : Prop :=
  exists n, k = key_of n /\ (1 < n <= last)%N.

(** Every key of the tables that are keyed by subscriber identifier, and
    every identifier recorded for an address, has been handed out. *)
Record ids_issued (w : World) : Prop := {
  ids_first : (1 <= lastSubscriberId (conn w))%N;
  ids_subscriptions :
    Forall (fun e => issued (lastSubscriberId (conn w)) e.1) (_subscriptions (conn w));
  ids_atomUpdateSubjects :
    Forall (fun e => issued (lastSubscriberId (conn w)) e.1)
      (_atomUpdateSubjects (conn w));
  ids_syncedSubscriptions :
    Forall (fun e => issued (lastSubscriberId (conn w)) e.1)
      (_syncedSubscriptions (conn w));
  ids_addressSubscriptions :
    Forall (fun e => issued (lastSubscriberId (conn w)) e.2)
      (_addressSubscriptions (conn w));
}.

(** [w'] differs from [w] at most in subject [l] and in what the observers
    of [l] have been handed: the observers that [l] had are handed
    something or dropped, and nothing else is touched. *)
Record only_stream (l : nat) (w w' : World) : Prop := {
  os_conn : conn w' = conn w;
  os_observerCount : observerCount w' = observerCount w;
  os_now : now w' = now w;
  os_timers : timers w' = timers w;
  os_timerCount : timerCount w' = timerCount w;
  os_outbox : outbox w' = outbox w;
  os_pending : pending w' = pending w;
  os_promises : promises w' = promises w;
  os_alls : alls w' = alls w;
  os_emitted : emitted w' = emitted w;
  os_uncaught : uncaught w' = uncaught w;
  os_others : forall l', l' <> l -> subjects w' !! l' = subjects w !! l';
  os_observers :
    forall s', subjects w' !! l = Some s' ->
      exists s, subjects w !! l = Some s
        /\ (observers s' = observers s \/ observers s' = []);
  os_trace :
    exists ds, trace w' = trace w ++ ds
      /\ forall d s, In d ds -> subjects w !! l = Some s -> In d.1 (observers s);
}.

(** What [_onClosed] fails the streams with. *)
Definition socket_closed : JsVal := JStr "Socket closed".

(** [if (!subject.closed) subject.error(err)] on the subject at [l]. *)
Definition fail_open (err : JsVal) (w : World) (l : nat) : World :=
  match subjects w !! l with
  | Some s =>
      if closed s then w
      else set_trace (fun t => t ++ deliveries (observers s) (Error err))
             (set_subjects (fun hp => <[l := failed_subject s err]> hp) w)
  | None => w
  end.

Definition fail_all (err : JsVal) (ls : list nat) (w : World) : World :=
  foldl (fail_open err) w ls.

(** The subjects that a [for ... in] loop over [table] comes by, in its
    order. *)
Definition targets (table : JsObject nat) : list nat :=
  omap (fun k => js_get k table) (js_keys table).

(** Subject [l] is the delivery channel of a subscription or the stream of
    a submission. *)
Definition registered (w : World) (l : nat) : Prop :=
  exists k, js_get k (_subscriptions (conn w)) = Some l
            \/ js_get k (_atomUpdateSubjects (conn w)) = Some l.

(** The socket that [openConnection] makes, for promise [p], after
    [closes] calls of [close()]. *)
Definition new_socket (p closes : nat) : Socket :=
  {| ready := false; closeCalls := closes; listening := false; openPromise := p |}.

(** The timer that [openConnection] arms in [w]. *)
Definition open_timer (w : World) : Timer :=
  {| tid := timerCount w; due := (now w + 5000)%N; period := None;
     callback := OpenTimeout (length (promises w)) |}.

(** The world that [openConnection] leaves. *)
Definition after_openConnection (w : World) : World :=
  set_timers (fun ts => ts ++ [open_timer w])
    (set_timerCount S
      (set_conn (set__socket (Some (new_socket (length (promises w)) 0)))
        (set_promises (fun ps => ps ++ [Pending]) w))).

(** Promise [p] has settled. *)
Definition settled (p : nat) (w : World) : Prop :=
  exists r, promises w !! p = Some r /\ r <> Pending.

(** The timer with name [tid0] that rejects promise [p] at [T]. *)
Definition open_timeout (p tid0 : nat) (T : N) : Timer :=
  {| tid := tid0; due := T; period := None; callback := OpenTimeout p |}.

(** Promise [p] of [openConnection] while nothing has replaced the socket:
    as long as it is pending, its timer is armed and the socket made for it
    is there and has not opened; and nothing else refers to the timer. *)
Record opening (p tid0 : nat) (T : N) (w : World) : Prop := {
  op_promise : p < length (promises w);
  op_timer : tid0 < timerCount w;
  op_interval : pingInterval (conn w) <> Some tid0;
  op_pending : Forall (fun e => forall t l, e.2 = KSubmit t l -> t <> tid0) (pending w);
  op_armed :
    promises w !! p = Some Pending ->
    In (open_timeout p tid0 T) (timers w)
    /\ exists sock, _socket (conn w) = Some sock /\ openPromise sock = p
                    /\ ready sock = false;
}.

(** The ping interval on record is a timer that has been made. *)
Definition interval_known (w : World) : Prop :=
  forall i, pingInterval (conn w) = Some i -> i < timerCount w.

(** [ks] are the decimal forms of subscriber identifiers handed out up to
    [last], in strictly increasing order. *)
Definition ascending (last : N) (ks : list string) : Prop :=
  exists ns, ks = map key_of ns /\ StronglySorted N.lt ns
             /\ Forall (fun n => (1 < n <= last)%N) ns.

(** The tables of the subscriptions go together: their keys are subscriber
    identifiers in increasing order, a subscription has its delivery channel
    and its sync channel under the same identifier, and the identifier
    recorded for an address is one of them. *)
Record tables_linked (w : World) : Prop := {
  tl_first : (1 <= lastSubscriberId (conn w))%N;
  tl_subscriptions :
    ascending (lastSubscriberId (conn w)) (js_keys (_subscriptions (conn w)));
  tl_atomUpdateSubjects :
    ascending (lastSubscriberId (conn w)) (js_keys (_atomUpdateSubjects (conn w)));
  tl_synced :
    js_keys (_syncedSubscriptions (conn w)) = js_keys (_subscriptions (conn w));
  tl_addresses :
    Forall (fun e => is_Some (js_get e.2 (_subscriptions (conn w))))
      (_addressSubscriptions (conn w));
}.

(** The promise that the callback of a remote call settles. *)
Definition kont_promise (k : Kont) : option nat :=
  match k with
  | KUnsubscribe _ _ q => Some q
  | KGetAtom q => Some q
  | _ => None
  end.

(** Whatever is to settle a promise later, the callback of a remote call,
    an aggregate or a timer, refers to a promise that has been made. *)
Record promises_known (w : World) : Prop := {
  pk_pending :
    Forall (fun e => forall q, kont_promise e.2 = Some q -> q < length (promises w))
      (pending w);
  pk_alls : Forall (fun watch => watch.2 < length (promises w)) (alls w);
  pk_timers :
    Forall (fun x => forall q, callback x = OpenTimeout q -> q < length (promises w))
      (timers w);
}.

(** The same while the promises [qs] are being set up. *)
Definition promises_known_with (qs : list nat) (w : World) : Prop :=
  promises_known w /\ Forall (fun q => q < length (promises w)) qs.

(** Promise [p] of [openConnection] while the socket neither opens nor
    fails and nothing replaces it: only its own timer can settle it, and
    its state is [st]. *)
Record alone (p tid0 : nat) (T : N) (st : Settled) (w : World) : Prop := {
  al_opening : opening p tid0 T w;
  al_pending : Forall (fun e => kont_promise e.2 <> Some p) (pending w);
  al_alls : Forall (fun watch => watch.2 <> p) (alls w);
  al_timers : Forall (fun x => callback x = OpenTimeout p -> tid x = tid0) (timers w);
  al_state : promises w !! p = Some st;
}.

(** What the timer of [openConnection] rejects the promise with. *)
Definition open_timed_out : Settled := Rejected (JStr "Timeout").

(** The events that leave the opening of the socket undecided. *)
Definition undecided (ev : Event) : Prop :=
  match ev with
  | SocketOpen | SocketError _ | CallOpenConnection => False
  | _ => True
  end.

(** ** Properties that computations preserve *)

Lemma exec_bind {A B} (m : M A) (k : A -> M B) (w : World) :
  exec (bind m k) w =
    match m w with
    | (Normal a, w') => exec (k a) w'
    | (Throw _, w') => w'
    end.
Proof. unfold exec, bind. destruct (m w) as [[a|e] w']; reflexivity. Qed.

Lemma preserves_ret {A} (P : World -> Prop) (a : A) : preserves P (ret a).
Proof. by intros w. Qed.

Lemma preserves_throw {A} (P : World -> Prop) (e : JsVal) : preserves P (@throw _ A e).
Proof. by intros w. Qed.

Lemma preserves_gets {A} (P : World -> Prop) (f : World -> A) : preserves P (gets f).
Proof. by intros w. Qed.

Lemma preserves_lift_completion {A} (P : World -> Prop) (c : Completion A) :
  preserves P (lift_completion c).
Proof. by intros w. Qed.

Lemma preserves_defined {A} (P : World -> Prop) (x : option A) : preserves P (defined x).
Proof. destruct x; by intros w. Qed.

Lemma preserves_modify (P : World -> Prop) (f : World -> World) :
  (forall w, P w -> P (f w)) -> preserves P (modify f).
Proof. intros Hf w Hw. by apply Hf. Qed.

Lemma preserves_bind {A B} (P : World -> Prop) (m : M A) (k : A -> M B) :
  preserves P m -> (forall a, preserves P (k a)) -> preserves P (bind m k).
Proof.
  intros Hm Hk w Hw. rewrite exec_bind.
  specialize (Hm w Hw). unfold exec in Hm.
  destruct (m w) as [[a|e] w']; simpl in Hm; [by apply Hk|done].
Qed.

Lemma preserves_try_catch {A} (P : World -> Prop) (m : M A) (h : JsVal -> M A) :
  preserves P m -> (forall e, preserves P (h e)) -> preserves P (try_catch m h).
Proof.
  intros Hm Hh w Hw. unfold exec, try_catch.
  specialize (Hm w Hw). unfold exec in Hm.
  destruct (m w) as [[a|e] w']; simpl in Hm; [done|by apply Hh].
Qed.

Lemma preserves_for_each {A} (P : World -> Prop) (xs : list A) (f : A -> M unit) :
  (forall x, preserves P (f x)) -> preserves P (for_each xs f).
Proof.
  intros Hf. induction xs as [|x xs IH]; simpl.
  - apply preserves_ret.
  - apply preserves_bind; auto.
Qed.

Lemma preserves_for_each_indexed {A} (P : World -> Prop)
    (i : nat) (xs : list A) (f : nat -> A -> M unit) :
  (forall i x, preserves P (f i x)) -> preserves P (for_each_indexed i xs f).
Proof.
  intros Hf. revert i. induction xs as [|x xs IH]; intros i; simpl.
  - apply preserves_ret.
  - apply preserves_bind; auto.
Qed.

(** A task keeps what its body keeps, if recording an exception keeps it. *)
Lemma preserves_task (P : World -> Prop) (m : M unit) (w : World) :
  preserves P m ->
  (forall w e, P w -> P (set_uncaught (fun es => es ++ [e]) w)) ->
  P w -> P (task m w).
Proof.
  intros Hm Hu Hw. unfold task.
  specialize (Hm w Hw). unfold exec in Hm.
  destruct (m w) as [[[]|e] w']; simpl in Hm; [done|by apply Hu].
Qed.

(** The operations, unfolded down to [gets], [modify] and [defined]. *)
Ltac unfold_operations :=
  unfold on_open_timeout, on_submit_timeout, ping, isReady, on_socket_open,
    on_socket_error, openConnection, subscribe, unsubscribe, unsubscribeAll,
    isSynced, submitAtom, getAtomById, close, _onClosed, close_subject,
    _onAtomSubmissionStateUpdate, _onAtomReceivedNotification, check_hid,
    on_settled, take_pending, set_ready, getSubscriberId,
    socket_call, socket_close, the_socket, emit,
    resolve, reject, settle, notify_all, settle_one, Promise_all, new_promise,
    setTimeout, setInterval, set_timer, clearTimeout, clearInterval, clear_timer,
    subscribe_observer, unsubscribe_subject, complete, error, next, new_subject,
    notify, write_subject, read_subject.

(** Breaks a computation into its primitive steps. *)
Ltac preserve_step :=
  first
    [ apply preserves_ret
    | apply preserves_throw
    | apply preserves_gets
    | apply preserves_lift_completion
    | apply preserves_defined
    | apply preserves_bind; [|intros ?]
    | apply preserves_try_catch; [|intros ?]
    | apply preserves_for_each; intros ?
    | apply preserves_for_each_indexed; intros ? ?
    | match goal with
      | |- preserves _ (if ?b then _ else _) => destruct b
      | |- preserves _ (match ?x with _ => _ end) => destruct x
      end
    | progress unfold_operations ].

Ltac preserve := repeat preserve_step.

(** For a property that a [modify] keeps by computation. *)
Ltac preserve_modify :=
  apply preserves_modify;
  let w := fresh "w" in
  let Hw := fresh "Hw" in
  intros w Hw; simpl; try exact Hw.

Ltac preserve_all := preserve; try preserve_modify.






Lemma error_spec (l : nat) (err : JsVal) (w : World) (s : Subject) :
  subjects w !! l = Some s ->
  closed s = false ->
  error l err w =
    (Normal tt,
     set_trace (fun t => t ++ deliveries (observers s) (Error err))
       (set_subjects (fun hp => <[l := failed_subject s err]> hp) w)).
Proof.
  intros Hl Hc. unfold error, read_subject, bind, gets, defined.
  rewrite Hl. simpl. rewrite Hc. reflexivity.
Qed.

(** C10: a state update whose value is none of SUBMITTING, SUBMITTED, STORED,
    COLLISION, ILLEGAL_STATE, UNSUITABLE_PEER and VALIDATION_ERROR changes
    nothing at all: the handler returns and the world is the one before, so
    the stream of the submission is handed nothing and is neither completed
    nor failed. *)
Theorem unknown_state_is_ignored
    (notification : AtomSubmissionStateUpdateNotification) (w : World) :
  ~ In (value notification) known_states ->
  _onAtomSubmissionStateUpdate notification w = (Normal tt, w).
Proof.
  intros Hn. unfold _onAtomSubmissionStateUpdate, bind, gets.
  repeat match goal with
  | |- context [String.eqb (value notification) ?c] =>
      destruct (String.eqb_spec (value notification) c) as [E|_];
      [exfalso; apply Hn; rewrite E; vm_compute; tauto|]
  end.
  reflexivity.
Qed.


Lemma next_silent l v w :
  silent l w ->
  trace (exec (next l v) w) = trace w /\ silent l (exec (next l v) w).
Proof.
  intros (s & Hl & Hs & Ho).
  assert (Hlt : l < length (subjects w)) by (eapply lookup_lt_Some; eauto).
  unfold silent, exec, next, read_subject, bind, gets, defined, write_subject, modify, ret.
  rewrite Hl. simpl.
  destruct (_value s) as [v0|] eqn:Ev; simpl.
  - rewrite list_lookup_insert_eq by done. simpl.
    destruct (closed s); simpl; [|rewrite Hs; simpl];
      (split; [done|]); rewrite list_lookup_insert_eq by done; eauto.
  - rewrite Hl. simpl.
    destruct (closed s); simpl; [|rewrite Hs; simpl]; (split; [done|]); exists s; eauto.
Qed.

Lemma complete_silent l w :
  silent l w ->
  trace (exec (complete l) w) = trace w /\ silent l (exec (complete l) w).
Proof.
  intros (s & Hl & Hs & Ho).
  assert (Hlt : l < length (subjects w)) by (eapply lookup_lt_Some; eauto).
  unfold silent, exec, complete, read_subject, bind, gets, defined, write_subject, notify, modify, ret.
  rewrite Hl. simpl.
  destruct (closed s); simpl.
  - split; [done|]. exists s; eauto.
  - rewrite Ho. simpl. rewrite app_nil_r. split; [done|].
    rewrite list_lookup_insert_eq by done. eauto.
Qed.

Lemma error_silent l err w :
  silent l w ->
  trace (exec (error l err) w) = trace w /\ silent l (exec (error l err) w).
Proof.
  intros (s & Hl & Hs & Ho).
  assert (Hlt : l < length (subjects w)) by (eapply lookup_lt_Some; eauto).
  unfold silent, exec, error, read_subject, bind, gets, defined, write_subject, notify, modify, ret.
  rewrite Hl. simpl.
  destruct (closed s); simpl.
  - split; [done|]. exists s; eauto.
  - rewrite Ho. simpl. rewrite app_nil_r. split; [done|].
    rewrite list_lookup_insert_eq by done. eauto.
Qed.

Lemma state_update_silent (n : AtomSubmissionStateUpdateNotification) l w :
  js_get (key_of (subscriberId n)) (_atomUpdateSubjects (conn w)) = Some l ->
  silent l w ->
  trace (exec (_onAtomSubmissionStateUpdate n) w) = trace w.
Proof.
  intros Hk Hs.
  unfold _onAtomSubmissionStateUpdate. rewrite exec_bind. unfold gets at 1.
  cbv zeta. rewrite Hk.
  repeat match goal with
  | |- context [if ?b then _ else _] => destruct b
  end; try reflexivity.
  - rewrite exec_bind. simpl. apply next_silent, Hs.
  - rewrite exec_bind. simpl. rewrite exec_bind.
    destruct (next l (SVState (value n)) w) as [[[]|e] w1] eqn:E.
    + pose proof (next_silent l (SVState (value n)) w Hs) as [Ht Hs1].
      unfold exec in Ht, Hs1. rewrite E in Ht, Hs1. simpl in Ht, Hs1.
      rewrite <- Ht. apply complete_silent, Hs1.
    + pose proof (next_silent l (SVState (value n)) w Hs) as [Ht _].
      unfold exec in Ht. rewrite E in Ht. exact Ht.
  - rewrite exec_bind. simpl. apply error_silent, Hs.
Qed.



(** ** Inbound atom notifications *)

Lemma fromJSON_atoms_spec (jsons : list JsVal) (das : list Atom) (w : World) :
  deserializes jsons das ->
  fromJSON_atoms jsons w = (Normal das, w).
Proof.
  induction 1 as [|j a jsons das [Hj _] _ IH]; [reflexivity|].
  simpl. unfold bind, lift_completion. rewrite Hj, IH. reflexivity.
Qed.

Lemma check_hids_spec (pre jsons : list JsVal) (das : list Atom) (w : World) :
  deserializes jsons das ->
  for_each_indexed (length pre) das (check_hid (pre ++ jsons)) w = (Normal tt, w).
Proof.
  intros Hd. revert pre.
  induction Hd as [|j a jsons das [_ Hc] _ IH]; intros pre; [reflexivity|].
  simpl. unfold bind at 1, check_hid at 1.
  rewrite list_lookup_middle by done. simpl.
  unfold hid_check_passes in Hc. unfold bind, lift_completion.
  destruct (js_field "hid" j) as [hid|e]; [|done].
  destruct (truthy hid).
  - destruct Hc as [b ->]; [done|]. simpl.
    specialize (IH (pre ++ [j])). rewrite length_app, <- app_assoc in IH. simpl in IH.
    rewrite Nat.add_1_r in IH. apply IH.
  - simpl.
    specialize (IH (pre ++ [j])). rewrite length_app, <- app_assoc in IH. simpl in IH.
    rewrite Nat.add_1_r in IH. apply IH.
Qed.

Lemma next_plain_live (l : nat) (v : StreamVal) (w : World) (s : Subject) :
  subjects w !! l = Some s ->
  closed s = false -> isStopped s = false -> _value s = None ->
  next l v w = (Normal tt, set_trace (fun t => t ++ deliveries (observers s) (Next v)) w).
Proof.
  intros Hl Hc Hs Hv.
  unfold next, read_subject, bind, gets, defined. rewrite Hl. simpl.
  rewrite Hv. simpl. rewrite Hl. simpl. rewrite Hc, Hs. reflexivity.
Qed.

Lemma next_behavior_live (l : nat) (v v0 : StreamVal) (w : World) (s : Subject) :
  subjects w !! l = Some s ->
  closed s = false -> isStopped s = false -> _value s = Some v0 ->
  next l v w =
    (Normal tt,
     set_trace (fun t => t ++ deliveries (observers s) (Next v))
       (set_subjects (fun hp => <[l := with_value s (Some v)]> hp) w)).
Proof.
  intros Hl Hc Hs Hv.
  assert (Hlt : l < length (subjects w)) by (eapply lookup_lt_Some; eauto).
  unfold next, read_subject, write_subject, bind, gets, modify, defined.
  rewrite Hl. simpl. rewrite Hv. simpl.
  rewrite list_lookup_insert_eq by done. simpl. rewrite Hc, Hs. reflexivity.
Qed.


Lemma observed_app (o : nat) (w : World) (ds : list (nat * Notif)) :
  observed o (set_trace (fun t => t ++ ds) w)
  = observed o w ++ map snd (filter (fun d => d.1 = o) ds).
Proof. unfold observed. simpl. by rewrite filter_app, map_app. Qed.

Lemma deliveries_notin (o : nat) (os : list nat) (n : Notif) :
  ~ In o os -> filter (fun d => d.1 = o) (deliveries os n) = [].
Proof.
  induction os as [|x os IH]; intros Hn; [reflexivity|].
  simpl. rewrite filter_cons. simpl.
  destruct (decide (x = o)) as [->|_]; [exfalso; apply Hn; by left|].
  apply IH. intros Hin. apply Hn. by right.
Qed.

Lemma deliveries_once (o : nat) (os : list nat) (n : Notif) :
  In o os -> List.NoDup os -> filter (fun d => d.1 = o) (deliveries os n) = [(o, n)].
Proof.
  induction os as [|x os IH]; intros Hin Hnd; [destruct Hin|].
  inversion Hnd as [|? ? Hx Hnd']; subst.
  simpl. rewrite filter_cons. simpl.
  destruct (decide (x = o)) as [->|Hne].
  - f_equal. by apply deliveries_notin.
  - destruct Hin as [->|Hin]; [done|]. by apply IH.
Qed.



(** ** Submission of an atom *)

Lemma js_get_set_eq {V} (k : string) (v : V) (o : JsObject V) :
  js_get k (js_set k v o) = Some v.
Proof.
  induction o as [|[k' v'] o IH]; simpl.
  - by rewrite String.eqb_refl.
  - destruct (String.eqb k k') eqn:E; simpl; rewrite ?String.eqb_refl, ?E; auto.
Qed.


Lemma js_get_delete_eq {V} (k : string) (o : JsObject V) :
  js_get k (js_delete k o) = None.
Proof.
  induction o as [|[k' v'] o IH]; simpl; [done|].
  destruct (String.eqb k k') eqn:E; simpl; rewrite ?E; auto.
Qed.

Lemma js_get_delete_ne {V} (k k' : string) (o : JsObject V) :
  k <> k' -> js_get k' (js_delete k o) = js_get k' o.
Proof.
  intros Hne. induction o as [|[k0 v0] o IH]; simpl; [done|].
  destruct (String.eqb_spec k k0) as [<-|Hk0]; simpl.
  - destruct (String.eqb_spec k' k); congruence.
  - destruct (String.eqb_spec k' k0); auto.
Qed.

Lemma submitAtom_spec (a : Atom) (w : World) (sock : Socket) :
  _socket (conn w) = Some sock ->
  submitAtom a w = (Normal (length (subjects w)), after_submitAtom a w).
Proof.
  intros Hs.
  unfold submitAtom, getSubscriberId, new_subject, setTimeout, set_timer,
    socket_call, the_socket, bind, gets, modify, ret, defined.
  simpl. rewrite Hs. reflexivity.
Qed.

(** Without a socket [submitAtom] throws, after it has registered the
    subject and armed the timer. *)
Lemma submitAtom_without_socket (a : Atom) (w : World) :
  _socket (conn w) = None ->
  fst (submitAtom a w) = Throw TypeError.
Proof.
  intros Hs.
  unfold submitAtom, getSubscriberId, new_subject, setTimeout, set_timer,
    socket_call, the_socket, bind, gets, modify, ret, defined.
  simpl. rewrite Hs. reflexivity.
Qed.

Lemma subscribe_observer_live (l : nat) (w : World) (s : Subject) :
  subjects w !! l = Some s ->
  closed s = false -> hasError s = false -> isStopped s = false ->
  subscribe_observer l w =
    (Normal (observerCount w),
     set_trace (fun t => t ++
         match _value s with
         | Some v => [(observerCount w, Next v)]
         | None => []
         end)
       (set_subjects (fun hp =>
          <[l := {| closed := closed s; isStopped := isStopped s;
                    hasError := hasError s; thrownError := thrownError s;
                    observers := observers s ++ [observerCount w];
                    _value := _value s |}]> hp)
         (set_observerCount S w))).
Proof.
  intros Hl Hc He Hs.
  unfold subscribe_observer, read_subject, write_subject, notify, bind, gets,
    modify, ret, defined.
  simpl. rewrite Hl. simpl. rewrite Hc, He, Hs. simpl.
  destruct (_value s); simpl; [reflexivity|].
  unfold set_trace. simpl. by rewrite app_nil_r.
Qed.

Lemma take_pending_spec (cid : nat) (k : Kont) (w : World) (pd : list (nat * Kont)) :
  pending w = pd ++ [(cid, k)] ->
  Forall (fun e => e.1 <> cid) pd ->
  take_pending cid w = (Normal (Some k), set_pending (fun _ => pd) w).
Proof.
  intros Hp Hf.
  assert (H1 : filter (fun e : nat * Kont => e.1 = cid) pd = []).
  { clear -Hf. induction Hf as [|x pd Hx _ IH]; [done|].
    rewrite filter_cons. destruct (decide (x.1 = cid)); [done|apply IH]. }
  assert (H2 : filter (fun e : nat * Kont => e.1 <> cid) pd = pd).
  { clear -Hf. induction Hf as [|x pd Hx _ IH]; [done|].
    rewrite filter_cons. destruct (decide (x.1 <> cid)); [by rewrite IH|done]. }
  unfold take_pending, bind, gets, modify, ret, set_pending. simpl. rewrite Hp.
  rewrite !filter_app, H1, H2. simpl. rewrite !filter_cons. simpl.
  destruct (decide (cid = cid)) as [_|]; [|done].
  destruct (decide (cid <> cid)) as [|_]; [done|].
  simpl. by rewrite app_nil_r.
Qed.

Lemma step_submitAtom (a : Atom) (w : World) (sock : Socket) :
  _socket (conn w) = Some sock ->
  step (CallSubmitAtom a) w = after_submitAtom a w.
Proof.
  intros Hs. unfold step, task, handle, bind.
  by rewrite (submitAtom_spec a w sock Hs).
Qed.

Lemma complete_spec (l : nat) (w : World) (s : Subject) :
  subjects w !! l = Some s ->
  closed s = false ->
  complete l w =
    (Normal tt,
     set_trace (fun t => t ++ deliveries (observers s) Complete)
       (set_subjects (fun hp => <[l := completed_subject s]> hp) w)).
Proof.
  intros Hl Hc. unfold complete, read_subject, bind, gets, defined.
  rewrite Hl. simpl. rewrite Hc. reflexivity.
Qed.

Lemma observed_fresh (o : nat) (w : World) :
  Forall (fun d => d.1 < o) (trace w) -> observed o w = [].
Proof.
  unfold observed. induction 1 as [|d t Hd _ IH]; [done|].
  rewrite filter_cons. destruct (decide (d.1 = o)); [lia|done].
Qed.

Lemma step_observe_live (l : nat) (w : World) (s : Subject) :
  subjects w !! l = Some s ->
  closed s = false -> hasError s = false -> isStopped s = false ->
  step (CallObserve l) w =
    set_trace (fun t => t ++
        match _value s with
        | Some v => [(observerCount w, Next v)]
        | None => []
        end)
      (set_subjects (fun hp =>
         <[l := {| closed := closed s; isStopped := isStopped s;
                   hasError := hasError s; thrownError := thrownError s;
                   observers := observers s ++ [observerCount w];
                   _value := _value s |}]> hp)
        (set_observerCount S w)).
Proof.
  intros Hl Hc He Hs. unfold step, task, handle, bind.
  by rewrite (subscribe_observer_live l w s).
Qed.

(** The node accepts the call of [submitAtom]: the timer is cleared and the
    stream is given SUBMITTED. *)
Lemma step_submit_accepted
    (cid timeout l : nat) (response : JsVal) (w : World)
    (pd : list (nat * Kont)) (s : Subject) (v0 : StreamVal) :
  pending w = pd ++ [(cid, KSubmit timeout l)] ->
  Forall (fun e => e.1 <> cid) pd ->
  subjects w !! l = Some s ->
  closed s = false -> isStopped s = false -> _value s = Some v0 ->
  step (RpcSettled cid (Normal response)) w =
    set_trace (fun t => t ++ deliveries (observers s) (Next (SVState "SUBMITTED")))
      (set_subjects (fun hp => <[l := with_value s (Some (SVState "SUBMITTED"))]> hp)
        (set_timers (fun ts => filter (fun t => Some (tid t) <> Some timeout) ts)
          (set_pending (fun _ => pd) w))).
Proof.
  intros Hp Hf Hl Hc Hs Hv. unfold step, task, handle.
  unfold bind at 1. rewrite (take_pending_spec cid _ w pd Hp Hf).
  unfold on_settled, try_catch, lift_completion.
  unfold bind at 1. unfold bind at 1, clearTimeout, clear_timer, modify at 1.
  rewrite (next_behavior_live l _ v0 _ s) by done. reflexivity.
Qed.

(** The node reports STORED on a live stream. *)
Lemma step_stored
    (id : N) (m : option string) (w : World) (sock : Socket)
    (l : nat) (s : Subject) (v0 : StreamVal) :
  _socket (conn w) = Some sock -> listening sock = true ->
  js_get (key_of id) (_atomUpdateSubjects (conn w)) = Some l ->
  subjects w !! l = Some s ->
  closed s = false -> isStopped s = false -> _value s = Some v0 ->
  step (AtomSubmissionStateOnNext (state_notification id "STORED" m)) w =
    set_trace (fun t => t ++ deliveries (observers s) (Next (SVState "STORED"))
                          ++ deliveries (observers s) Complete)
      (set_subjects (fun hp =>
         <[l := completed_subject (with_value s (Some (SVState "STORED")))]> hp) w).
Proof.
  intros Hsock Hlisten Hk Hl Hc Hs Hv.
  assert (Hlt : l < length (subjects w)) by (eapply lookup_lt_Some; eauto).
  unfold step, task, handle. unfold bind at 1, gets at 1. rewrite Hsock, Hlisten.
  unfold _onAtomSubmissionStateUpdate. unfold bind at 1, gets at 1.
  cbv zeta. simpl. rewrite Hk. unfold bind at 1. simpl.
  unfold bind at 1. rewrite (next_behavior_live l _ v0 _ s) by done.
  rewrite (complete_spec l _ (with_value s (Some (SVState "STORED")))).
  - unfold set_trace, set_subjects. simpl.
    rewrite list_insert_insert_eq, <- app_assoc. reflexivity.
  - simpl. by rewrite list_lookup_insert_eq.
  - done.
Qed.

(** C1, as the code has it: an atom is submitted on a listening connection,
    the caller subscribes to the stream that [submitAtom] returns, the node
    accepts the call and then reports STORED.  The subscriber is handed
    CREATED, the value the stream starts with, then SUBMITTED, then STORED,
    then the completion, and nothing else; the stream ends stopped, without
    an error and without observers, and no later state update for the
    submission reaches the subscriber. *)
Theorem stream_of_a_stored_atom
    (a : Atom) (w : World) (sock : Socket) (response : JsVal) (m : option string) :
  _socket (conn w) = Some sock ->
  listening sock = true ->
  Forall (fun e => e.1 < length (outbox w)) (pending w) ->
  Forall (fun d => d.1 < observerCount w) (trace w) ->
  let atomStateSubject := length (subjects w) in
  let subscriber := observerCount w in
  let id := (lastSubscriberId (conn w) + 1)%N in
  let w' :=
    foldl (fun w ev => step ev w) w
      [CallSubmitAtom a;
       CallObserve atomStateSubject;
       RpcSettled (length (outbox w)) (Normal response);
       AtomSubmissionStateOnNext (state_notification id "STORED" m)] in
  observed subscriber w' =
    [Next (SVState "CREATED"); Next (SVState "SUBMITTED");
     Next (SVState "STORED"); Complete]
  /\ (exists s, subjects w' !! atomStateSubject = Some s
       /\ isStopped s = true /\ hasError s = false /\ observers s = [])
  /\ (forall later : AtomSubmissionStateUpdateNotification,
       subscriberId later = id ->
       observed subscriber (step (AtomSubmissionStateOnNext later) w')
       = observed subscriber w').
Proof.
  intros Hsock Hlisten Hpending Htrace l o id w'.
  subst w'. simpl.
  rewrite (step_submitAtom a w sock Hsock).
  rewrite (step_observe_live l (after_submitAtom a w) created_subject);
    [|by apply list_lookup_middle|done..].
  simpl (_value created_subject). simpl (observers created_subject ++ _).
  match goal with |- context [step (RpcSettled _ _) ?x] => set (w2 := x) end.
  pose (s2 := {| closed := false; isStopped := false; hasError := false;
                 thrownError := JNull; observers := [o];
                 _value := Some (SVState "CREATED") |}).
  assert (Hl2 : subjects w2 !! l = Some s2).
  { subst w2. simpl. rewrite list_lookup_insert_eq; [done|].
    rewrite length_app. simpl. lia. }
  rewrite (step_submit_accepted (length (outbox w)) (timerCount w) l response w2
             (pending w) s2 (SVState "CREATED")); [|done| |done..].
  2:{ eapply Forall_impl; [exact Hpending|]. simpl. intros; lia. }
  match goal with |- context [step (AtomSubmissionStateOnNext _) ?x] => set (w3 := x) end.
  assert (Hl3 : subjects w3 !! l = Some (with_value s2 (Some (SVState "SUBMITTED")))).
  { subst w3. simpl. rewrite list_lookup_insert_eq; [done|].
    rewrite length_insert, length_app. simpl. lia. }
  rewrite (step_stored id m w3 sock l (with_value s2 (Some (SVState "SUBMITTED")))
             (SVState "SUBMITTED"));
    [|exact Hsock|exact Hlisten|by apply js_get_set_eq|exact Hl3|done..].
  match goal with |- context [observed o ?x = [_; _; _; _]] => set (w4 := x) end.
  assert (Hobs : observed o w4 =
            [Next (SVState "CREATED"); Next (SVState "SUBMITTED");
             Next (SVState "STORED"); Complete]).
  { pose proof (observed_fresh o w Htrace) as Hfresh. unfold observed in Hfresh.
    subst w4 w3 w2. unfold observed. simpl.
    rewrite !filter_app, !map_app, Hfresh, !filter_cons. simpl. subst o.
    destruct (decide (observerCount w = observerCount w)); [|done]. reflexivity. }
  assert (Hl4 : subjects w4 !! l
            = Some (completed_subject (with_value (with_value s2 (Some (SVState "SUBMITTED")))
                                                   (Some (SVState "STORED"))))).
  { subst w4. simpl. rewrite list_lookup_insert_eq; [done|].
    eapply lookup_lt_Some, Hl3. }
  split; [exact Hobs|]. split.
  - eexists. split; [exact Hl4|]. done.
  - intros later Hid.
    unfold observed. f_equal. f_equal.
    unfold step, task, handle. unfold bind at 1, gets at 1.
    replace (_socket (conn w4)) with (Some sock) by (by rewrite <- Hsock).
    rewrite Hlisten.
    pose proof (state_update_silent later l w4) as Hsil.
    unfold exec in Hsil.
    destruct (_onAtomSubmissionStateUpdate later w4) as [[[]|e] w5]; simpl in *;
      apply Hsil.
    all: try (rewrite Hid; subst w4 w3 w2; simpl; apply js_get_set_eq).
    all: eexists; split; [exact Hl4|]; done.
Qed.

(** ** Timers *)

Lemma next_timer_In (ts : list Timer) (tm : Timer) :
  next_timer ts = Some tm -> In tm ts.
Proof.
  revert tm. induction ts as [|t ts IH]; intros tm; simpl; [done|].
  destruct (next_timer ts) as [t'|].
  - intros [= <-]. destruct (due t' <? due t)%N; [right; by apply IH|by left].
  - intros [= <-]. by left.
Qed.

Lemma next_timer_least (ts : list Timer) (tm : Timer) :
  next_timer ts = Some tm -> forall t, In t ts -> (due tm <= due t)%N.
Proof.
  revert tm. induction ts as [|t0 ts IH]; intros tm; simpl; [done|].
  destruct (next_timer ts) as [t'|] eqn:E.
  - intros [= <-] t [<-|Hin].
    + destruct (N.ltb_spec (due t') (due t0)); lia.
    + specialize (IH t' eq_refl t Hin).
      destruct (N.ltb_spec (due t') (due t0)); lia.
  - intros [= <-] t [<-|Hin]; [lia|].
    destruct ts; [destruct Hin|]. simpl in E. destruct (next_timer ts); done.
Qed.

Lemma next_timer_some (ts : list Timer) (t : Timer) :
  In t ts -> exists tm, next_timer ts = Some tm.
Proof.
  destruct ts as [|t0 ts]; [done|]. intros _. simpl.
  destruct (next_timer ts); eauto.
Qed.

Lemma run_callback_timers (a : TimerAction) (ts : list Timer) :
  preserves (fun w => timers w = ts) (run_callback a).
Proof.
  destruct a; simpl; unfold_operations; preserve_all.
Qed.

Lemma timers_fire (tm : Timer) (w : World) :
  timers (task (fire tm) w) = timers_after tm (timers w).
Proof.
  apply (preserves_task (fun w' => timers w' = _) (run_callback (callback tm))
           (set_timers (timers_after tm) (set_now (N.max (due tm)) w))).
  - apply run_callback_timers.
  - done.
  - reflexivity.
Qed.

Lemma firings_of_reschedule (t p : N) (id : nat) (x : Timer) :
  (0 < p)%N -> period x <> Some 0%N ->
  firings_of t (reschedule id p x) <= firings_of t x.
Proof.
  intros Hp Hx. unfold reschedule.
  destruct (decide (tid x = id)); [|done].
  unfold firings_of. simpl.
  destruct (N.leb_spec (due x + p) t) as [H1|H1];
    destruct (N.leb_spec (due x) t) as [H2|H2]; try lia.
  destruct (period x) as [q|]; [|done].
  assert (Hdiv : ((t - (due x + p)) / q <= (t - due x) / q)%N).
  { apply N.Div0.div_le_mono. lia. }
  revert Hdiv. generalize ((t - (due x + p)) / q)%N ((t - due x) / q)%N.
  intros u v Hdiv. lia.
Qed.

Lemma firings_of_reschedule_self (t p : N) (x : Timer) :
  (0 < p)%N -> period x = Some p -> (due x <= t)%N ->
  S (firings_of t (reschedule (tid x) p x)) <= firings_of t x.
Proof.
  intros Hp Hx Hd. unfold reschedule.
  destruct (decide (tid x = tid x)); [|done].
  unfold firings_of. simpl. rewrite Hx.
  destruct (N.leb_spec (due x) t) as [_|]; [|lia].
  destruct (N.leb_spec (due x + p) t) as [H1|H1]; simpl; [|apply le_n_S, Nat.le_0_l].
  replace (t - due x)%N with ((t - (due x + p)) + 1 * p)%N by lia.
  rewrite N.div_add by lia.
  generalize ((t - (due x + p)) / p)%N. intros u. lia.
Qed.

Lemma firings_reschedule (t p : N) (id : nat) (ts : list Timer) :
  (0 < p)%N -> Forall (fun x => period x <> Some 0%N) ts ->
  firings t (map (reschedule id p) ts) <= firings t ts.
Proof.
  intros Hp. unfold firings. induction 1 as [|x ts Hx _ IH]; simpl; [done|].
  pose proof (firings_of_reschedule t p id x Hp Hx). lia.
Qed.

Lemma firings_filter (t : N) (P : Timer -> Prop) `{forall x, Decision (P x)}
    (ts : list Timer) :
  firings t (filter P ts) <= firings t ts.
Proof.
  unfold firings. induction ts as [|x ts IH]; [done|].
  rewrite filter_cons. destruct (decide (P x)); simpl; lia.
Qed.

(** Firing a timer that is due uses up one of the firings that are left. *)
Lemma firings_fire (t : N) (tm : Timer) (w : World) :
  In tm (timers w) -> (due tm <= t)%N ->
  Forall (fun x => period x <> Some 0%N) (timers w) ->
  S (firings t (timers (task (fire tm) w))) <= firings t (timers w).
Proof.
  intros Hin Hd Hp. rewrite timers_fire. unfold timers_after.
  assert (Hpm : period tm <> Some 0%N).
  { rewrite Forall_forall in Hp. apply Hp. by apply list_elem_of_In. }
  destruct (period tm) as [p|] eqn:Ep.
  - assert (0 < p)%N by (destruct p; [done|lia]).
    clear Hpm. induction Hp as [|x ts Hx Hts IH]; [destruct Hin|].
    unfold firings in *. simpl.
    destruct Hin as [->|Hin].
    + pose proof (firings_of_reschedule_self t p tm ltac:(done) Ep Hd).
      pose proof (firings_reschedule t p (tid tm) ts ltac:(done) Hts).
      unfold firings in *. lia.
    + specialize (IH Hin).
      pose proof (firings_of_reschedule t p (tid tm) x ltac:(done) Hx). lia.
  - clear Hp Hpm. induction (timers w) as [|x ts IH]; [destruct Hin|].
    rewrite filter_cons. unfold firings in *.
    destruct Hin as [->|Hin].
    + destruct (decide (tid tm <> tid tm)); [done|].
      pose proof (firings_filter t (fun x => tid x <> tid tm) ts).
      unfold firings in *. simpl. unfold firings_of at 2. rewrite Ep.
      destruct (N.leb_spec (due tm) t); lia.
    + specialize (IH Hin). destruct (decide (tid x <> tid tm)); simpl; lia.
Qed.

(** *** What a timer leaves alone *)

Lemma watched_frame (l o : nat) (s : Subject) (seen : list Notif) (g : list Timer)
    (w w' : World) :
  watched l o s seen g w ->
  subjects w' = subjects w -> trace w' = trace w -> timers w' = timers w ->
  (exists sock, _socket (conn w') = Some sock) ->
  watched l o s seen g w'.
Proof.
  intros [H1 H2 H3 H4 H5] Es Et Eti Hsock.
  constructor; unfold observed in *; rewrite ?Es, ?Et, ?Eti; auto.
Qed.

Lemma error_watched (l o : nat) (s : Subject) (seen : list Notif) (g : list Timer)
    (l' : nat) (err : JsVal) :
  l' <> l -> preserves (watched l o s seen g) (error l' err).
Proof.
  intros Hne w Hw. unfold exec, error, read_subject, bind, gets, defined.
  destruct (subjects w !! l') as [s'|] eqn:El'; simpl; [|done].
  destruct (closed s'); simpl; [done|].
  destruct Hw as [H1 H2 H3 H4 H5].
  constructor; simpl; auto.
  - by rewrite list_lookup_insert_ne.
  - unfold observed in *. simpl. rewrite filter_app, map_app, H2.
    rewrite deliveries_notin by (by eapply H3). simpl. by rewrite app_nil_r.
  - intros l'' s'' Hne' Hl''.
    destruct (decide (l' = l'')) as [<-|Hd].
    + rewrite list_lookup_insert_eq in Hl'' by (eapply lookup_lt_Some; eauto).
      injection Hl'' as <-. simpl. tauto.
    + rewrite list_lookup_insert_ne in Hl'' by done. by eapply H3.
Qed.

Lemma same_streams_refl (w : World) : same_streams w w.
Proof. by repeat split. Qed.

Ltac same_streams_modify :=
  apply preserves_modify;
  let w := fresh "w" in
  let Hw := fresh "Hw" in
  intros w [? [? [? Hw]]]; repeat split; simpl; try done;
  try (intros; by eexists).

(** Settling a promise, calling the node, closing the socket and emitting
    an event leave subjects, trace and timers alone. *)
Lemma settle_same_streams (w0 : World) (p : nat) (r : Settled) :
  preserves (same_streams w0) (settle p r).
Proof. unfold_operations. preserve; same_streams_modify. Qed.

Lemma socket_close_same_streams (w0 : World) :
  preserves (same_streams w0) socket_close.
Proof. unfold_operations. preserve; same_streams_modify. Qed.

Lemma socket_call_same_streams (w0 : World) (method : string) (params : JsVal) (k : Kont) :
  preserves (same_streams w0) (socket_call method params k).
Proof. unfold_operations. preserve; same_streams_modify. Qed.

Lemma emit_same_streams (w0 : World) (event : string) :
  preserves (same_streams w0) (emit event).
Proof. unfold_operations. preserve; same_streams_modify. Qed.

Lemma watched_same_streams {A} (l o : nat) (s : Subject) (seen : list Notif)
    (g : list Timer) (m : M A) :
  (forall w0, preserves (same_streams w0) m) ->
  preserves (watched l o s seen g) m.
Proof.
  intros Hm w Hw. destruct (Hm w w (same_streams_refl w)) as (Es & Et & Eti & Hs).
  eapply watched_frame; eauto.
  destruct (watched_socket _ _ _ _ _ _ Hw) as [sock Hsock].
  destruct Hs as [sock' ->]; [by rewrite Hsock|]. eauto.
Qed.

Lemma socket_close_watched (l o : nat) (s : Subject) (seen : list Notif) (g : list Timer) :
  preserves (watched l o s seen g) socket_close.
Proof. apply watched_same_streams, socket_close_same_streams. Qed.

(** A timer callback that is not the timeout of subject [l] leaves the
    stream of [l] as it is. *)
Lemma run_callback_watched (l o : nat) (s : Subject) (seen : list Notif)
    (g : list Timer) (a : TimerAction) :
  a <> SubmitTimeout l ->
  preserves (watched l o s seen g) (run_callback a).
Proof.
  intros Ha. destruct a as [p|l'|]; simpl.
  - apply watched_same_streams. intros w0.
    unfold on_open_timeout. preserve; same_streams_modify.
  - unfold on_submit_timeout. apply preserves_bind.
    + apply watched_same_streams, socket_close_same_streams.
    + intros _. apply error_watched. congruence.
  - apply watched_same_streams. intros w0.
    unfold ping. preserve; same_streams_modify.
Qed.

(** *** Firing one timer *)

Lemma tid_inj (ts : list Timer) (x y : Timer) :
  List.NoDup (map tid ts) -> In x ts -> In y ts -> tid x = tid y -> x = y.
Proof.
  induction ts as [|t ts IH]; simpl; [done|].
  intros Hnd Hx Hy E. inversion Hnd as [|? ? Hnot Hnd']; subst.
  destruct Hx as [->|Hx], Hy as [->|Hy]; auto.
  - exfalso. apply Hnot. rewrite E. by apply in_map.
  - exfalso. apply Hnot. rewrite <- E. by apply in_map.
Qed.

Lemma filter_idle {A} (P Q : A -> Prop) `{forall x, Decision (P x)}
    `{forall x, Decision (Q x)} (xs : list A) :
  (forall x, In x xs -> P x -> Q x) ->
  filter P (filter Q xs) = filter P xs.
Proof.
  induction xs as [|x xs IH]; intros Hx; [done|].
  rewrite !filter_cons.
  destruct (decide (Q x)) as [HQ|HQ].
  - rewrite filter_cons. rewrite IH; [done|]. intros; apply Hx; auto. by right.
  - destruct (decide (P x)) as [HP|HP].
    + exfalso. apply HQ, Hx; auto. by left.
    + apply IH. intros; apply Hx; auto. by right.
Qed.

Lemma filter_swap {A} (P Q : A -> Prop) `{forall x, Decision (P x)}
    `{forall x, Decision (Q x)} (xs : list A) :
  filter P (filter Q xs) = filter Q (filter P xs).
Proof.
  induction xs as [|x xs IH]; [done|].
  rewrite !filter_cons.
  destruct (decide (Q x)), (decide (P x)); rewrite ?filter_cons;
    repeat (destruct (decide _); try done); by rewrite IH.
Qed.

Lemma reschedule_callback (id : nat) (p : N) (x : Timer) :
  callback (reschedule id p x) = callback x.
Proof. unfold reschedule. by destruct (decide (tid x = id)). Qed.

Lemma reschedule_tid (id : nat) (p : N) (x : Timer) :
  tid (reschedule id p x) = tid x.
Proof. unfold reschedule. by destruct (decide (tid x = id)). Qed.

Lemma reschedule_period (id : nat) (p : N) (x : Timer) :
  period (reschedule id p x) = period x.
Proof. unfold reschedule. by destruct (decide (tid x = id)). Qed.

Lemma timers_after_distinct (tm : Timer) (ts : list Timer) :
  List.NoDup (map tid ts) -> List.NoDup (map tid (timers_after tm ts)).
Proof.
  unfold timers_after. destruct (period tm) as [p|].
  - rewrite map_map. intros Hnd.
    erewrite map_ext; [exact Hnd|]. intros x. apply reschedule_tid.
  - induction ts as [|x ts IH]; [done|]. simpl. intros Hnd.
    inversion Hnd as [|? ? Hnot Hnd']; subst.
    rewrite filter_cons. destruct (decide (tid x <> tid tm)); [|by apply IH].
    simpl. constructor; [|by apply IH].
    intros Hin. apply Hnot. apply in_map_iff in Hin as (y & Ey & Hy).
    apply in_map_iff. exists y. split; [done|].
    apply list_elem_of_In, list_elem_of_filter in Hy as [_ Hy].
    by apply list_elem_of_In.
Qed.

Lemma timers_after_periods (tm : Timer) (ts : list Timer) :
  Forall (fun x => period x <> Some 0%N) ts ->
  Forall (fun x => period x <> Some 0%N) (timers_after tm ts).
Proof.
  unfold timers_after. destruct (period tm) as [p|]; intros Hp.
  - apply Forall_map. eapply Forall_impl; [exact Hp|].
    intros x Hx. simpl. by rewrite reschedule_period.
  - induction Hp as [|x ts Hx _ IH]; [done|].
    rewrite filter_cons. destruct (decide (tid x <> tid tm)); auto.
Qed.

Lemma timers_after_other_guards (l : nat) (tm : Timer) (ts : list Timer) :
  In tm ts -> List.NoDup (map tid ts) -> callback tm <> SubmitTimeout l ->
  filter (fun x => callback x = SubmitTimeout l) (timers_after tm ts)
  = filter (fun x => callback x = SubmitTimeout l) ts.
Proof.
  intros Hin Hnd Hcb.
  assert (Hother : forall x, In x ts -> callback x = SubmitTimeout l -> tid x <> tid tm).
  { intros x Hx Ex E. apply Hcb. by rewrite <- (tid_inj ts x tm Hnd Hx Hin E). }
  unfold timers_after. destruct (period tm) as [p|].
  - clear Hin Hnd. induction ts as [|x ts IH]; [done|].
    simpl. rewrite !filter_cons, reschedule_callback.
    destruct (decide (callback x = SubmitTimeout l)) as [Ex|Ex].
    + rewrite IH by (intros; apply Hother; auto; by right). f_equal.
      unfold reschedule. destruct (decide (tid x = tid tm)) as [E|]; [|done].
      exfalso. by apply (Hother x (or_introl eq_refl) Ex).
    + apply IH. intros; apply Hother; auto. by right.
  - by apply filter_idle.
Qed.

Lemma fire_other_watched (l o : nat) (s : Subject) (seen : list Notif)
    (g : list Timer) (tm : Timer) (w : World) :
  watched l o s seen g w ->
  In tm (timers w) -> List.NoDup (map tid (timers w)) ->
  callback tm <> SubmitTimeout l ->
  watched l o s seen g (task (fire tm) w).
Proof.
  intros Hw Hin Hnd Hcb.
  apply (preserves_task _ (run_callback (callback tm))
           (set_timers (timers_after tm) (set_now (N.max (due tm)) w))).
  - by apply run_callback_watched.
  - intros w' e Hw'. eapply watched_frame; eauto. apply Hw'.
  - destruct Hw as [H1 H2 H3 H4 H5]. constructor; auto.
    simpl. by rewrite timers_after_other_guards.
Qed.

Lemma close_count_same_socket (c : nat) (w w' : World) :
  close_count c w -> _socket (conn w') = _socket (conn w) -> close_count c w'.
Proof. intros (sock & Hs & Hc) E. exists sock. by rewrite E. Qed.

Lemma socket_close_counts (c : nat) (w : World) :
  close_count c w -> close_count (S c) (exec socket_close w).
Proof.
  intros (sock & Hs & Hc).
  unfold exec, socket_close, the_socket, bind, gets, defined, modify.
  rewrite Hs. simpl. eexists. split; [reflexivity|]. simpl. lia.
Qed.

Lemma close_count_le (c c' : nat) (w : World) :
  c' <= c -> close_count c w -> close_count c' w.
Proof. intros Hle (sock & Hs & Hc). exists sock. split; [done|lia]. Qed.

Lemma error_same_socket (l : nat) (err : JsVal) (c : Conn) :
  preserves (fun w => conn w = c) (error l err).
Proof. unfold error. preserve_all. Qed.

Lemma run_callback_close_count (c : nat) (a : TimerAction) :
  preserves (close_count c) (run_callback a).
Proof.
  assert (Hclose : preserves (close_count c) socket_close).
  { intros w Hw. eapply close_count_le; [|by apply socket_close_counts]. lia. }
  assert (Hkeep : forall A (m : M A),
            (forall c0, preserves (fun w => conn w = c0) m) -> preserves (close_count c) m).
  { intros A m Hm w Hw. eapply close_count_same_socket; [exact Hw|].
    by rewrite (Hm (conn w) w eq_refl). }
  destruct a as [p|l|]; simpl.
  - unfold on_open_timeout. apply preserves_bind; [apply Hkeep; intros; unfold the_socket; preserve|].
    intros sock. destruct (negb (ready sock)); [|apply preserves_ret].
    apply preserves_bind; [exact Hclose|intros _].
    apply Hkeep. intros c0. preserve_all.
  - unfold on_submit_timeout. apply preserves_bind; [exact Hclose|intros _].
    apply Hkeep. intros c0. apply error_same_socket.
  - apply Hkeep. intros c0. unfold ping. preserve_all.
Qed.

Lemma fire_close_count (c : nat) (tm : Timer) (w : World) :
  close_count c w -> close_count c (task (fire tm) w).
Proof.
  intros Hw.
  apply (preserves_task _ (run_callback (callback tm))
           (set_timers (timers_after tm) (set_now (N.max (due tm)) w))).
  - apply run_callback_close_count.
  - intros w' e Hw'. by eapply close_count_same_socket.
  - by eapply close_count_same_socket.
Qed.

(** The timeout of [submitAtom] fires on a stream that nothing has touched:
    the socket is closed and the observer is handed the failure. *)
Lemma fire_guard (l o c : nat) (s : Subject) (seen : list Notif)
    (tm : Timer) (w : World) :
  watched l o s seen [tm] w -> close_count c w ->
  period tm = None -> closed s = false ->
  In o (observers s) -> List.NoDup (observers s) ->
  watched l o (failed_subject s socket_timeout) (seen ++ [Error socket_timeout]) []
    (task (fire tm) w)
  /\ close_count (S c) (task (fire tm) w).
Proof.
  intros Hw Hc Hp Hcl Ho Hnd.
  assert (Hcb : callback tm = SubmitTimeout l /\ In tm (timers w)).
  { pose proof (watched_guards _ _ _ _ _ _ Hw) as Hg.
    assert (Hin : tm ∈ filter (fun x => callback x = SubmitTimeout l) (timers w))
      by (rewrite Hg; by left).
    apply list_elem_of_filter in Hin as [? ?]. split; [done|by apply list_elem_of_In]. }
  destruct Hcb as [Hcb Hin].
  set (w1 := set_timers (timers_after tm) (set_now (N.max (due tm)) w)).
  assert (Hw1 : watched l o s seen [] w1).
  { destruct Hw as [H1 H2 H3 H4 H5]. constructor; auto. simpl.
    unfold timers_after. rewrite Hp, filter_swap, H4.
    rewrite filter_cons. destruct (decide (tid tm <> tid tm)); done. }
  assert (Hc1 : close_count c w1) by (by eapply close_count_same_socket).
  unfold task. change (fire tm w) with (run_callback (callback tm) w1).
  rewrite Hcb. simpl. unfold on_submit_timeout, bind.
  pose proof (socket_close_watched l o s seen [] w1 Hw1) as Hw2.
  pose proof (socket_close_counts c w1 Hc1) as Hc2.
  unfold exec in Hw2, Hc2.
  destruct (socket_close w1) as [[[]|e] w2] eqn:E2; simpl in Hw2, Hc2.
  2:{ exfalso. destruct Hc1 as (sock & Hs & _).
      unfold socket_close, the_socket, bind, gets, defined, modify in E2.
      rewrite Hs in E2. simpl in E2. congruence. }
  rewrite (error_spec l _ w2 s (watched_subject _ _ _ _ _ _ Hw2) Hcl).
  destruct Hw2 as [H1 H2 H3 H4 H5]. split.
  - constructor; simpl; auto.
    + rewrite list_lookup_insert_eq; [done|]. by eapply lookup_lt_Some.
    + unfold observed in *. simpl.
      by rewrite filter_app, map_app, H2, (deliveries_once o (observers s)).
    + intros l' s' Hne Hl'. rewrite list_lookup_insert_ne in Hl' by done.
      by eapply H3.
  - by eapply close_count_same_socket.
Qed.

(** *** Letting the clock run *)

Lemma run_timers_settled (l o c : nat) (s : Subject) (seen : list Notif) (t : N)
    (fuel : nat) (w : World) :
  watched l o s seen [] w -> close_count c w -> List.NoDup (map tid (timers w)) ->
  watched l o s seen [] (run_timers fuel t w)
  /\ close_count c (run_timers fuel t w).
Proof.
  revert w. induction fuel as [|fuel IH]; intros w Hw Hc Hnd; simpl; [done|].
  destruct (next_timer (timers w)) as [tm|] eqn:En; [|done].
  destruct (due tm <=? t)%N; [|done].
  assert (Hin : In tm (timers w)) by (by apply next_timer_In).
  apply IH.
  - apply fire_other_watched; auto.
    intros Hcb.
    assert (Hg : tm ∈ filter (fun x => callback x = SubmitTimeout l) (timers w)).
    { apply list_elem_of_filter. split; [done|by apply list_elem_of_In]. }
    rewrite (watched_guards _ _ _ _ _ _ Hw) in Hg. by apply elem_of_nil in Hg.
  - by apply fire_close_count.
  - rewrite timers_fire. by apply timers_after_distinct.
Qed.

Lemma firings_guard (t : N) (tm : Timer) (ts : list Timer) :
  In tm ts -> (due tm <= t)%N -> 0 < firings t ts.
Proof.
  intros Hin Hd. unfold firings.
  induction ts as [|x ts IH]; [destruct Hin|]. simpl.
  destruct Hin as [->|Hin]; [|specialize (IH Hin); lia].
  unfold firings_of at 1. destruct (N.leb_spec (due tm) t); [|lia].
  destruct (period tm); simpl; apply Nat.lt_0_succ.
Qed.

(** While the timeout of [l] is armed and due by [t], running the timers
    up to [t] with enough fuel fires it. *)
Lemma run_timers_fires_guard (l o c : nat) (s : Subject) (seen : list Notif)
    (tm0 : Timer) (t : N) (fuel : nat) (w : World) :
  firings t (timers w) <= fuel ->
  watched l o s seen [tm0] w -> close_count c w ->
  List.NoDup (map tid (timers w)) ->
  Forall (fun x => period x <> Some 0%N) (timers w) ->
  (due tm0 <= t)%N -> period tm0 = None ->
  closed s = false -> In o (observers s) -> List.NoDup (observers s) ->
  watched l o (failed_subject s socket_timeout) (seen ++ [Error socket_timeout]) []
    (run_timers fuel t w)
  /\ close_count (S c) (run_timers fuel t w).
Proof.
  intros Hfuel Hw Hc Hnd Hper Hdue Hp0 Hcl Ho Hndo.
  revert w Hfuel Hw Hc Hnd Hper.
  induction fuel as [|fuel IH]; intros w Hfuel Hw Hc Hnd Hper.
  - exfalso.
    assert (Hin : tm0 ∈ filter (fun x => callback x = SubmitTimeout l) (timers w)).
    { rewrite (watched_guards _ _ _ _ _ _ Hw). by left. }
    apply list_elem_of_filter in Hin as [_ Hin]. apply list_elem_of_In in Hin.
    pose proof (firings_guard t tm0 (timers w) Hin Hdue). lia.
  - assert (Hin0 : tm0 ∈ filter (fun x => callback x = SubmitTimeout l) (timers w)).
    { rewrite (watched_guards _ _ _ _ _ _ Hw). by left. }
    apply list_elem_of_filter in Hin0 as [Hcb0 Hin0]. apply list_elem_of_In in Hin0.
    destruct (next_timer_some (timers w) tm0 Hin0) as [tm En].
    simpl. rewrite En.
    pose proof (next_timer_least _ _ En tm0 Hin0) as Hleast.
    pose proof (next_timer_In _ _ En) as Hin.
    destruct (N.leb_spec (due tm) t) as [Hd|Hd]; [|lia].
    destruct (decide (callback tm = SubmitTimeout l)) as [Hcb|Hcb].
    + assert (Hg : tm ∈ filter (fun x => callback x = SubmitTimeout l) (timers w)).
      { apply list_elem_of_filter. split; [done|by apply list_elem_of_In]. }
      rewrite (watched_guards _ _ _ _ _ _ Hw) in Hg.
      apply list_elem_of_singleton in Hg. subst tm.
      destruct (fire_guard l o c s seen tm0 w Hw Hc Hp0 Hcl Ho Hndo) as [Hw' Hc'].
      apply run_timers_settled; auto.
      rewrite timers_fire. by apply timers_after_distinct.
    + apply IH.
      * pose proof (firings_fire t tm w Hin Hd Hper). lia.
      * by apply fire_other_watched.
      * by apply fire_close_count.
      * rewrite timers_fire. by apply timers_after_distinct.
      * rewrite timers_fire. by apply timers_after_periods.
Qed.

(** While the timeout of [l] is armed but not yet due at [t], running the
    timers up to [t] leaves the stream alone. *)
Lemma run_timers_before_guard (l o : nat) (s : Subject) (seen : list Notif)
    (tm0 : Timer) (t : N) (fuel : nat) (w : World) :
  watched l o s seen [tm0] w -> List.NoDup (map tid (timers w)) ->
  (t < due tm0)%N ->
  watched l o s seen [tm0] (run_timers fuel t w).
Proof.
  intros Hw Hnd Hdue. revert w Hw Hnd.
  induction fuel as [|fuel IH]; intros w Hw Hnd; simpl; [done|].
  destruct (next_timer (timers w)) as [tm|] eqn:En; [|done].
  destruct (N.leb_spec (due tm) t) as [Hd|Hd]; [|done].
  assert (Hin : In tm (timers w)) by (by apply next_timer_In).
  apply IH.
  - apply fire_other_watched; auto.
    intros Hcb.
    assert (Hg : tm ∈ filter (fun x => callback x = SubmitTimeout l) (timers w)).
    { apply list_elem_of_filter. split; [done|by apply list_elem_of_In]. }
    rewrite (watched_guards _ _ _ _ _ _ Hw) in Hg.
    apply list_elem_of_singleton in Hg. subst tm. lia.
  - rewrite timers_fire. by apply timers_after_distinct.
Qed.

(** The stream of an atom just submitted, with the caller subscribed to it. *)
Lemma submitted_is_watched (a : Atom) (w : World) (sock : Socket) :
  well_formed w ->
  _socket (conn w) = Some sock ->
  let l := length (subjects w) in
  let o := observerCount w in
  let w2 := step (CallObserve l) (step (CallSubmitAtom a) w) in
  let tm0 := {| tid := timerCount w; due := (now w + 5000)%N; period := None;
                callback := SubmitTimeout l |} in
  watched l o
    {| closed := false; isStopped := false; hasError := false; thrownError := JNull;
       observers := [o]; _value := Some (SVState "CREATED") |}
    [Next (SVState "CREATED")] [tm0] w2
  /\ close_count (closeCalls sock) w2
  /\ List.NoDup (map tid (timers w2))
  /\ Forall (fun x => period x <> Some 0%N) (timers w2).
Proof.
  intros Hwf Hsock l o w2 tm0. subst w2 tm0 l o.
  rewrite (step_submitAtom a w sock Hsock).
  rewrite (step_observe_live _ (after_submitAtom a w) created_subject);
    [|by apply list_lookup_middle|done..].
  destruct Hwf as [Hids Hdist Hper Hsub Hobs Htr _ _ _ _ _].
  split; [|split; [|split]].
  - constructor; simpl.
    + rewrite list_lookup_insert_eq; [done|]. rewrite length_app. simpl. lia.
    + unfold observed. simpl. rewrite filter_app, map_app.
      pose proof (observed_fresh _ w Htr) as Hfresh. unfold observed in Hfresh.
      rewrite Hfresh, filter_cons. simpl.
      destruct (decide (observerCount w = observerCount w)); done.
    + intros l' s' Hne Hl'. rewrite list_lookup_insert_ne in Hl' by done.
      assert (Hlt : l' < length (subjects w)).
      { apply lookup_lt_Some in Hl'. rewrite length_app in Hl'. simpl in Hl'.
        lia. }
      rewrite lookup_app_l in Hl' by done.
      rewrite Forall_forall in Hobs.
      specialize (Hobs s' (list_elem_of_lookup_2 _ _ _ Hl')).
      rewrite Forall_forall in Hobs. intros Hin.
      specialize (Hobs _ (proj2 (list_elem_of_In _ _) Hin)). lia.
    + rewrite filter_app.
      replace (filter _ (timers w)) with (@nil Timer).
      * rewrite filter_cons. simpl.
        destruct (decide (_ = _)); done.
      * symmetry. clear -Hsub. induction Hsub as [|x ts Hx _ IH]; [done|].
        rewrite filter_cons.
        destruct (decide (callback x = _)) as [E|]; [|done].
        specialize (Hx _ E). lia.
    + eauto.
  - exists sock. simpl. split; [done|lia].
  - simpl. rewrite map_app. simpl. apply List.NoDup_app; [done|repeat constructor; by intros []|].
    intros x Hx [<-|[]]. apply in_map_iff in Hx as (tm & E & Htm).
    rewrite Forall_forall in Hids.
    specialize (Hids tm (proj2 (list_elem_of_In _ _) Htm)). simpl in Hids. lia.
  - simpl. apply Forall_app. split; [done|]. by repeat constructor.
Qed.


(** ** Well-formedness is an invariant *)

Lemma well_formed_new_connection : well_formed new_connection.
Proof. constructor; simpl; constructor. Qed.

(** For a change of fields that well-formedness does not look at. *)
Ltac wf_same :=
  let w := fresh "w" in
  let Hw := fresh "Hw" in
  intros w Hw; destruct Hw; constructor; simpl; assumption.

Lemma wf_observers_of (w : World) (l : nat) (s : Subject) :
  well_formed w -> subjects w !! l = Some s ->
  Forall (fun o => o < observerCount w) (observers s).
Proof.
  intros Hw Hl. pose proof (wf_observers w Hw) as Ho.
  rewrite Forall_forall in Ho. apply Ho. by eapply list_elem_of_lookup_2.
Qed.

Lemma wf_write_subject (w : World) (l : nat) (s' : Subject) :
  well_formed w ->
  Forall (fun o => o < observerCount w) (observers s') ->
  well_formed (set_subjects (fun hp => <[l := s']> hp) w).
Proof.
  intros Hw Ho. destruct Hw. constructor; simpl; rewrite ?length_insert; auto.
  by apply Forall_insert.
Qed.

Lemma wf_notify (w : World) (os : list nat) (n : Notif) :
  well_formed w ->
  Forall (fun o => o < observerCount w) os ->
  well_formed (set_trace (fun t => t ++ deliveries os n) w).
Proof.
  intros Hw Ho. destruct Hw. constructor; simpl; auto.
  apply Forall_app. split; [done|].
  unfold deliveries. apply Forall_map. by apply (Forall_impl _ _ _ Ho).
Qed.

Lemma next_well_formed (l : nat) (v : StreamVal) : preserves well_formed (next l v).
Proof.
  intros w Hw. unfold exec, next, read_subject, write_subject, notify, bind, gets,
    modify, defined, ret.
  destruct (subjects w !! l) as [s|] eqn:El; simpl; [|done].
  pose proof (wf_observers_of w l s Hw El) as Ho.
  assert (Hlt : l < length (subjects w)) by (by eapply lookup_lt_Some).
  destruct (_value s); simpl.
  - rewrite list_lookup_insert_eq by done. simpl.
    destruct (closed s), (isStopped s); simpl;
      try (apply wf_notify; [|done]); by apply wf_write_subject.
  - rewrite El. simpl.
    destruct (closed s), (isStopped s); simpl; try done. by apply wf_notify.
Qed.

Lemma error_well_formed (l : nat) (err : JsVal) : preserves well_formed (error l err).
Proof.
  intros w Hw. unfold exec, error, read_subject, write_subject, notify, bind, gets,
    modify, defined, ret.
  destruct (subjects w !! l) as [s|] eqn:El; simpl; [|done].
  pose proof (wf_observers_of w l s Hw El) as Ho.
  destruct (closed s); simpl; [done|].
  apply wf_notify; [|done]. apply wf_write_subject; [done|]. simpl. constructor.
Qed.

Lemma complete_well_formed (l : nat) : preserves well_formed (complete l).
Proof.
  intros w Hw. unfold exec, complete, read_subject, write_subject, notify, bind, gets,
    modify, defined, ret.
  destruct (subjects w !! l) as [s|] eqn:El; simpl; [|done].
  pose proof (wf_observers_of w l s Hw El) as Ho.
  destruct (closed s); simpl; [done|].
  apply wf_notify; [|done]. apply wf_write_subject; [done|]. simpl. constructor.
Qed.

Lemma unsubscribe_subject_well_formed (l : nat) :
  preserves well_formed (unsubscribe_subject l).
Proof.
  intros w Hw. unfold exec, unsubscribe_subject, read_subject, write_subject, bind,
    gets, modify, defined, ret.
  destruct (subjects w !! l) as [s|] eqn:El; simpl; [|done].
  apply wf_write_subject; [done|]. simpl. constructor.
Qed.

Lemma wf_more_observers (w : World) :
  well_formed w -> well_formed (set_observerCount S w).
Proof.
  intros Hw. destruct Hw as [Hids Hdist Hpers Hsub Hobs Htr Hpend Hpsub Hs1 Hs2 Hs3].
  constructor; simpl; auto.
  - eapply Forall_impl; [exact Hobs|]. intros s Hs. simpl in Hs.
    eapply Forall_impl; [exact Hs|]. simpl. intros; lia.
  - eapply Forall_impl; [exact Htr|]. simpl. intros; lia.
Qed.

Lemma subscribe_observer_well_formed (l : nat) :
  preserves well_formed (subscribe_observer l).
Proof.
  intros w Hw. unfold exec, subscribe_observer, read_subject, write_subject, notify,
    bind, gets, modify, defined, ret. simpl.
  pose proof (wf_more_observers w Hw) as Hw1.
  destruct (subjects w !! l) as [s|] eqn:El; simpl; [|done].
  pose proof (wf_observers_of _ l s Hw1 El) as Ho. simpl in Ho.
  assert (Hnew : Forall (fun o => o < S (observerCount w)) [observerCount w])
    by (repeat constructor).
  destruct (closed s); simpl; [done|].
  destruct (hasError s); simpl;
    [exact (wf_notify _ [observerCount w] (Error (thrownError s)) Hw1 Hnew)|].
  destruct (isStopped s); simpl;
    [exact (wf_notify _ [observerCount w] Complete Hw1 Hnew)|].
  assert (Hw2 : well_formed (set_subjects (fun hp =>
            <[l := {| closed := false; isStopped := false; hasError := false;
                      thrownError := thrownError s;
                      observers := observers s ++ [observerCount w];
                      _value := _value s |}]> hp) (set_observerCount S w))).
  { apply wf_write_subject; [done|]. simpl. apply Forall_app. by split. }
  destruct (_value s) as [v|]; simpl; [|done].
  exact (wf_notify _ [observerCount w] (Next v) Hw2 Hnew).
Qed.

Lemma set_timer_well_formed (delay : N) (per : option N) (a : TimerAction) :
  per <> Some 0%N -> (forall l, a <> SubmitTimeout l) ->
  preserves well_formed (set_timer delay per a).
Proof.
  intros Hper Ha w Hw. unfold exec, set_timer, bind, gets, modify, ret. simpl.
  destruct Hw as [Hids Hdist Hpers Hsub Hobs Htr Hpend Hpsub Hs1 Hs2 Hs3].
  constructor; simpl; auto.
  - apply Forall_app. split; [|repeat constructor].
    eapply Forall_impl; [exact Hids|]. simpl. intros; lia.
  - rewrite map_app. simpl. apply List.NoDup_app; [done|repeat constructor; by intros []|].
    intros x Hx [<-|[]]. apply in_map_iff in Hx as (tm & E & Htm).
    rewrite Forall_forall in Hids.
    specialize (Hids tm (proj2 (list_elem_of_In _ _) Htm)). simpl in *. lia.
  - apply Forall_app. split; [done|]. by repeat constructor.
  - apply Forall_app. split; [done|]. constructor; [|constructor]. simpl.
    intros l E. by destruct (Ha l).
  - eapply Forall_impl; [exact Hpsub|]. simpl. intros e He t l E.
    destruct (He t l E). split; [done|lia].
Qed.

Lemma filter_distinct (P : Timer -> Prop) `{forall x, Decision (P x)} (ts : list Timer) :
  List.NoDup (map tid ts) -> List.NoDup (map tid (filter P ts)).
Proof.
  induction ts as [|x ts IH]; [done|]. simpl. intros Hnd.
  inversion Hnd as [|? ? Hnot Hnd']; subst.
  rewrite filter_cons. destruct (decide (P x)); [|by apply IH].
  simpl. constructor; [|by apply IH].
  intros Hin. apply Hnot. apply in_map_iff in Hin as (y & Ey & Hy).
  apply in_map_iff. exists y. split; [done|].
  apply list_elem_of_In, list_elem_of_filter in Hy as [_ Hy].
  by apply list_elem_of_In.
Qed.

Lemma Forall_filter_keeps {A} (Q P : A -> Prop) `{forall x, Decision (P x)} (xs : list A) :
  Forall Q xs -> Forall Q (filter P xs).
Proof.
  induction 1 as [|x xs Hx _ IH]; [done|].
  rewrite filter_cons. destruct (decide (P x)); auto.
Qed.

Lemma clear_timer_well_formed (id : option nat) : preserves well_formed (clear_timer id).
Proof.
  intros w Hw. unfold exec, clear_timer, modify. simpl.
  destruct Hw. constructor; simpl; auto using Forall_filter_keeps, filter_distinct.
Qed.

Lemma socket_call_well_formed (method : string) (params : JsVal) (k : Kont) :
  (forall t l, k <> KSubmit t l) ->
  preserves well_formed (socket_call method params k).
Proof.
  intros Hk w Hw. unfold exec, socket_call, the_socket, bind, gets, modify, defined, ret.
  destruct (_socket (conn w)); simpl; [|done].
  destruct Hw as [Hids Hdist Hpers Hsub Hobs Htr Hpend Hpsub Hs1 Hs2 Hs3].
  constructor; simpl; auto.
  - rewrite length_app. simpl. apply Forall_app. split; [|repeat constructor; simpl; lia].
    eapply Forall_impl; [exact Hpend|]. simpl. intros; lia.
  - apply Forall_app. split; [done|]. constructor; [|constructor]. simpl.
    intros t' l' E. by destruct (Hk t' l').
Qed.

Lemma take_pending_well_formed (cid : nat) : preserves well_formed (take_pending cid).
Proof.
  intros w Hw. unfold exec, take_pending, bind, gets, modify, ret. simpl.
  destruct Hw. constructor; simpl; auto using Forall_filter_keeps.
Qed.

Lemma take_pending_kont (cid : nat) (w : World) (k : Kont) :
  well_formed w -> fst (take_pending cid w) = Normal (Some k) ->
  forall t l, k = KSubmit t l -> l < length (subjects w) /\ t < timerCount w.
Proof.
  intros Hw. unfold take_pending, bind, gets, modify, ret. simpl.
  destruct (filter (fun e : nat * Kont => e.1 = cid) (pending w)) as [|e es] eqn:E;
    simpl; [done|].
  intros [= <-] t l Hk.
  assert (Hin : e ∈ filter (fun e : nat * Kont => e.1 = cid) (pending w))
    by (rewrite E; by left).
  apply list_elem_of_filter in Hin as [_ Hin].
  pose proof (wf_pending_subjects w Hw) as Hp. rewrite Forall_forall in Hp.
  by apply (Hp e Hin).
Qed.

Lemma fromJSON_atoms_pure (P : World -> Prop) (jsons : list JsVal) :
  preserves P (fromJSON_atoms jsons).
Proof. induction jsons as [|j jsons IH]; simpl; preserve. apply IH. Qed.

Lemma Forall_js_set {V} (P : string * V -> Prop) (k : string) (v : V) (o : JsObject V) :
  Forall P o -> P (k, v) -> Forall P (js_set k v o).
Proof.
  intros Ho Hk. induction Ho as [|[k' v'] o Hx Ho IH]; simpl; [by repeat constructor|].
  destruct (String.eqb k k'); constructor; auto.
Qed.

Lemma wf_new_subject (w : World) (s0 : Subject) :
  well_formed w -> observers s0 = [] ->
  well_formed (set_subjects (fun hp => hp ++ [s0]) w).
Proof.
  intros Hw H0.
  destruct Hw as [Hids Hdist Hpers Hsub Hobs Htr Hpend Hpsub Hs1 Hs2 Hs3].
  constructor; simpl; rewrite ?length_app; simpl; auto.
  - eapply Forall_impl; [exact Hsub|]. simpl. intros tm Htm l E.
    specialize (Htm l E). lia.
  - apply Forall_app. split; [done|]. constructor; [|constructor]. by rewrite H0.
  - eapply Forall_impl; [exact Hpsub|]. simpl. intros e He t l E.
    destruct (He t l E). split; lia.
  - eapply Forall_impl; [exact Hs1|]. simpl. intros; lia.
  - eapply Forall_impl; [exact Hs2|]. simpl. intros; lia.
  - eapply Forall_impl; [exact Hs3|]. simpl. intros; lia.
Qed.

Lemma wf_set_subscriptions (w : World) (k : string) (l : nat) :
  well_formed w -> l < length (subjects w) ->
  well_formed (set_conn (set__subscriptions (js_set k l)) w).
Proof.
  intros Hw Hl. destruct Hw. constructor; simpl; auto. by apply Forall_js_set.
Qed.

Lemma wf_set_atomUpdateSubjects (w : World) (k : string) (l : nat) :
  well_formed w -> l < length (subjects w) ->
  well_formed (set_conn (set__atomUpdateSubjects (js_set k l)) w).
Proof.
  intros Hw Hl. destruct Hw. constructor; simpl; auto. by apply Forall_js_set.
Qed.

Lemma wf_set_syncedSubscriptions (w : World) (k : string) (l : nat) :
  well_formed w -> l < length (subjects w) ->
  well_formed (set_conn (set__syncedSubscriptions (js_set k l)) w).
Proof.
  intros Hw Hl. destruct Hw. constructor; simpl; auto. by apply Forall_js_set.
Qed.

(** A timer is armed under the next free name. *)
Lemma wf_armed (w : World) (d : N) (per : option N) (a : TimerAction) :
  well_formed w -> per <> Some 0%N ->
  (forall l, a = SubmitTimeout l -> l < length (subjects w)) ->
  well_formed
    (set_timers (fun ts => ts ++
         [ {| tid := timerCount w; due := d; period := per; callback := a |} ])
       (set_timerCount S w)).
Proof.
  intros Hw Hper Ha.
  destruct Hw as [Hids Hdist Hpers Hsub Hobs Htr Hpend Hpsub Hs1 Hs2 Hs3].
  constructor; simpl; auto.
  - apply Forall_app. split; [|repeat constructor].
    eapply Forall_impl; [exact Hids|]. simpl. intros; lia.
  - rewrite map_app. simpl. apply List.NoDup_app; [done|repeat constructor; by intros []|].
    intros x Hx [<-|[]]. apply in_map_iff in Hx as (tm & E & Htm).
    rewrite Forall_forall in Hids.
    specialize (Hids tm (proj2 (list_elem_of_In _ _) Htm)). simpl in *. lia.
  - apply Forall_app. split; [done|]. by repeat constructor.
  - apply Forall_app. split; [done|]. constructor; [|constructor]. exact Ha.
  - eapply Forall_impl; [exact Hpsub|]. simpl. intros e He t l E.
    destruct (He t l E). split; [done|lia].
Qed.

(** A remote call is sent under the next free name. *)
Lemma wf_sent (w : World) (mp : string * JsVal) (k : Kont) :
  well_formed w ->
  (forall t l, k = KSubmit t l -> l < length (subjects w) /\ t < timerCount w) ->
  well_formed
    (set_pending (fun pd => pd ++ [(length (outbox w), k)])
       (set_outbox (fun ob => ob ++ [mp]) w)).
Proof.
  intros Hw Hk.
  destruct Hw as [Hids Hdist Hpers Hsub Hobs Htr Hpend Hpsub Hs1 Hs2 Hs3].
  constructor; simpl; auto.
  - rewrite length_app. simpl. apply Forall_app. split; [|repeat constructor; simpl; lia].
    eapply Forall_impl; [exact Hpend|]. simpl. intros; lia.
  - apply Forall_app. split; [done|]. constructor; [|constructor]. exact Hk.
Qed.

Lemma wf_next_subscriber (w : World) :
  well_formed w ->
  well_formed (set_conn (fun c => set_lastSubscriberId (lastSubscriberId c + 1)%N c) w).
Proof. revert w. wf_same. Qed.

Lemma wf_set_address (w : World) (f : JsObject string -> JsObject string) :
  well_formed w -> well_formed (set_conn (set__addressSubscriptions f) w).
Proof. revert w. wf_same. Qed.

Lemma before_subscribe_call_well_formed (address : string) (w : World) :
  well_formed w -> well_formed (before_subscribe_call address w).
Proof.
  intros Hw. unfold before_subscribe_call.
  apply wf_set_syncedSubscriptions; [|simpl; rewrite !length_app; simpl; lia].
  apply wf_new_subject; [|done].
  apply wf_set_subscriptions; [|simpl; rewrite !length_app; simpl; lia].
  apply wf_new_subject; [|done].
  by apply wf_set_address, wf_next_subscriber.
Qed.

Lemma subscribe_well_formed (address : string) :
  preserves well_formed (subscribe address).
Proof.
  intros w Hw.
  assert (Hrun : exec (subscribe address) w = before_subscribe_call address w
               \/ exec (subscribe address) w = after_subscribe address w).
  { unfold exec, subscribe, getSubscriberId, new_subject, socket_call, the_socket,
      bind, gets, modify, ret, defined. simpl.
    unfold after_subscribe, before_subscribe_call.
    destruct (_socket (conn w)); simpl; rewrite ?length_app; simpl;
      [right|left]; reflexivity. }
  destruct Hrun as [->| ->].
  - by apply before_subscribe_call_well_formed.
  - unfold after_subscribe.
    apply (wf_sent (before_subscribe_call address w)); [|done].
    by apply before_subscribe_call_well_formed.
Qed.

Lemma before_submit_call_well_formed (w : World) :
  well_formed w -> well_formed (before_submit_call w).
Proof.
  intros Hw. unfold before_submit_call.
  apply (wf_armed (set_conn _ (set_subjects _ (set_conn _ w)))); [|done|].
  - apply wf_set_atomUpdateSubjects; [|simpl; rewrite !length_app; simpl; lia].
    apply wf_new_subject; [|done]. by apply wf_next_subscriber.
  - simpl. intros l [= <-]. rewrite length_app. simpl. lia.
Qed.

Lemma submitAtom_well_formed (a : Atom) : preserves well_formed (submitAtom a).
Proof.
  intros w Hw.
  assert (Hrun : exec (submitAtom a) w = before_submit_call w
               \/ exec (submitAtom a) w = after_submitAtom a w).
  { unfold exec, submitAtom, getSubscriberId, new_subject, setTimeout, set_timer,
      socket_call, the_socket, bind, gets, modify, ret, defined. simpl.
    destruct (_socket (conn w)); simpl; [right|left]; reflexivity. }
  destruct Hrun as [->| ->].
  - by apply before_submit_call_well_formed.
  - unfold after_submitAtom.
    apply (wf_sent (before_submit_call w)).
    + by apply before_submit_call_well_formed.
    + simpl. intros t l [= <- <-]. rewrite length_app. simpl. lia.
Qed.

(** Well-formedness is kept by every step whose rule is known, and by a
    change of fields that it does not look at. *)
Ltac wf_known :=
  match goal with
  | |- preserves _ (next _ _) => apply next_well_formed
  | |- preserves _ (error _ _) => apply error_well_formed
  | |- preserves _ (complete _) => apply complete_well_formed
  | |- preserves _ (unsubscribe_subject _) => apply unsubscribe_subject_well_formed
  | |- preserves _ (subscribe_observer _) => apply subscribe_observer_well_formed
  | |- preserves _ (clear_timer _) => apply clear_timer_well_formed
  | |- preserves _ (take_pending _) => apply take_pending_well_formed
  | |- preserves _ (subscribe _) => apply subscribe_well_formed
  | |- preserves _ (submitAtom _) => apply submitAtom_well_formed
  | |- preserves _ (set_timer _ _ _) => apply set_timer_well_formed; done
  | |- preserves _ (socket_call _ _ _) => apply socket_call_well_formed; done
  | |- preserves _ (fromJSON_atoms _) => apply fromJSON_atoms_pure
  | |- preserves _ (modify _) => apply preserves_modify; wf_same
  end.

Ltac wf_unfold :=
  unfold on_open_timeout, on_submit_timeout, ping, isReady, on_socket_open,
    on_socket_error, openConnection, unsubscribe, unsubscribeAll, isSynced,
    getAtomById, close, _onClosed, close_subject, _onAtomSubmissionStateUpdate,
    _onAtomReceivedNotification, check_hid, on_settled, set_ready,
    socket_close, the_socket, emit, resolve, reject, settle, notify_all,
    settle_one, Promise_all, new_promise, setTimeout, setInterval, clearTimeout,
    clearInterval, run_callback.

Ltac wf_step :=
  first
    [ wf_known
    | progress wf_unfold
    | apply preserves_ret
    | apply preserves_throw
    | apply preserves_gets
    | apply preserves_lift_completion
    | apply preserves_defined
    | apply preserves_bind; [|intros ?]
    | apply preserves_try_catch; [|intros ?]
    | apply preserves_for_each; intros ?
    | apply preserves_for_each_indexed; intros ? ?
    | match goal with
      | |- preserves _ (if ?b then _ else _) => destruct b
      | |- preserves _ (match ?x with _ => _ end) => destruct x
      end ].

Ltac wf_steps := repeat wf_step.

Lemma settle_well_formed (p : nat) (r : Settled) : preserves well_formed (settle p r).
Proof. wf_steps. Qed.

Lemma openConnection_well_formed : preserves well_formed openConnection.
Proof. wf_steps. Qed.

Lemma on_socket_open_well_formed (p : nat) : preserves well_formed (on_socket_open p).
Proof. wf_steps. Qed.

Lemma unsubscribe_well_formed (address : string) :
  preserves well_formed (unsubscribe address).
Proof. wf_steps. Qed.

Lemma unsubscribe_each_well_formed (addresses : list string) :
  preserves well_formed (unsubscribe_each addresses).
Proof.
  induction addresses as [|address rest IH]; simpl.
  - apply preserves_ret.
  - apply preserves_bind; [apply unsubscribe_well_formed|intros p].
    apply preserves_bind; [exact IH|intros ps]. apply preserves_ret.
Qed.

Lemma unsubscribeAll_well_formed : preserves well_formed unsubscribeAll.
Proof.
  unfold unsubscribeAll.
  apply preserves_bind; [apply preserves_gets|intros c].
  apply preserves_bind; [apply unsubscribe_each_well_formed|intros ps].
  wf_steps.
Qed.

Lemma getAtomById_well_formed (id : EUID) : preserves well_formed (getAtomById id).
Proof. wf_steps. Qed.

Lemma _onClosed_well_formed : preserves well_formed _onClosed.
Proof. wf_steps. Qed.

Lemma _onAtomSubmissionStateUpdate_well_formed
    (n : AtomSubmissionStateUpdateNotification) :
  preserves well_formed (_onAtomSubmissionStateUpdate n).
Proof. wf_steps. Qed.

Lemma _onAtomReceivedNotification_well_formed (n : AtomReceivedNotification) :
  preserves well_formed (_onAtomReceivedNotification n).
Proof. wf_steps. Qed.

Lemma on_settled_well_formed (k : Kont) (r : Completion JsVal) :
  preserves well_formed (on_settled k r).
Proof. wf_steps. Qed.

Lemma run_callback_well_formed (a : TimerAction) :
  preserves well_formed (run_callback a).
Proof. wf_steps. Qed.

Lemma handle_well_formed (ev : Event) : preserves well_formed (handle ev).
Proof.
  destruct ev; unfold handle.
  all: try (apply preserves_bind; [apply unsubscribeAll_well_formed|intros ?];
            apply preserves_ret).
  all: wf_steps.
Qed.

Lemma wf_uncaught (w : World) (e : JsVal) :
  well_formed w -> well_formed (set_uncaught (fun es => es ++ [e]) w).
Proof. revert w. wf_same. Qed.

Lemma step_well_formed (ev : Event) (w : World) :
  well_formed w -> well_formed (step ev w).
Proof.
  intros Hw. unfold step.
  apply preserves_task; [apply handle_well_formed|apply wf_uncaught|done].
Qed.

Lemma wf_timers_after (tm : Timer) (w : World) :
  well_formed w -> well_formed (set_timers (timers_after tm) w).
Proof.
  intros Hw. destruct Hw as [Hids Hdist Hpers Hsub Hobs Htr Hpend Hpsub Hs1 Hs2 Hs3].
  constructor; simpl; auto using timers_after_distinct, timers_after_periods.
  - unfold timers_after. destruct (period tm) as [p|].
    + apply Forall_map. eapply Forall_impl; [exact Hids|].
      intros x Hx. simpl. by rewrite reschedule_tid.
    + by apply Forall_filter_keeps.
  - unfold timers_after. destruct (period tm) as [p|].
    + apply Forall_map. eapply Forall_impl; [exact Hsub|].
      intros x Hx. simpl. by rewrite reschedule_callback.
    + by apply Forall_filter_keeps.
Qed.

Lemma fire_well_formed (tm : Timer) : preserves well_formed (fire tm).
Proof.
  unfold fire.
  apply preserves_bind; [apply preserves_modify; wf_same|intros _].
  apply preserves_bind; [apply preserves_modify, wf_timers_after|intros _].
  apply run_callback_well_formed.
Qed.

Lemma run_timers_well_formed (fuel : nat) (t : N) (w : World) :
  well_formed w -> well_formed (run_timers fuel t w).
Proof.
  revert w. induction fuel as [|fuel IH]; intros w Hw; simpl; [done|].
  destruct (next_timer (timers w)) as [tm|]; [|done].
  destruct (due tm <=? t)%N; [|done].
  apply IH. apply preserves_task; [apply fire_well_formed|apply wf_uncaught|done].
Qed.

Lemma advance_well_formed (t : N) (w : World) :
  well_formed w -> well_formed (advance t w).
Proof.
  intros Hw. unfold advance.
  pose proof (run_timers_well_formed (firings t (timers w)) t w Hw) as Hr.
  revert Hr. generalize (run_timers (firings t (timers w)) t w). wf_same.
Qed.

Lemma deliver_well_formed (te : N * Event) (w : World) :
  well_formed w -> well_formed (deliver te w).
Proof. intros Hw. by apply step_well_formed, advance_well_formed. Qed.

Lemma run_well_formed (evs : list (N * Event)) (w : World) :
  well_formed w -> well_formed (run evs w).
Proof.
  revert w. induction evs as [|te evs IH]; intros w Hw; simpl; [done|].
  by apply IH, deliver_well_formed.
Qed.

(** Every world that the connection reaches from its construction is well
    formed. *)
Theorem reachable_well_formed (evs : list (N * Event)) :
  well_formed (run evs new_connection).
Proof. apply run_well_formed, well_formed_new_connection. Qed.

(** ** Computations that keep an invariant and say something of their result *)

Lemma keeps_ret {A} (P : World -> Prop) (a : A) : keeps P (ret a) (fun a' => a' = a).
Proof. intros w Hw. split; [done|]. simpl. by intros a' [= <-]. Qed.

Lemma keeps_throw {A} (P : World -> Prop) (e : JsVal) (Q : A -> Prop) :
  keeps P (throw e) Q.
Proof. intros w Hw. split; [done|]. simpl. by intros a'. Qed.

Lemma keeps_gets {A} (P : World -> Prop) (f : World -> A) :
  keeps P (gets f) (fun a => exists w, P w /\ a = f w).
Proof. intros w Hw. split; [done|]. simpl. intros a' [= <-]. eauto. Qed.

Lemma keeps_defined {A} (P : World -> Prop) (x : option A) :
  keeps P (defined x) (fun a => x = Some a).
Proof.
  intros w Hw. unfold exec, defined. destruct x as [a|]; simpl.
  - split; [done|]. by intros a' [= <-].
  - split; [done|]. by intros a'.
Qed.

Lemma keeps_lift_completion {A} (P : World -> Prop) (c : Completion A) :
  keeps P (lift_completion c) (fun a => c = Normal a).
Proof.
  intros w Hw. unfold exec, lift_completion. destruct c as [a|e]; simpl.
  - split; [done|]. by intros a' [= <-].
  - split; [done|]. by intros a'.
Qed.

Lemma keeps_modify (P : World -> Prop) (f : World -> World) :
  (forall w, P w -> P (f w)) -> keeps P (modify f) (fun _ => True).
Proof. intros Hf w Hw. split; [by apply Hf|done]. Qed.

Lemma keeps_bind {A B} (P : World -> Prop) (m : M A) (k : A -> M B)
    (Q : A -> Prop) (R : B -> Prop) :
  keeps P m Q -> (forall a, Q a -> keeps P (k a) R) -> keeps P (bind m k) R.
Proof.
  intros Hm Hk w Hw. destruct (Hm w Hw) as [Hp Hq].
  unfold exec, bind in *. destruct (m w) as [[a|e] w']; simpl in *.
  - apply (Hk a); auto.
  - split; [done|]. by intros b.
Qed.

Lemma keeps_weaken {A} (P : World -> Prop) (m : M A) (Q Q' : A -> Prop) :
  keeps P m Q -> (forall a, Q a -> Q' a) -> keeps P m Q'.
Proof. intros Hm HQ w Hw. destruct (Hm w Hw) as [Hp Hq]. split; auto. Qed.

Lemma keeps_try_catch {A} (P : World -> Prop) (m : M A) (h : JsVal -> M A)
    (Q : A -> Prop) :
  keeps P m Q -> (forall e, keeps P (h e) Q) -> keeps P (try_catch m h) Q.
Proof.
  intros Hm Hh w Hw. destruct (Hm w Hw) as [Hp Hq].
  unfold exec, try_catch in *. destruct (m w) as [[a|e] w']; simpl in *.
  - split; [done|]. intros a' [= <-]. by apply Hq.
  - by apply Hh.
Qed.

Lemma keeps_for_each {A} (P : World -> Prop) (xs : list A) (f : A -> M unit) :
  (forall x, keeps P (f x) (fun _ => True)) ->
  keeps P (for_each xs f) (fun _ => True).
Proof.
  intros Hf. induction xs as [|x xs IH]; simpl.
  - eapply keeps_weaken; [apply keeps_ret|done].
  - eapply keeps_bind; [apply Hf|]. intros _ _. exact IH.
Qed.

Lemma keeps_for_each_indexed {A} (P : World -> Prop)
    (i : nat) (xs : list A) (f : nat -> A -> M unit) :
  (forall i x, keeps P (f i x) (fun _ => True)) ->
  keeps P (for_each_indexed i xs f) (fun _ => True).
Proof.
  intros Hf. revert i. induction xs as [|x xs IH]; intros i; simpl.
  - eapply keeps_weaken; [apply keeps_ret|done].
  - eapply keeps_bind; [apply Hf|]. intros _ _. apply IH.
Qed.

Lemma keeps_preserves {A} (P : World -> Prop) (m : M A) (Q : A -> Prop) :
  keeps P m Q -> preserves P m.
Proof. intros Hm w Hw. apply (Hm w Hw). Qed.

Lemma preserves_keeps {A} (P : World -> Prop) (m : M A) :
  preserves P m -> keeps P m (fun _ => True).
Proof. intros Hm w Hw. split; [by apply Hm|done]. Qed.

Lemma keeps_read_subject (P : World -> Prop) (l : nat) :
  keeps P (read_subject l) (fun s => exists w, P w /\ subjects w !! l = Some s).
Proof.
  intros w Hw. unfold exec, read_subject, bind, gets, defined. simpl.
  destruct (subjects w !! l) as [s|] eqn:E; simpl.
  - split; [done|]. intros a' [= <-]. eauto.
  - split; [done|]. by intros a'.
Qed.

Lemma keeps_the_socket (P : World -> Prop) :
  keeps P the_socket (fun sock => exists w, P w /\ _socket (conn w) = Some sock).
Proof.
  intros w Hw. unfold exec, the_socket, bind, gets, defined. simpl.
  destruct (_socket (conn w)) as [sock|] eqn:E; simpl.
  - split; [done|]. intros a' [= <-]. eauto.
  - split; [done|]. by intros a'.
Qed.

(** What is known of the values read so far. *)
Ltac keep_clean :=
  cbv beta in *;
  repeat match goal with
         | H : exists w, _ /\ _ |- _ =>
             let w0 := fresh "w0" in
             let Hw0 := fresh "Hw0" in
             let E := fresh "E" in
             destruct H as (w0 & Hw0 & E)
         | H : True |- _ => clear H
         | H : (fun _ => True) _ |- _ => clear H
         | H : ?a = _ |- _ => is_var a; subst a
         end.

(** Settles the result of a step whose rule says more than is asked;
    [side] is for what remains to be shown of the result. *)
Ltac keep_leaf rule side :=
  eapply keeps_weaken; [rule|];
  let a := fresh "a" in
  let Ha := fresh "Ha" in
  intros a Ha; first [exact Ha | exact I | cbv beta in *; keep_clean; side].

Ltac keep_any_result :=
  match goal with
  | |- @keeps ?A _ _ ?Q => is_evar Q; unify Q (fun _ : A => True)
  | |- keeps _ _ _ => idtac
  end.

(** ** A submission while other things happen *)

Lemma js_get_In {V} (k : string) (v : V) (o : JsObject V) :
  js_get k o = Some v -> In (k, v) o.
Proof.
  induction o as [|[k' v'] o IH]; simpl; [done|].
  destruct (String.eqb_spec k k') as [->|Hne].
  - intros [= ->]. by left.
  - intros Hk. right. by apply IH.
Qed.

Lemma Forall_js_delete {V} (Q : string * V -> Prop) (k : string) (o : JsObject V) :
  Forall Q o -> Forall Q (js_delete k o).
Proof.
  induction 1 as [|[k' v'] o Hx Ho IH]; simpl; [done|].
  destruct (String.eqb k k'); auto.
Qed.

Section Window.

Variables (l o tid0 cid0 : nat) (key : string).

(** *** What keeps the isolation of the submission *)

Lemma isolated_frame (w w' : World) :
  isolated l o tid0 cid0 key w ->
  length (subjects w) <= length (subjects w') ->
  observerCount w <= observerCount w' ->
  timerCount w <= timerCount w' ->
  length (outbox w) <= length (outbox w') ->
  conn_isolated l key (conn w') ->
  Forall (fun e => e.1 <> cid0 -> kont_isolated l tid0 e.2) (pending w') ->
  isolated l o tid0 cid0 key w'.
Proof. intros [H1 H2 H3 H4 H5 H6] ? ? ? ? ? ?. constructor; auto; lia. Qed.

Lemma conn_isolated_same (c c' : Conn) :
  conn_isolated l key c ->
  _subscriptions c' = _subscriptions c ->
  _syncedSubscriptions c' = _syncedSubscriptions c ->
  _atomUpdateSubjects c' = _atomUpdateSubjects c ->
  conn_isolated l key c'.
Proof. intros [H1 H2 H3] E1 E2 E3. constructor; by rewrite ?E1, ?E2, ?E3. Qed.

(** A timer that fires, whichever it is, keeps the isolation. *)
Lemma run_callback_isolated (a : TimerAction) :
  preserves (isolated l o tid0 cid0 key) (run_callback a).
Proof.
  destruct a; unfold run_callback; preserve.
  all: apply preserves_modify; intros w Hw.
  all: eapply isolated_frame;
    [exact Hw|simpl; rewrite ?length_app, ?length_insert; lia..| |].
  all: simpl; try apply Hw.
  all: try (eapply conn_isolated_same; [apply Hw|reflexivity..]).
  apply Forall_app. split; [apply Hw|].
  constructor; [|constructor]. by intros _ t l' [=].
Qed.

Lemma fire_isolated (tm : Timer) (w : World) :
  isolated l o tid0 cid0 key w -> isolated l o tid0 cid0 key (task (fire tm) w).
Proof.
  intros Hw.
  apply (preserves_task _ (run_callback (callback tm))
           (set_timers (timers_after tm) (set_now (N.max (due tm)) w))).
  - apply run_callback_isolated.
  - intros w' e Hw'. eapply isolated_frame; eauto; apply Hw'.
  - eapply isolated_frame; eauto; apply Hw.
Qed.

Lemma run_timers_isolated (fuel : nat) (t : N) (w : World) :
  isolated l o tid0 cid0 key w -> isolated l o tid0 cid0 key (run_timers fuel t w).
Proof.
  revert w. induction fuel as [|fuel IH]; intros w Hw; simpl; [done|].
  destruct (next_timer (timers w)) as [tm|]; [|done].
  destruct (due tm <=? t)%N; [|done].
  by apply IH, fire_isolated.
Qed.

Lemma run_timers_close_count (c fuel : nat) (t : N) (w : World) :
  close_count c w -> close_count c (run_timers fuel t w).
Proof.
  revert w. induction fuel as [|fuel IH]; intros w Hw; simpl; [done|].
  destruct (next_timer (timers w)) as [tm|]; [|done].
  destruct (due tm <=? t)%N; [|done].
  by apply IH, fire_close_count.
Qed.

Variables (s : Subject) (seen : list Notif) (g : list Timer) (c : nat).

Local Abbreviation attending := (attended l o tid0 cid0 key s seen g c).

Lemma att_frame (w w' : World) :
  attending w ->
  subjects w' = subjects w -> trace w' = trace w -> timers w' = timers w ->
  observerCount w <= observerCount w' ->
  timerCount w <= timerCount w' ->
  length (outbox w) <= length (outbox w') ->
  _subscriptions (conn w') = _subscriptions (conn w) ->
  _syncedSubscriptions (conn w') = _syncedSubscriptions (conn w) ->
  _atomUpdateSubjects (conn w') = _atomUpdateSubjects (conn w) ->
  _socket (conn w') = _socket (conn w) ->
  pending w' = pending w ->
  attending w'.
Proof.
  intros [Hwa Hg Hiso Hc] Es Et Eti Ho Htc Hob E1 E2 E3 Esock Ep.
  constructor; [|done| |by eapply close_count_same_socket].
  - eapply watched_frame; eauto. rewrite Esock. apply Hwa.
  - eapply isolated_frame; eauto.
    + by rewrite Es.
    + eapply conn_isolated_same; eauto. apply Hiso.
    + rewrite Ep. apply Hiso.
Qed.

Lemma att_write_subject (w : World) (l' : nat) (s' : Subject) :
  attending w -> l' <> l -> ~ In o (observers s') ->
  attending (set_subjects (fun hp => <[l' := s']> hp) w).
Proof.
  intros [[H1 H2 H3 H4 H5] Hg Hiso Hc] Hne Ho.
  constructor; [constructor; simpl; auto|done| |done].
  - by rewrite list_lookup_insert_ne.
  - intros l'' s'' Hne' Hl''.
    destruct (decide (l' = l'')) as [<-|Hd].
    + assert (Hlt : l' < length (subjects w)).
      { rewrite <- (length_insert (subjects w) l' s'). by eapply lookup_lt_Some. }
      rewrite list_lookup_insert_eq in Hl'' by done.
      by injection Hl'' as <-.
    + rewrite list_lookup_insert_ne in Hl'' by done. by eapply H3.
  - eapply isolated_frame; eauto; simpl; rewrite ?length_insert; auto; apply Hiso.
Qed.

Lemma att_notify (w : World) (os : list nat) (n : Notif) :
  attending w -> ~ In o os ->
  attending (set_trace (fun t => t ++ deliveries os n) w).
Proof.
  intros [[H1 H2 H3 H4 H5] Hg Hiso Hc] Ho.
  constructor; [constructor; simpl; auto|done| |done].
  - rewrite observed_app, H2, deliveries_notin by done. simpl. by rewrite app_nil_r.
  - eapply isolated_frame; eauto; apply Hiso.
Qed.

Lemma att_new_subject (w : World) (s0 : Subject) :
  attending w -> observers s0 = [] ->
  attending (set_subjects (fun hp => hp ++ [s0]) w).
Proof.
  intros [[H1 H2 H3 H4 H5] Hg Hiso Hc] Ho.
  constructor; [constructor; simpl; auto|done| |done].
  - rewrite lookup_app_l; [done|]. by eapply lookup_lt_Some.
  - intros l'' s'' Hne' Hl''.
    destruct (decide (l'' < length (subjects w))) as [Hlt|Hge].
    + rewrite lookup_app_l in Hl'' by done. by eapply H3.
    + rewrite lookup_app_r in Hl'' by lia.
      apply list_elem_of_lookup_2, list_elem_of_singleton in Hl'' as ->.
      rewrite Ho. by intros [].
  - eapply isolated_frame; eauto; simpl; rewrite ?length_app; try lia; apply Hiso.
Qed.

Lemma att_armed (w : World) (tm : Timer) :
  attending w -> callback tm <> SubmitTimeout l ->
  attending (set_timers (fun ts => ts ++ [tm]) w).
Proof.
  intros [[H1 H2 H3 H4 H5] Hg Hiso Hc] Hcb.
  constructor; [constructor; simpl; auto|done| |done].
  - rewrite filter_app, H4, filter_cons.
    destruct (decide (callback tm = SubmitTimeout l)); [done|]. by rewrite app_nil_r.
  - eapply isolated_frame; eauto; apply Hiso.
Qed.

Lemma att_cleared (w : World) (id : option nat) :
  attending w -> id <> Some tid0 ->
  attending (set_timers (fun ts => filter (fun t => Some (tid t) <> id) ts) w).
Proof.
  intros [[H1 H2 H3 H4 H5] Hg Hiso Hc] Hid.
  constructor; [constructor; simpl; auto|done| |done].
  - rewrite filter_swap, H4.
    clear -Hg Hid. induction Hg as [|x g Hx Hg IH]; [done|].
    rewrite filter_cons. destruct (decide (Some (tid x) <> id)) as [_|Hn].
    + by rewrite IH.
    + exfalso. apply Hn. congruence.
  - eapply isolated_frame; eauto; apply Hiso.
Qed.

Lemma att_pending_more (w : World) (cid : nat) (k : Kont) :
  attending w -> kont_isolated l tid0 k ->
  attending (set_pending (fun pd => pd ++ [(cid, k)]) w).
Proof.
  intros [Hwa Hg Hiso Hc] Hk.
  constructor; [by eapply watched_frame; eauto; apply Hwa|done| |done].
  eapply isolated_frame; eauto; try apply Hiso. simpl.
  apply Forall_app. split; [apply Hiso|]. constructor; [done|constructor].
Qed.

Lemma att_pending_less (w : World) (Q : nat * Kont -> Prop)
    `{forall e, Decision (Q e)} :
  attending w -> attending (set_pending (fun pd => filter Q pd) w).
Proof.
  intros [Hwa Hg Hiso Hc].
  constructor; [by eapply watched_frame; eauto; apply Hwa|done| |done].
  eapply isolated_frame; eauto; try apply Hiso. simpl.
  apply Forall_filter_keeps, Hiso.
Qed.

Lemma att_conn (w : World) (f : Conn -> Conn) :
  attending w ->
  conn_isolated l key (f (conn w)) ->
  (exists sock', _socket (f (conn w)) = Some sock' /\ c <= closeCalls sock') ->
  attending (set_conn f w).
Proof.
  intros [Hwa Hg Hiso Hc] Hf (sock' & Hs' & Hle).
  constructor; [eapply watched_frame; eauto|done| |].
  - eapply isolated_frame; eauto. apply Hiso.
  - by exists sock'.
Qed.

Lemma att_set_subscriptions (w : World) (k : string) (l' : nat) :
  attending w -> l' <> l ->
  attending (set_conn (set__subscriptions (js_set k l')) w).
Proof.
  intros Hw Hne. apply att_conn; [done| |apply Hw].
  destruct (iso_conn _ _ _ _ _ _ (att_isolated _ _ _ _ _ _ _ _ _ _ Hw)) as [H1 H2 H3].
  constructor; simpl; auto. by apply Forall_js_set.
Qed.

Lemma att_set_syncedSubscriptions (w : World) (k : string) (l' : nat) :
  attending w -> l' <> l ->
  attending (set_conn (set__syncedSubscriptions (js_set k l')) w).
Proof.
  intros Hw Hne. apply att_conn; [done| |apply Hw].
  destruct (iso_conn _ _ _ _ _ _ (att_isolated _ _ _ _ _ _ _ _ _ _ Hw)) as [H1 H2 H3].
  constructor; simpl; auto. by apply Forall_js_set.
Qed.

Lemma att_set_atomUpdateSubjects (w : World) (k : string) (l' : nat) :
  attending w -> l' <> l ->
  attending (set_conn (set__atomUpdateSubjects (js_set k l')) w).
Proof.
  intros Hw Hne. apply att_conn; [done| |apply Hw].
  destruct (iso_conn _ _ _ _ _ _ (att_isolated _ _ _ _ _ _ _ _ _ _ Hw)) as [H1 H2 H3].
  constructor; simpl; auto. by apply Forall_js_set.
Qed.

Lemma att_set_socket (w : World) (sock' : Socket) :
  attending w -> c <= closeCalls sock' ->
  attending (set_conn (set__socket (Some sock')) w).
Proof.
  intros Hw Hle. apply att_conn; [done| |by exists sock'].
  eapply conn_isolated_same; [apply Hw|done..].
Qed.

(** *** What is known of a value that was read *)

Lemma att_fresh_subject (w : World) : attending w -> length (subjects w) <> l.
Proof. intros [_ _ [H1 _ _ _ _ _] _]. lia. Qed.

Lemma att_fresh_observer (w : World) : attending w -> observerCount w <> o.
Proof. intros [_ _ [_ H2 _ _ _ _] _]. lia. Qed.

Lemma att_fresh_timer (w : World) : attending w -> timerCount w <> tid0.
Proof. intros [_ _ [_ _ H3 _ _ _] _]. lia. Qed.

Lemma att_elsewhere (w : World) (l' : nat) (s' : Subject) :
  attending w -> l' <> l -> subjects w !! l' = Some s' -> ~ In o (observers s').
Proof. intros [Hwa _ _ _] Hne Hl'. by eapply (watched_elsewhere _ _ _ _ _ _ Hwa). Qed.

Lemma att_subscription (w : World) (k : string) (l' : nat) :
  attending w -> js_get k (_subscriptions (conn w)) = Some l' -> l' <> l.
Proof.
  intros [_ _ [_ _ _ _ [H1 _ _] _] _] Hk. apply js_get_In in Hk.
  rewrite Forall_forall in H1. by apply (H1 (k, l')), list_elem_of_In.
Qed.

Lemma att_syncedSubscription (w : World) (k : string) (l' : nat) :
  attending w -> js_get k (_syncedSubscriptions (conn w)) = Some l' -> l' <> l.
Proof.
  intros [_ _ [_ _ _ _ [_ H2 _] _] _] Hk. apply js_get_In in Hk.
  rewrite Forall_forall in H2. by apply (H2 (k, l')), list_elem_of_In.
Qed.

Lemma att_atomUpdateSubject (w : World) (k : string) (l' : nat) :
  attending w -> k <> key -> js_get k (_atomUpdateSubjects (conn w)) = Some l' -> l' <> l.
Proof.
  intros [_ _ [_ _ _ _ [_ _ H3] _] _] Hne Hk El. apply js_get_In in Hk.
  rewrite Forall_forall in H3. by apply Hne, (H3 (k, l')); [apply list_elem_of_In|].
Qed.

Lemma att_socket (w : World) (sock : Socket) :
  attending w -> _socket (conn w) = Some sock -> c <= closeCalls sock.
Proof. intros [_ _ _ (sock' & Hs & Hc)] E. congruence. Qed.

Lemma att_pending_kont (w : World) (cid : nat) (k : Kont) :
  attending w -> cid <> cid0 -> In (cid, k) (pending w) -> kont_isolated l tid0 k.
Proof.
  intros [_ _ [_ _ _ _ _ H6] _] Hne Hin.
  rewrite Forall_forall in H6. by apply (H6 (cid, k)); [apply list_elem_of_In|].
Qed.

(** *** The operations on other subjects, timers and calls *)

Ltac att_facts :=
  repeat match goal with
         | Hw : attending ?w, E : _socket (conn ?w) = Some ?sock |- _ =>
             lazymatch goal with
             | _ : c <= closeCalls sock |- _ => fail
             | _ => pose proof (att_socket w sock Hw E)
             end
         end.

Ltac att_side :=
  simpl; att_facts;
  first
    [ done
    | lia
    | congruence
    | by intros []
    | solve [eauto using att_fresh_subject, att_fresh_observer, att_fresh_timer,
               att_elsewhere, att_subscription, att_syncedSubscription,
               att_atomUpdateSubject]
    | let Hin := fresh "Hin" in
      intros Hin; rewrite ?in_app_iff in Hin; simpl in Hin;
      repeat match goal with
             | Hor : _ \/ _ |- _ => destruct Hor
             | Hf : False |- _ => destruct Hf
             end;
      first [ eapply att_fresh_observer; [|eassumption]; eassumption
            | eapply att_elsewhere; [| |eassumption|eassumption]; [eassumption|done] ]
    | intros ? ? [= <- <-]; split; first [by eapply att_fresh_timer | by eapply att_fresh_subject | done]
    | by intros ? ? [=] ].

Ltac att_modify :=
  let w := fresh "w" in
  let Hw := fresh "Hw" in
  intros w Hw;
  first
    [ apply att_write_subject; [exact Hw|att_side..]
    | apply att_notify; [exact Hw|att_side]
    | apply att_new_subject; [exact Hw|reflexivity]
    | apply att_armed; [exact Hw|att_side]
    | apply att_cleared; [exact Hw|att_side]
    | apply att_pending_more; [exact Hw|att_side]
    | apply att_pending_less; exact Hw
    | apply att_set_subscriptions; [exact Hw|att_side]
    | apply att_set_syncedSubscriptions; [exact Hw|att_side]
    | apply att_set_atomUpdateSubjects; [exact Hw|att_side]
    | apply att_set_socket; [exact Hw|att_side]
    | eapply att_frame;
        [exact Hw|simpl; rewrite ?length_app; simpl; first [reflexivity|lia]..] ].

Ltac att_step known :=
  keep_clean;
  first
    [ known
    | match goal with
      | |- keeps _ (read_subject _) _ => keep_leaf ltac:(apply keeps_read_subject) att_side
      | |- keeps _ the_socket _ => keep_leaf ltac:(apply keeps_the_socket) att_side
      | |- keeps _ (ret _) _ => keep_leaf ltac:(apply keeps_ret) att_side
      | |- keeps _ (throw _) _ => apply keeps_throw
      | |- keeps _ (gets _) _ => keep_leaf ltac:(apply keeps_gets) att_side
      | |- keeps _ (defined _) _ => keep_leaf ltac:(apply keeps_defined) att_side
      | |- keeps _ (lift_completion _) _ => keep_leaf ltac:(apply keeps_lift_completion) att_side
      | |- keeps _ (modify _) _ => keep_leaf ltac:(apply keeps_modify; att_modify) att_side
      | |- keeps _ (bind _ _) _ => keep_any_result; eapply keeps_bind; [|intros ? ?]
      | |- keeps _ (try_catch _ _) _ => keep_any_result; apply keeps_try_catch; [|intros ?]
      | |- keeps _ (for_each _ _) _ => keep_any_result; apply keeps_for_each; intros ?
      | |- keeps _ (for_each_indexed _ _ _) _ =>
          keep_any_result; apply keeps_for_each_indexed; intros ? ?
      | |- keeps _ (if ?b then _ else _) _ => keep_any_result; destruct b eqn:?
      | |- keeps _ (match ?x with _ => _ end) _ => keep_any_result; destruct x eqn:?
      end ].

Ltac att_primitive :=
  unfold next, error, complete, unsubscribe_subject, subscribe_observer,
    write_subject, notify, new_subject, set_timer, clear_timer,
    socket_call, take_pending;
  repeat att_step ltac:(idtac; fail).

Lemma next_attended (l' : nat) (v : StreamVal) :
  l' <> l -> keeps attending (next l' v) (fun _ => True).
Proof. intros Hne. att_primitive. Qed.

Lemma error_attended (l' : nat) (err : JsVal) :
  l' <> l -> keeps attending (error l' err) (fun _ => True).
Proof. intros Hne. att_primitive. Qed.

Lemma complete_attended (l' : nat) :
  l' <> l -> keeps attending (complete l') (fun _ => True).
Proof. intros Hne. att_primitive. Qed.

Lemma unsubscribe_subject_attended (l' : nat) :
  l' <> l -> keeps attending (unsubscribe_subject l') (fun _ => True).
Proof. intros Hne. att_primitive. Qed.

Lemma subscribe_observer_attended (l' : nat) :
  l' <> l -> keeps attending (subscribe_observer l') (fun _ => True).
Proof. intros Hne. att_primitive. Qed.

Lemma new_subject_attended (v : option StreamVal) :
  keeps attending (new_subject v) (fun l' => l' <> l).
Proof. att_primitive. Qed.

Lemma set_timer_attended (delay : N) (per : option N) (a : TimerAction) :
  a <> SubmitTimeout l ->
  keeps attending (set_timer delay per a) (fun id => id <> tid0).
Proof. intros Ha. att_primitive. Qed.

Lemma clear_timer_attended (id : option nat) :
  id <> Some tid0 -> keeps attending (clear_timer id) (fun _ => True).
Proof. intros Hid. att_primitive. Qed.

Lemma socket_call_attended (method : string) (params : JsVal) (k : Kont) :
  kont_isolated l tid0 k ->
  keeps attending (socket_call method params k) (fun _ => True).
Proof. intros Hk. att_primitive. Qed.

Lemma take_pending_attended (cid : nat) :
  cid <> cid0 ->
  keeps attending (take_pending cid)
    (fun k => forall k', k = Some k' -> kont_isolated l tid0 k').
Proof.
  intros Hne. att_primitive.
  eapply keeps_weaken; [apply keeps_ret|]. intros k -> k' Ek.
  destruct (filter (fun e : nat * Kont => e.1 = cid) (pending w0)) as [|e es] eqn:Ef;
    simpl in Ek; [done|]. injection Ek as <-.
  assert (Hin : e ∈ filter (fun e : nat * Kont => e.1 = cid) (pending w0))
    by (rewrite Ef; by left).
  apply list_elem_of_filter in Hin as [<- Hin]. destruct e as [cid k].
  eapply att_pending_kont; [exact Hw0|exact Hne|]. by apply list_elem_of_In.
Qed.

(** *** The handlers of other events *)

Ltac att_known :=
  match goal with
  | |- keeps _ (next _ _) _ => keep_leaf ltac:(apply next_attended; att_side) att_side
  | |- keeps _ (error _ _) _ => keep_leaf ltac:(apply error_attended; att_side) att_side
  | |- keeps _ (complete _) _ => keep_leaf ltac:(apply complete_attended; att_side) att_side
  | |- keeps _ (unsubscribe_subject _) _ =>
      keep_leaf ltac:(apply unsubscribe_subject_attended; att_side) att_side
  | |- keeps _ (subscribe_observer _) _ =>
      keep_leaf ltac:(apply subscribe_observer_attended; att_side) att_side
  | |- keeps _ (new_subject _) _ => keep_leaf ltac:(apply new_subject_attended) att_side
  | |- keeps _ (set_timer _ _ _) _ =>
      keep_leaf ltac:(apply set_timer_attended; att_side) att_side
  | |- keeps _ (clear_timer _) _ =>
      keep_leaf ltac:(apply clear_timer_attended; att_side) att_side
  | |- keeps _ (socket_call _ _ _) _ =>
      keep_leaf ltac:(apply socket_call_attended; att_side) att_side
  | |- keeps _ (take_pending _) _ =>
      keep_leaf ltac:(apply take_pending_attended; att_side) att_side
  | |- keeps _ (fromJSON_atoms _) _ =>
      keep_any_result; apply preserves_keeps, fromJSON_atoms_pure
  end.

Ltac att_unfold :=
  unfold on_open_timeout, on_submit_timeout, ping, isReady, on_socket_open,
    on_socket_error, subscribe, unsubscribe, unsubscribeAll, isSynced,
    submitAtom, getAtomById, close, _onAtomSubmissionStateUpdate,
    _onAtomReceivedNotification, check_hid, set_ready, getSubscriberId,
    socket_close, emit, resolve, reject, settle, notify_all,
    settle_one, Promise_all, new_promise, setTimeout, setInterval, clearTimeout,
    clearInterval, lookup_optional_key.

Ltac att_steps_with known :=
  repeat first [att_step ltac:(idtac; known) | progress att_unfold].

Ltac att_steps := att_steps_with ltac:(idtac; att_known).

Lemma settle_attended (p : nat) (r : Settled) :
  keeps attending (settle p r) (fun _ => True).
Proof. att_steps. Qed.

Lemma on_settled_attended (k : Kont) (r : Completion JsVal) :
  kont_isolated l tid0 k -> keeps attending (on_settled k r) (fun _ => True).
Proof.
  intros Hk. destruct k as [|address sid|address sid p|t l'|p]; unfold on_settled.
  4: destruct (Hk t l' eq_refl) as [Ht Hl'].
  all: att_steps.
Qed.

Lemma unsubscribe_each_attended (addresses : list string) :
  keeps attending (unsubscribe_each addresses) (fun _ => True).
Proof.
  induction addresses as [|address rest IH]; simpl.
  - att_steps.
  - eapply keeps_bind; [|intros p _].
    { keep_any_result. att_steps. }
    eapply keeps_bind; [exact IH|intros ps _]. att_steps.
Qed.

Lemma run_callback_attended (a : TimerAction) :
  a <> SubmitTimeout l -> keeps attending (run_callback a) (fun _ => True).
Proof.
  intros Ha. destruct a as [p|l'|]; unfold run_callback.
  2: assert (l' <> l) by congruence.
  all: att_steps.
Qed.

Ltac att_known_handlers :=
  first
    [ att_known
    | match goal with
      | |- keeps _ (on_settled _ _) _ =>
          keep_any_result; apply on_settled_attended; att_side
      | |- keeps _ (unsubscribe_each _) _ =>
          keep_any_result; apply unsubscribe_each_attended
      end ].

Lemma att_other_key (id0 n : N) : key = key_of id0 -> n <> id0 -> key_of n <> key.
Proof. intros Hkey Hn E. apply Hn. rewrite Hkey in E. by apply (inj pretty). Qed.

Lemma handle_attended (id0 : N) (ev : Event) :
  key = key_of id0 -> unrelated id0 cid0 l ev ->
  keeps attending (handle ev) (fun _ => True).
Proof.
  intros Hkey Hev. destruct ev; simpl in Hev; try done; unfold handle.
  all: try (apply (att_other_key id0 _ Hkey) in Hev).
  all: clear Hkey; att_steps_with ltac:(idtac; att_known_handlers).
Qed.

End Window.

(** ** The timeout of a submission that nothing answers *)

Section Own.

Variables (l o tid0 cid0 : nat) (key : string).

Local Abbreviation attending := (attended l o tid0 cid0 key).

Lemma task_attended (s : Subject) (seen : list Notif) (g : list Timer) (c : nat)
    (m : M unit) (w : World) :
  attending s seen g c (exec m w) -> attending s seen g c (task m w).
Proof.
  unfold task, exec. destruct (m w) as [[[]|e] w']; simpl; [done|].
  intros Hw. eapply att_frame; eauto.
Qed.

(** *** What happens to the stream itself *)

Lemma att_write_own (s s' : Subject) (seen : list Notif) (g : list Timer) (c : nat)
    (w : World) :
  attending s seen g c w ->
  attending s' seen g c (set_subjects (fun hp => <[l := s']> hp) w).
Proof.
  intros [[H1 H2 H3 H4 H5] Hg Hiso Hc].
  assert (Hlt : l < length (subjects w)) by (by eapply lookup_lt_Some).
  constructor; [constructor; simpl; auto|done| |done].
  - by rewrite list_lookup_insert_eq.
  - intros l' s'' Hne Hl'. rewrite list_lookup_insert_ne in Hl' by done.
    by eapply H3.
  - eapply isolated_frame; eauto; simpl; rewrite ?length_insert; auto; apply Hiso.
Qed.

Lemma att_notify_own (s : Subject) (seen : list Notif) (g : list Timer) (c : nat)
    (os : list nat) (n : Notif) (w : World) :
  attending s seen g c w -> In o os -> List.NoDup os ->
  attending s (seen ++ [n]) g c (set_trace (fun t => t ++ deliveries os n) w).
Proof.
  intros [[H1 H2 H3 H4 H5] Hg Hiso Hc] Ho Hnd.
  constructor; [constructor; simpl; auto|done| |done].
  - by rewrite observed_app, H2, deliveries_once.
  - eapply isolated_frame; eauto; apply Hiso.
Qed.

Lemma next_own_live (s : Subject) (seen : list Notif) (g : list Timer) (c : nat)
    (v : StreamVal) (w : World) :
  attending s seen g c w -> observing o s ->
  exists s', observing o s'
    /\ attending s' (seen ++ [Next v]) g c (exec (next l v) w).
Proof.
  intros Hw [Hc Hs He Ho Hnd].
  pose proof (watched_subject _ _ _ _ _ _ (att_watched _ _ _ _ _ _ _ _ _ _ Hw)) as Hl.
  destruct (_value s) as [v0|] eqn:Ev.
  - exists (with_value s (Some v)). split; [by constructor|].
    unfold exec. rewrite (next_behavior_live l v v0 w s) by done. simpl.
    apply att_notify_own; [|done..]. by eapply att_write_own.
  - exists s. split; [by constructor|].
    unfold exec. rewrite (next_plain_live l v w s) by done. simpl.
    by apply att_notify_own.
Qed.

Lemma next_own_stopped (s : Subject) (seen : list Notif) (g : list Timer) (c : nat)
    (v : StreamVal) (w : World) :
  attending s seen g c w -> expired s ->
  exists s', expired s' /\ attending s' seen g c (exec (next l v) w).
Proof.
  intros Hw [Hc Hs He Ht Ho].
  pose proof (watched_subject _ _ _ _ _ _ (att_watched _ _ _ _ _ _ _ _ _ _ Hw)) as Hl.
  assert (Hlt : l < length (subjects w)) by (by eapply lookup_lt_Some).
  unfold exec, next, read_subject, write_subject, bind, gets, modify, defined.
  rewrite Hl. simpl. destruct (_value s) as [v0|] eqn:Ev; simpl.
  - rewrite list_lookup_insert_eq by done. simpl. rewrite Hc, Hs. simpl.
    exists (with_value s (Some v)). split; [by constructor|]. by eapply att_write_own.
  - rewrite Hl. simpl. rewrite Hc, Hs. simpl. exists s. split; [by constructor|done].
Qed.

Lemma subscribe_observer_own_live (s : Subject) (seen : list Notif) (g : list Timer)
    (c : nat) (w : World) :
  attending s seen g c w -> observing o s ->
  Forall (fun x => x < observerCount w) (observers s) ->
  exists s', observing o s'
    /\ attending s' seen g c (exec (subscribe_observer l) w).
Proof.
  intros Hw [Hc Hs He Ho Hnd] Hfresh.
  pose proof (watched_subject _ _ _ _ _ _ (att_watched _ _ _ _ _ _ _ _ _ _ Hw)) as Hl.
  pose proof (att_fresh_observer _ _ _ _ _ _ _ _ _ _ Hw) as Hne.
  unfold exec. rewrite (subscribe_observer_live l w s) by done. simpl.
  set (s' := {| closed := closed s; isStopped := isStopped s; hasError := hasError s;
                thrownError := thrownError s;
                observers := observers s ++ [observerCount w]; _value := _value s |}).
  assert (Hs' : attending s' seen g c
                  (set_subjects (fun hp => <[l := s']> hp) (set_observerCount S w))).
  { eapply att_write_own, att_frame; eauto. simpl. lia. }
  exists s'. split.
  - constructor; simpl; auto.
    + apply in_app_iff. by left.
    + apply NoDup_ListNoDup, NoDup_app. split; [by apply NoDup_ListNoDup|].
      split; [|apply NoDup_singleton].
      intros x Hx ->%list_elem_of_singleton.
      rewrite Forall_forall in Hfresh. specialize (Hfresh _ Hx). lia.
  - destruct (_value s) as [v|].
    + apply (att_notify _ _ _ _ _ _ _ _ _ _ [observerCount w] (Next v) Hs').
      intros [E|[]]. by apply Hne.
    + eapply att_frame; eauto. simpl. by rewrite app_nil_r.
Qed.

Lemma subscribe_observer_own_stopped (s : Subject) (seen : list Notif) (g : list Timer)
    (c : nat) (w : World) :
  attending s seen g c w -> expired s ->
  attending s seen g c (exec (subscribe_observer l) w).
Proof.
  intros Hw [Hc Hs He Ht Ho].
  pose proof (watched_subject _ _ _ _ _ _ (att_watched _ _ _ _ _ _ _ _ _ _ Hw)) as Hl.
  pose proof (att_fresh_observer _ _ _ _ _ _ _ _ _ _ Hw) as Hne.
  unfold exec, subscribe_observer, read_subject, notify, bind, gets, modify, defined, ret.
  simpl. rewrite Hl. simpl. rewrite Hc, He. simpl.
  apply (att_notify _ _ _ _ _ _ _ _ _ (set_observerCount S w) [observerCount w]
           (Error (thrownError s))).
  - eapply att_frame; eauto. simpl. lia.
  - intros [E|[]]. by apply Hne.
Qed.

End Own.

(** *** One event *)

Lemma nonterminal_update (n : AtomSubmissionStateUpdateNotification) (w : World) :
  ~ In (value n) ("STORED" :: failure_states) ->
  exec (_onAtomSubmissionStateUpdate n) w =
    if String.eqb (value n) "SUBMITTING" || String.eqb (value n) "SUBMITTED" then
      match js_get (key_of (subscriberId n)) (_atomUpdateSubjects (conn w)) with
      | Some l' => exec (next l' (SVState (value n))) w
      | None => w
      end
    else w.
Proof.
  intros Hn. unfold _onAtomSubmissionStateUpdate. rewrite exec_bind.
  unfold gets at 1. cbv zeta.
  destruct (String.eqb (value n) "SUBMITTING" || String.eqb (value n) "SUBMITTED").
  - rewrite exec_bind.
    by destruct (js_get (key_of (subscriberId n)) (_atomUpdateSubjects (conn w))).
  - repeat match goal with
    | |- context [String.eqb (value n) ?c] =>
        destruct (String.eqb_spec (value n) c) as [E|_];
        [exfalso; apply Hn; rewrite E; vm_compute; tauto|]
    end.
    reflexivity.
Qed.

Lemma exec_handle_update (n : AtomSubmissionStateUpdateNotification) (w : World)
    (sock : Socket) :
  _socket (conn w) = Some sock ->
  exec (handle (AtomSubmissionStateOnNext n)) w
  = if listening sock then exec (_onAtomSubmissionStateUpdate n) w else w.
Proof.
  intros Hs. unfold handle. rewrite exec_bind. unfold gets at 1. rewrite Hs.
  by destruct (listening sock).
Qed.

Lemma exec_handle_observe (l : nat) (w : World) :
  exec (handle (CallObserve l)) w = exec (subscribe_observer l) w.
Proof.
  unfold handle. rewrite exec_bind. unfold exec.
  by destruct (subscribe_observer l w) as [[a|e] w'].
Qed.

Section Unanswered.

Variables (l o tid0 cid0 : nat) (id0 : N).

Local Abbreviation attending := (attended l o tid0 cid0 (key_of id0)).
Local Abbreviation waiting_for := (waiting l o tid0 cid0 (key_of id0)).
Local Abbreviation timed_out_at := (timed_out l o tid0 cid0 (key_of id0)).

Lemma step_attended (s : Subject) (seen : list Notif) (g : list Timer) (c : nat)
    (ev : Event) (w : World) :
  unrelated id0 cid0 l ev ->
  attending s seen g c w -> attending s seen g c (step ev w).
Proof.
  intros Hev Hw. unfold step. apply task_attended.
  eapply keeps_preserves; [eapply handle_attended; eauto|done].
Qed.

Lemma handed_app (reports : list string) (v : string) :
  handed (reports ++ [v]) = handed reports ++ [Next (SVState v)].
Proof. unfold handed. by rewrite map_app. Qed.

(** A report of progress for the submission reaches the stream when the
    socket is listening. *)
Lemma own_update_waiting (n : AtomSubmissionStateUpdateNotification) (tm0 : Timer)
    (c : nat) (reports : list string) (w : World) :
  subscriberId n = id0 ->
  ~ In (value n) ("STORED" :: failure_states) ->
  waiting_for tm0 c reports w ->
  exists r, r `sublist_of` own_report id0 (AtomSubmissionStateOnNext n)
    /\ waiting_for tm0 c (reports ++ r) (step (AtomSubmissionStateOnNext n) w).
Proof.
  intros Hid Hv (s & Hobs & Hatt).
  assert (Hnone : waiting_for tm0 c (reports ++ []) w)
    by (rewrite app_nil_r; by exists s).
  destruct (watched_socket _ _ _ _ _ _ (att_watched _ _ _ _ _ _ _ _ _ _ Hatt))
    as [sock Hsock].
  assert (Hexec : exists r, r `sublist_of` own_report id0 (AtomSubmissionStateOnNext n)
            /\ waiting_for tm0 c (reports ++ r)
                 (exec (handle (AtomSubmissionStateOnNext n)) w)).
  { rewrite (exec_handle_update n w sock Hsock).
    destruct (listening sock); [|exists []; split; [apply sublist_nil_l|done]].
    rewrite nonterminal_update by done. simpl.
    destruct (decide (subscriberId n = id0)) as [_|]; [|done].
    destruct (String.eqb (value n) "SUBMITTING" || String.eqb (value n) "SUBMITTED");
      [|by exists []].
    destruct (js_get (key_of (subscriberId n)) (_atomUpdateSubjects (conn w)))
      as [l'|]; [|exists []; split; [apply sublist_nil_l|done]].
    destruct (decide (l' = l)) as [->|Hne].
    - exists [value n]. split; [done|].
      destruct (next_own_live _ _ _ _ _ _ _ _ _ (SVState (value n)) w Hatt Hobs)
        as (s' & Hobs' & Hatt').
      exists s'. split; [done|]. by rewrite handed_app.
    - exists []. split; [apply sublist_nil_l|]. rewrite app_nil_r.
      exists s. split; [done|].
      eapply keeps_preserves; [by eapply next_attended|done]. }
  destruct Hexec as (r & Hr & s' & Hobs' & Hatt').
  exists r. split; [done|]. exists s'. split; [done|]. by apply task_attended.
Qed.

Lemma own_update_timed_out (n : AtomSubmissionStateUpdateNotification)
    (c : nat) (reports : list string) (w : World) :
  ~ In (value n) ("STORED" :: failure_states) ->
  timed_out_at c reports w ->
  timed_out_at c reports (step (AtomSubmissionStateOnNext n) w).
Proof.
  intros Hv (s & Hexp & Hatt).
  destruct (watched_socket _ _ _ _ _ _ (att_watched _ _ _ _ _ _ _ _ _ _ Hatt))
    as [sock Hsock].
  assert (Hexec : timed_out_at c reports (exec (handle (AtomSubmissionStateOnNext n)) w)).
  { rewrite (exec_handle_update n w sock Hsock).
    destruct (listening sock); [|by exists s].
    rewrite nonterminal_update by done.
    destruct (String.eqb (value n) "SUBMITTING" || String.eqb (value n) "SUBMITTED");
      [|by exists s].
    destruct (js_get (key_of (subscriberId n)) (_atomUpdateSubjects (conn w)))
      as [l'|]; [|by exists s].
    destruct (decide (l' = l)) as [->|Hne].
    - eapply next_own_stopped; eauto.
    - exists s. split; [done|].
      eapply keeps_preserves; [by eapply next_attended|done]. }
  destruct Hexec as (s' & Hexp' & Hatt').
  exists s'. split; [done|]. by apply task_attended.
Qed.

Lemma observe_own_waiting (tm0 : Timer) (c : nat) (reports : list string) (w : World) :
  well_formed w ->
  waiting_for tm0 c reports w -> waiting_for tm0 c reports (step (CallObserve l) w).
Proof.
  intros Hwf (s & Hobs & Hatt).
  pose proof (watched_subject _ _ _ _ _ _ (att_watched _ _ _ _ _ _ _ _ _ _ Hatt)) as Hl.
  destruct (subscribe_observer_own_live _ _ _ _ _ _ _ _ _ w Hatt Hobs)
    as (s' & Hobs' & Hatt'); [by eapply wf_observers_of|].
  exists s'. split; [done|]. apply task_attended. by rewrite exec_handle_observe.
Qed.

Lemma observe_own_timed_out (c : nat) (reports : list string) (w : World) :
  timed_out_at c reports w -> timed_out_at c reports (step (CallObserve l) w).
Proof.
  intros (s & Hexp & Hatt). exists s. split; [done|].
  apply task_attended. rewrite exec_handle_observe.
  by apply subscribe_observer_own_stopped.
Qed.

(** An event that does not answer the submission leaves it waiting; the
    subscriber is handed at most the progress that the event reports. *)
Lemma step_waiting (ev : Event) (tm0 : Timer) (c : nat) (reports : list string)
    (w : World) :
  well_formed w -> unanswering id0 cid0 l ev ->
  waiting_for tm0 c reports w ->
  exists r, r `sublist_of` own_report id0 ev
    /\ waiting_for tm0 c (reports ++ r) (step ev w).
Proof.
  intros Hwf Hev Hw.
  assert (Hother : unrelated id0 cid0 l ev ->
            exists r, r `sublist_of` own_report id0 ev
              /\ waiting_for tm0 c (reports ++ r) (step ev w)).
  { intros Hun. exists []. split; [apply sublist_nil_l|]. rewrite app_nil_r.
    destruct Hw as (s & Hobs & Hatt). exists s. split; [done|].
    by apply step_attended. }
  destruct ev as [| |err|call r|n|n| |address|address| |a|id| |l'|l'];
    simpl in Hev; try done; try (by apply Hother).
  - destruct (decide (subscriberId n = id0)) as [E|Hne]; [|by apply Hother].
    apply own_update_waiting; auto.
  - destruct (decide (l' = l)) as [->|Hne]; [|by apply Hother].
    exists []. split; [apply sublist_nil_l|]. rewrite app_nil_r.
    by apply observe_own_waiting.
Qed.

Lemma step_timed_out (ev : Event) (c : nat) (reports : list string) (w : World) :
  unanswering id0 cid0 l ev ->
  timed_out_at c reports w -> timed_out_at c reports (step ev w).
Proof.
  intros Hev Hw.
  assert (Hother : unrelated id0 cid0 l ev -> timed_out_at c reports (step ev w)).
  { intros Hun. destruct Hw as (s & Hexp & Hatt). exists s. split; [done|].
    by apply step_attended. }
  destruct ev as [| |err|call r|n|n| |address|address| |a|id| |l'|l'];
    simpl in Hev; try done; try (by apply Hother).
  - destruct (decide (subscriberId n = id0)) as [E|Hne]; [|by apply Hother].
    apply own_update_timed_out; auto.
  - destruct (decide (l' = l)) as [->|Hne]; [|by apply Hother].
    by apply observe_own_timed_out.
Qed.

End Unanswered.

(** *** The clock and the events of a window *)

Section Window.

Variables (l o tid0 cid0 : nat) (id0 : N).

Local Abbreviation attending := (attended l o tid0 cid0 (key_of id0)).
Local Abbreviation waiting_for := (waiting l o tid0 cid0 (key_of id0)).
Local Abbreviation timed_out_at := (timed_out l o tid0 cid0 (key_of id0)).

Lemma set_now_attended (s : Subject) (seen : list Notif) (g : list Timer) (c : nat)
    (f : N -> N) (w : World) :
  attending s seen g c w -> attending s seen g c (set_now f w).
Proof. intros Hw. eapply att_frame; eauto. Qed.

Lemma advance_waiting (tm0 : Timer) (c : nat) (reports : list string) (t : N)
    (w : World) :
  waiting_for tm0 c reports w -> well_formed w -> (t < due tm0)%N ->
  waiting_for tm0 c reports (advance t w).
Proof.
  intros (s & Hobs & [Hwa Hg Hiso Hc]) Hwf Ht. exists s. split; [done|].
  apply set_now_attended. constructor.
  - apply run_timers_before_guard; [done|apply Hwf|done].
  - done.
  - by apply run_timers_isolated.
  - by apply run_timers_close_count.
Qed.

Lemma advance_expires (tm0 : Timer) (c : nat) (reports : list string) (t : N)
    (w : World) :
  waiting_for tm0 c reports w -> well_formed w ->
  (due tm0 <= t)%N -> period tm0 = None ->
  timed_out_at (S c) reports (advance t w).
Proof.
  intros (s & [Hcl Hs He Ho Hnd] & [Hwa Hg Hiso Hc]) Hwf Ht Hp.
  exists (failed_subject s socket_timeout). split; [by constructor|].
  apply set_now_attended.
  destruct (run_timers_fires_guard l o c s (handed reports) tm0 t
              (firings t (timers w)) w)
    as [Hwa' Hc']; auto; try apply Hwf.
  constructor; [done|constructor|by apply run_timers_isolated|done].
Qed.

Lemma advance_timed_out (c : nat) (reports : list string) (t : N) (w : World) :
  timed_out_at c reports w -> well_formed w ->
  timed_out_at c reports (advance t w).
Proof.
  intros (s & Hexp & [Hwa Hg Hiso Hc]) Hwf. exists s. split; [done|].
  apply set_now_attended.
  destruct (run_timers_settled l o c s (handed reports ++ [Error socket_timeout]) t
              (firings t (timers w)) w) as [Hwa' Hc']; auto; try apply Hwf.
  constructor; [done|done|by apply run_timers_isolated|done].
Qed.

(** Once the timeout has fired, the events leave the failed stream as it
    is. *)
Lemma run_timed_out (c : nat) (reports : list string)
    (evs : list (N * Event)) (w : World) :
  Forall (fun te => unanswering id0 cid0 l te.2) evs ->
  timed_out_at c reports w -> well_formed w ->
  timed_out_at c reports (run evs w).
Proof.
  intros Hevs. revert w. induction Hevs as [|te evs Hte _ IH]; intros w Hw Hwf; [done|].
  simpl. apply IH; [|by apply deliver_well_formed].
  unfold deliver. apply step_timed_out; [done|]. by apply advance_timed_out.
Qed.

(** While the timeout is not due, the submission keeps waiting. *)
Lemma run_waiting (tm0 : Timer) (c : nat) (evs : list (N * Event))
    (reports : list string) (w : World) :
  Forall (fun te => unanswering id0 cid0 l te.2) evs ->
  Forall (fun te => (te.1 < due tm0)%N) evs ->
  waiting_for tm0 c reports w -> well_formed w ->
  exists r, r `sublist_of` own_reports id0 evs
    /\ waiting_for tm0 c (reports ++ r) (run evs w).
Proof.
  intros Hevs. revert reports w.
  induction Hevs as [|te evs Hte _ IH]; intros reports w Hts Hw Hwf.
  { exists []. split; [done|]. by rewrite app_nil_r. }
  inversion Hts as [|? ? Ht Hts']; subst.
  destruct (step_waiting l o tid0 cid0 id0 te.2 tm0 c reports (advance te.1 w))
    as (r1 & Hr1 & Hw1); [by apply advance_well_formed|done|by apply advance_waiting|].
  destruct (IH (reports ++ r1) (deliver te w) Hts' Hw1) as (r2 & Hr2 & Hw2);
    [by apply deliver_well_formed|].
  exists (r1 ++ r2). split; [by apply sublist_app|].
  simpl. by rewrite app_assoc.
Qed.

(** Whenever the events come, the submission is waiting or has timed out. *)
Lemma run_answerless (tm0 : Timer) (c : nat) (evs : list (N * Event))
    (reports : list string) (w : World) :
  Forall (fun te => unanswering id0 cid0 l te.2) evs ->
  waiting_for tm0 c reports w -> well_formed w -> period tm0 = None ->
  exists r, r `sublist_of` own_reports id0 evs
    /\ (waiting_for tm0 c (reports ++ r) (run evs w)
        \/ timed_out_at (S c) (reports ++ r) (run evs w)).
Proof.
  intros Hevs. revert reports w.
  induction Hevs as [|te evs Hte Hevs IH]; intros reports w Hw Hwf Hp.
  { exists []. split; [done|]. left. by rewrite app_nil_r. }
  destruct (N.ltb_spec te.1 (due tm0)) as [Ht|Ht].
  - destruct (step_waiting l o tid0 cid0 id0 te.2 tm0 c reports (advance te.1 w))
      as (r1 & Hr1 & Hw1); [by apply advance_well_formed|done|by apply advance_waiting|].
    destruct (IH (reports ++ r1) (deliver te w) Hw1) as (r2 & Hr2 & Hw2);
      [by apply deliver_well_formed|done|].
    exists (r1 ++ r2). split; [by apply sublist_app|].
    simpl. by rewrite app_assoc.
  - exists []. split; [apply sublist_nil_l|]. right. rewrite app_nil_r. simpl.
    apply run_timed_out; [done| |by apply deliver_well_formed].
    unfold deliver. apply step_timed_out; [done|]. by apply (advance_expires tm0).
Qed.

End Window.

(** The stream of an atom just submitted, with the caller subscribed to it,
    is apart from everything that was there before. *)
Lemma submitted_is_isolated (a : Atom) (w : World) (sock : Socket) :
  well_formed w ->
  _socket (conn w) = Some sock ->
  isolated (length (subjects w)) (observerCount w) (timerCount w) (length (outbox w))
    (key_of (lastSubscriberId (conn w) + 1))
    (step (CallObserve (length (subjects w))) (step (CallSubmitAtom a) w)).
Proof.
  intros Hwf Hsock.
  rewrite (step_submitAtom a w sock Hsock).
  rewrite (step_observe_live _ (after_submitAtom a w) created_subject);
    [|by apply list_lookup_middle|done..].
  destruct Hwf as [Hids Hdist Hper Hsub Hobs Htr Hpend Hpsub Hs1 Hs2 Hs3].
  constructor; simpl; rewrite ?length_insert, ?length_app; simpl; try lia.
  - constructor; simpl.
    + eapply Forall_impl; [exact Hs1|]. simpl. intros; lia.
    + eapply Forall_impl; [exact Hs3|]. simpl. intros; lia.
    + apply Forall_js_set; [|done].
      eapply Forall_impl; [exact Hs2|]. simpl. intros; lia.
  - apply Forall_app. split.
    + rewrite Forall_forall in Hpsub. apply Forall_forall. intros e He _ t l' Ek.
      destruct (Hpsub e He t l' Ek). lia.
    + constructor; [|constructor]. simpl. intros Hne. by destruct Hne.
Qed.

(** C4: an atom is submitted on a connection that has a socket and the caller
    subscribes to the state stream.  Events that do not answer the
    submission may follow: its remote call does not settle, the node does
    not report the atom stored or refused, the socket is neither closed nor
    replaced and the stream is not unsubscribed; other calls, notifications
    and timers, and reports of progress for this submission, are allowed.
    Then once the clock has gone 5000 ms further the stream has failed with
    the timeout error: the subscriber has been handed the initial value,
    some of the progress that was reported, in order, and then the timeout
    error, and [close()] has been called on the socket once more.  As long
    as the clock has not gone that far, the stream runs. *)
Theorem unanswered_submission_times_out
    (a : Atom) (w : World) (sock : Socket) (evs : list (N * Event)) (t : N) :
  well_formed w ->
  _socket (conn w) = Some sock ->
  let atomStateSubject := length (subjects w) in
  let subscriber := observerCount w in
  let id := (lastSubscriberId (conn w) + 1)%N in
  let submitted := step (CallObserve atomStateSubject) (step (CallSubmitAtom a) w) in
  Forall (fun te => unanswering id (length (outbox w)) atomStateSubject te.2) evs ->
  let final := advance t (run evs submitted) in
  ((now w + 5000 <= t)%N ->
     exists reports s,
       reports `sublist_of` own_reports id evs
       /\ observed subscriber final = handed reports ++ [Error socket_timeout]
       /\ subjects final !! atomStateSubject = Some s
       /\ isStopped s = true /\ hasError s = true
       /\ thrownError s = socket_timeout /\ observers s = []
       /\ close_count (S (closeCalls sock)) final)
  /\ ((t < now w + 5000)%N ->
      Forall (fun te => (te.1 < now w + 5000)%N) evs ->
      exists reports s,
        reports `sublist_of` own_reports id evs
        /\ observed subscriber final = handed reports
        /\ subjects final !! atomStateSubject = Some s
        /\ isStopped s = false /\ hasError s = false).
Proof.
  intros Hwf Hsock l o id w2 Hevs final.
  destruct (submitted_is_watched a w sock Hwf Hsock) as (Hw & Hc & Hnd & Hper).
  pose proof (submitted_is_isolated a w sock Hwf Hsock) as Hiso.
  fold l o id w2 in Hw, Hc, Hnd, Hper, Hiso.
  assert (Hwf2 : well_formed w2) by (by apply step_well_formed, step_well_formed).
  set (tm0 := {| tid := timerCount w; due := (now w + 5000)%N; period := None;
                 callback := SubmitTimeout l |}) in *.
  assert (Hwait : waiting l o (timerCount w) (length (outbox w)) (key_of id) tm0
                    (closeCalls sock) [] w2).
  { exists (created_stream o). split.
    - constructor; simpl; auto. repeat constructor. by intros [].
    - constructor; [exact Hw| |exact Hiso|exact Hc]. by repeat constructor. }
  assert (Hwfr : well_formed (run evs w2)) by (by apply run_well_formed).
  split.
  - intros Ht.
    destruct (run_answerless l o _ _ id tm0 _ evs [] w2 Hevs Hwait Hwf2 eq_refl)
      as (reports & Hsub & Hphase). simpl in Hphase.
    assert (Hout : timed_out l o (timerCount w) (length (outbox w)) (key_of id)
                     (S (closeCalls sock)) reports final).
    { destruct Hphase as [Hlive|Hdead].
      - by apply (advance_expires _ _ _ _ _ tm0).
      - by apply advance_timed_out. }
    destruct Hout as (s & [H1 H2 H3 H4 H5] & [Hwa _ _ Hcc]).
    exists reports, s. split; [done|].
    split; [apply (watched_seen _ _ _ _ _ _ Hwa)|].
    split; [apply (watched_subject _ _ _ _ _ _ Hwa)|]. done.
  - intros Ht Hts.
    destruct (run_waiting l o _ _ id tm0 _ evs [] w2 Hevs Hts Hwait Hwf2)
      as (reports & Hsub & Hlive). simpl in Hlive.
    apply (advance_waiting _ _ _ _ _ _ _ _ t) in Hlive; [|done..].
    destruct Hlive as (s & [H1 H2 H3 H4 H5] & [Hwa _ _ _]).
    exists reports, s. split; [done|].
    split; [apply (watched_seen _ _ _ _ _ _ Hwa)|].
    split; [apply (watched_subject _ _ _ _ _ _ Hwa)|]. done.
Qed.

(** ** Promises and unsubscription *)

Lemma only_promises_refl (w : World) : only_promises w w.
Proof. by repeat split. Qed.

Ltac only_promises_modify :=
  apply preserves_modify;
  let w := fresh "w" in
  intros w (? & ? & ? & ? & ? & ? & ? & ? & ? & ? & ? & ?); by repeat split.

Lemma settle_only_promises (w0 : World) (p : nat) (r : Settled) :
  preserves (only_promises w0) (settle p r).
Proof. unfold settle. preserve; only_promises_modify. Qed.

Lemma settle_one_lookup_ne (p q : nat) (r : Settled) (w : World) :
  q <> p -> promises (exec (settle_one p r) w) !! q = promises w !! q.
Proof.
  intros Hne. unfold exec, settle_one, bind, gets, modify, ret. simpl.
  destruct (promises w !! p) as [[| |]|]; simpl; try done.
  by rewrite list_lookup_insert_ne.
Qed.

Lemma settle_one_keeps_settled (p q : nat) (r : Settled) (w : World) :
  promises w !! q <> Some Pending ->
  promises (exec (settle_one p r) w) !! q = promises w !! q.
Proof.
  intros Hq. destruct (decide (q = p)) as [->|Hne]; [|by apply settle_one_lookup_ne].
  unfold exec, settle_one, bind, gets, modify, ret. simpl.
  destruct (promises w !! p) as [[| |]|] eqn:E; simpl; congruence.
Qed.

Lemma notify_all_keeps_settled (p q : nat) (r : Settled) (watch : list nat * nat)
    (w : World) :
  promises w !! q <> Some Pending ->
  promises (exec (notify_all p r watch) w) !! q = promises w !! q.
Proof.
  intros Hq. unfold notify_all.
  destruct (decide (p ∈ watch.1)) as [_|_]; [|done].
  destruct r as [|v|err]; [done| |by apply settle_one_keeps_settled].
  rewrite exec_bind. unfold gets at 1.
  destruct (all_values (promises w) watch.1); [|done].
  by apply settle_one_keeps_settled.
Qed.

(** A promise that has settled stays as it is. *)
Lemma notify_alls_keep_settled (p q : nat) (r : Settled) (ws : list (list nat * nat))
    (w : World) :
  promises w !! q <> Some Pending ->
  promises (exec (for_each ws (notify_all p r)) w) !! q = promises w !! q.
Proof.
  revert w. induction ws as [|watch ws IH]; intros w Hq; [done|].
  simpl. rewrite exec_bind.
  pose proof (notify_all_keeps_settled p q r watch w Hq) as H1. unfold exec in H1.
  destruct (notify_all p r watch w) as [[[]|e] w1]; simpl in H1; [|done].
  rewrite IH; [done|]. by rewrite H1.
Qed.

Lemma settle_lookup (p : nat) (r : Settled) (w : World) :
  promises w !! p = Some Pending -> r <> Pending ->
  promises (exec (settle p r) w) !! p = Some r.
Proof.
  intros Hp Hr. unfold settle. rewrite exec_bind. unfold gets at 1. rewrite Hp.
  rewrite exec_bind. unfold modify at 1. rewrite exec_bind. unfold gets at 1.
  rewrite notify_alls_keep_settled; simpl.
  - apply list_lookup_insert_eq. by eapply lookup_lt_Some.
  - rewrite list_lookup_insert_eq by (by eapply lookup_lt_Some). congruence.
Qed.

Lemma unsubscribe_spec (address : string) (w : World) (sock : Socket) :
  _socket (conn w) = Some sock ->
  unsubscribe address w = (Normal (length (promises w)), after_unsubscribe address w).
Proof.
  intros Hs. unfold unsubscribe, new_promise, try_catch, socket_call, the_socket,
    bind, gets, modify, ret, defined. simpl. rewrite Hs. reflexivity.
Qed.

(** [take_pending] on a call that is in flight. *)
Lemma take_pending_found (cid : nat) (k : Kont) (w : World) :
  In (cid, k) (pending w) -> List.NoDup (map fst (pending w)) ->
  take_pending cid w
  = (Normal (Some k), set_pending (fun pd => filter (fun e => e.1 <> cid) pd) w).
Proof.
  intros Hin Hnd. unfold take_pending, bind, gets, modify, ret. simpl.
  do 3 f_equal.
  induction (pending w) as [|[c k'] pd IH]; [destruct Hin|].
  simpl in Hnd. inversion Hnd as [|? ? Hnot Hnd']; subst.
  rewrite filter_cons. simpl. destruct (decide (c = cid)) as [->|Hne].
  - destruct Hin as [[= ->]|Hin]; [done|].
    exfalso. apply Hnot. apply in_map_iff. by exists (cid, k).
  - destruct Hin as [[= -> ->]|Hin]; [done|]. by apply IH.
Qed.

Lemma step_settled (cid : nat) (k : Kont) (r : Completion JsVal) (w : World) :
  In (cid, k) (pending w) -> List.NoDup (map fst (pending w)) ->
  step (RpcSettled cid r) w
  = task (on_settled k r) (set_pending (fun pd => filter (fun e => e.1 <> cid) pd) w).
Proof.
  intros Hin Hnd. unfold step, task, handle, bind.
  by rewrite (take_pending_found cid k w Hin Hnd).
Qed.

Lemma settle_one_returns (p : nat) (r : Settled) (w : World) :
  fst (settle_one p r w) = Normal tt.
Proof.
  unfold settle_one, bind, gets, modify, ret.
  by destruct (promises w !! p) as [[| |]|].
Qed.

Lemma notify_all_returns (p : nat) (r : Settled) (watch : list nat * nat) (w : World) :
  fst (notify_all p r watch w) = Normal tt.
Proof.
  unfold notify_all. destruct (decide (p ∈ watch.1)) as [_|_]; [|done].
  destruct r as [|v|err]; [done| |apply settle_one_returns].
  unfold bind, gets. destruct (all_values (promises w) watch.1); [|done].
  apply settle_one_returns.
Qed.

(** Settling a promise does not throw. *)
Lemma settle_returns (p : nat) (r : Settled) (w : World) :
  fst (settle p r w) = Normal tt.
Proof.
  unfold settle, bind at 1, gets at 1.
  destruct (promises w !! p) as [[| |]|]; try done.
  unfold bind at 1, modify at 1. unfold bind at 1, gets at 1.
  simpl. generalize (alls w). intros ws.
  generalize (set_promises (fun ps => <[p:=r]> ps) w). intros w1.
  revert w1. induction ws as [|watch ws IH]; intros w1; [done|].
  simpl. unfold bind.
  pose proof (notify_all_returns p r watch w1) as Hn.
  destruct (notify_all p r watch w1) as [[[]|e] w2]; simpl in Hn; [apply IH|done].
Qed.

(** A task that settles a promise: what it leaves. *)
Lemma task_settle (p : nat) (r : Settled) (w : World) :
  promises w !! p = Some Pending -> r <> Pending ->
  only_promises w (task (settle p r) w)
  /\ promises (task (settle p r) w) !! p = Some r.
Proof.
  intros Hp Hr.
  pose proof (settle_lookup p r w Hp Hr) as Hres.
  pose proof (settle_only_promises w p r w (only_promises_refl _)) as Honly.
  pose proof (settle_returns p r w) as Hret.
  unfold exec, task in *.
  destruct (settle p r w) as [[[]|e] w3]; simpl in *; done.
Qed.


(** *** [unsubscribeAll] *)

Lemma after_unsubscribe_each_fields (addresses : list string) (w : World) :
  let w' := after_unsubscribe_each addresses w in
  conn w' = conn w
  /\ outbox w' = outbox w ++
       map (fun a => cancel_call (js_get a (_addressSubscriptions (conn w)))) addresses
  /\ promises w' = promises w ++ replicate (length addresses) Pending
  /\ alls w' = alls w /\ subjects w' = subjects w /\ trace w' = trace w.
Proof.
  revert w. induction addresses as [|a rest IH]; intros w; simpl.
  - by rewrite !app_nil_r.
  - destruct (IH (after_unsubscribe a w)) as (Ec & Eo & Ep & Ea & Es & Et).
    rewrite Ec, Eo, Ep, Ea, Es, Et. simpl. rewrite <- !app_assoc. done.
Qed.

Lemma unsubscribe_each_spec (addresses : list string) (w : World) (sock : Socket) :
  _socket (conn w) = Some sock ->
  unsubscribe_each addresses w
  = (Normal (seq (length (promises w)) (length addresses)),
     after_unsubscribe_each addresses w).
Proof.
  revert w. induction addresses as [|a rest IH]; intros w Hs; [done|].
  simpl. unfold bind at 1. rewrite (unsubscribe_spec a w sock Hs).
  unfold bind at 1. rewrite IH by done.
  simpl. rewrite length_app. simpl. by rewrite Nat.add_1_r.
Qed.

Lemma all_values_fulfilled (ps : list Settled) (inputs : list nat) (vs : list PVal) :
  all_values ps inputs = Some vs ->
  Forall (fun q => exists v, ps !! q = Some (Fulfilled v)) inputs.
Proof.
  revert vs. induction inputs as [|q inputs IH]; intros vs; simpl; [done|].
  unfold fulfilled_value.
  destruct (ps !! q) as [[|v|]|] eqn:E; try done.
  destruct (all_values ps inputs) as [vs'|]; [|done].
  intros _. constructor; eauto.
Qed.

Lemma all_values_pending (ps : list Settled) (inputs : list nat) (q : nat) :
  In q inputs -> ps !! q = Some Pending -> all_values ps inputs = None.
Proof.
  induction inputs as [|x inputs IH]; simpl; [done|].
  unfold fulfilled_value. intros [->|Hin] Hq.
  - by rewrite Hq.
  - destruct (ps !! x) as [[|v|]|]; try done. by rewrite IH.
Qed.

Lemma first_rejection_pending (ps : list Settled) (inputs : list nat) :
  Forall (fun q => ps !! q = Some Pending) inputs -> first_rejection ps inputs = None.
Proof. induction 1 as [|q inputs Hq _ IH]; simpl; [done|]. by rewrite Hq. Qed.

(** The reactions of the aggregates to a rejection: every aggregate that
    waits for [p] is rejected with the same error, at once. *)
Lemma notify_alls_reject (p target : nat) (err : JsVal) (inputs : list nat)
    (ws : list (list nat * nat)) (w : World) :
  In (inputs, target) ws -> In p inputs ->
  promises w !! target = Some Pending \/ promises w !! target = Some (Rejected err) ->
  promises (exec (for_each ws (notify_all p (Rejected err))) w) !! target
  = Some (Rejected err).
Proof.
  revert w. induction ws as [|watch ws IH]; intros w Hin Hp Ht; [destruct Hin|].
  simpl. rewrite exec_bind.
  pose proof (notify_all_returns p (Rejected err) watch w) as Hret.
  destruct (notify_all p (Rejected err) watch w) as [[[]|e] w1] eqn:E; simpl in Hret; [|done].
  assert (Hw1 : w1 = exec (notify_all p (Rejected err) watch) w)
    by (unfold exec; by rewrite E).
  destruct Hin as [->|Hin].
  - assert (Hdone : promises w1 !! target = Some (Rejected err)).
    { rewrite Hw1. unfold notify_all. simpl.
      destruct (decide (p ∈ inputs)) as [_|Hn]; [|by apply list_elem_of_In in Hp].
      unfold exec, settle_one, bind, gets, modify, ret. simpl.
      destruct Ht as [Ht|Ht]; rewrite Ht; simpl; [|done].
      apply list_lookup_insert_eq. by eapply lookup_lt_Some. }
    rewrite notify_alls_keep_settled; [done|]. rewrite Hdone. done.
  - apply IH; auto. rewrite Hw1. unfold notify_all.
    destruct (decide (p ∈ watch.1)) as [_|_]; [|done].
    destruct (decide (watch.2 = target)) as [->|Hne].
    + unfold exec, settle_one, bind, gets, modify, ret. simpl.
      destruct Ht as [Ht|Ht]; rewrite Ht; simpl; [|by right].
      right. apply list_lookup_insert_eq. by eapply lookup_lt_Some.
    + by rewrite settle_one_lookup_ne.
Qed.

(** A promise that is the result of no aggregate is touched by no
    reaction. *)
Lemma notify_alls_other (p q : nat) (r : Settled) (ws : list (list nat * nat))
    (w : World) :
  Forall (fun watch => watch.2 <> q) ws ->
  promises (exec (for_each ws (notify_all p r)) w) !! q = promises w !! q.
Proof.
  intros Hq. revert w. induction Hq as [|watch ws Hne _ IH]; intros w; [done|].
  simpl. rewrite exec_bind.
  pose proof (notify_all_returns p r watch w) as Hret.
  destruct (notify_all p r watch w) as [[[]|e] w1] eqn:E; simpl in Hret; [|done].
  rewrite IH.
  replace w1 with (exec (notify_all p r watch) w) by (unfold exec; by rewrite E).
  unfold notify_all. destruct (decide (p ∈ watch.1)) as [_|_]; [|done].
  destruct r as [|v|err]; [done| |by apply settle_one_lookup_ne].
  rewrite exec_bind. unfold gets at 1.
  destruct (all_values (promises w) watch.1); [|done].
  by apply settle_one_lookup_ne.
Qed.

Lemma fulfilled_settle_one (q t : nat) (r : Settled) (w : World) :
  fulfilled w q -> fulfilled (exec (settle_one t r) w) q.
Proof.
  intros [v Hv]. exists v. rewrite settle_one_keeps_settled; [done|]. by rewrite Hv.
Qed.

(** The reactions of the aggregates to a fulfilment: an aggregate is
    fulfilled only when every one of its inputs is. *)
Lemma notify_alls_fulfil (p target : nat) (v : PVal) (inputs : list nat)
    (ws : list (list nat * nat)) (w : World) :
  (forall i t, In (i, t) ws -> t = target -> i = inputs) ->
  promises w !! target = Some Pending \/ Forall (fulfilled w) inputs ->
  let w' := exec (for_each ws (notify_all p (Fulfilled v))) w in
  promises w' !! target = Some Pending \/ Forall (fulfilled w') inputs.
Proof.
  revert w. induction ws as [|[i t] ws IH]; intros w Huniq Hinv; [done|].
  simpl. rewrite exec_bind.
  pose proof (notify_all_returns p (Fulfilled v) (i, t) w) as Hret.
  destruct (notify_all p (Fulfilled v) (i, t) w) as [[[]|e] w1] eqn:E; simpl in Hret; [|done].
  apply IH; [intros; eapply Huniq; eauto; by right|].
  replace w1 with (exec (notify_all p (Fulfilled v) (i, t)) w) by (unfold exec; by rewrite E).
  clear E Hret IH.
  assert (Hcase : exec (notify_all p (Fulfilled v) (i, t)) w = w
            \/ exists vs, all_values (promises w) i = Some vs
                 /\ exec (notify_all p (Fulfilled v) (i, t)) w
                    = exec (settle_one t (Fulfilled (PArray vs))) w).
  { unfold notify_all. simpl. destruct (decide (p ∈ i)) as [_|_]; [|by left].
    rewrite exec_bind. unfold gets. simpl.
    destruct (all_values (promises w) i) as [vs|]; [right; eauto|by left]. }
  destruct Hcase as [->|(vs & Ev & ->)]; [done|].
  destruct (decide (t = target)) as [->|Hne].
  - right. rewrite (Huniq i target (or_introl eq_refl) eq_refl) in Ev.
    apply all_values_fulfilled in Ev.
    eapply Forall_impl; [exact Ev|]. intros q Hq. by apply fulfilled_settle_one.
  - destruct Hinv as [Hp|Hf].
    + left. by rewrite settle_one_lookup_ne.
    + right. eapply Forall_impl; [exact Hf|]. intros q Hq. by apply fulfilled_settle_one.
Qed.

Lemma lookup_replicate_pending (ps : list Settled) (n i : nat) :
  i < n -> (ps ++ replicate n Pending) !! (length ps + i) = Some Pending.
Proof.
  intros Hi. rewrite lookup_app_r by lia.
  replace (length ps + i - length ps) with i by lia.
  by apply lookup_replicate_2.
Qed.

Lemma Promise_all_pending (inputs : list nat) (w : World) :
  inputs <> [] ->
  Forall (fun q => promises w !! q = Some Pending) inputs ->
  Promise_all inputs w
  = (Normal (length (promises w)),
     set_alls (fun ws => ws ++ [(inputs, length (promises w))])
       (set_promises (fun ps => ps ++ [Pending]) w)).
Proof.
  intros Hne Hp.
  assert (Hp' : Forall (fun q => (promises w ++ [Pending]) !! q = Some Pending) inputs).
  { eapply Forall_impl; [exact Hp|]. intros q Hq. simpl in *.
    rewrite lookup_app_l; [done|]. by eapply lookup_lt_Some. }
  unfold Promise_all, new_promise, bind, gets, modify, ret. simpl.
  rewrite (first_rejection_pending _ _ Hp').
  destruct inputs as [|q inputs]; [done|].
  rewrite (all_values_pending _ (q :: inputs) q); [done|by left|].
  by inversion Hp'.
Qed.

Lemma Promise_all_nil (w : World) :
  Promise_all [] w
  = (Normal (length (promises w)),
     set_promises (fun ps => ps ++ [Fulfilled (PArray [])]) w).
Proof.
  unfold Promise_all, new_promise, settle_one, bind, gets, modify, ret. simpl.
  rewrite list_lookup_middle by done. simpl. unfold set_promises. simpl.
  do 2 f_equal. rewrite insert_app_r_alt by done.
  by rewrite Nat.sub_diag.
Qed.

(** C5, as the code has it: [unsubscribeAll] sends a cancel call for every
    tracked address, in their order, and returns the aggregate of the
    promises of these unsubscriptions.  The aggregate is rejected as soon
    as one of them is rejected, with that error and whatever the state of
    the others, which stay as they are; and it is fulfilled only when every
    one of them is. *)
Theorem unsubscribeAll_fans_out_and_fails_fast :
  (forall (w : World) (sock : Socket),
     _socket (conn w) = Some sock ->
     let addresses := js_keys (_addressSubscriptions (conn w)) in
     let inputs := seq (length (promises w)) (length addresses) in
     let target := length (promises w) + length addresses in
     let w' := exec unsubscribeAll w in
     fst (unsubscribeAll w) = Normal target
     /\ outbox w' = outbox w ++
          map (fun a => cancel_call (js_get a (_addressSubscriptions (conn w)))) addresses
     /\ (addresses <> [] ->
          alls w' = alls w ++ [(inputs, target)]
          /\ promises w' = promises w ++ replicate (S (length addresses)) Pending)
     /\ (addresses = [] -> promises w' = promises w ++ [Fulfilled (PArray [])]))
  /\ (forall (w : World) (inputs : list nat) (target p : nat)
        (address : string) (subscriberId : option string) (err : JsVal),
     In (inputs, target) (alls w) -> In p inputs ->
     promises w !! p = Some Pending -> promises w !! target = Some Pending ->
     let w' := exec (on_settled (KUnsubscribe address subscriberId p) (Throw err)) w in
     promises w' !! p = Some (Rejected err)
     /\ promises w' !! target = Some (Rejected err)
     /\ forall q, q <> p -> Forall (fun watch => watch.2 <> q) (alls w) ->
          promises w' !! q = promises w !! q)
  /\ (forall (w : World) (inputs : list nat) (target p : nat) (v vs : PVal),
     (forall i t, In (i, t) (alls w) -> t = target -> i = inputs) ->
     p <> target -> promises w !! target = Some Pending ->
     let w' := exec (resolve p v) w in
     promises w' !! target = Some (Fulfilled vs) -> Forall (fulfilled w') inputs).
Proof.
  split; [|split].
  - intros w sock Hsock addresses inputs target w'.
    destruct (after_unsubscribe_each_fields addresses w) as (Ec & Eo & Ep & Ea & _ & _).
    assert (Hrun : unsubscribeAll w
              = Promise_all inputs (after_unsubscribe_each addresses w)).
    { unfold unsubscribeAll, bind at 1, gets at 1. fold addresses.
      unfold bind at 1. by rewrite (unsubscribe_each_spec addresses w sock Hsock). }
    subst w'. unfold exec. rewrite Hrun. clear Hrun.
    set (w1 := after_unsubscribe_each addresses w) in *.
    assert (Hlen : length (promises w1) = target).
    { rewrite Ep, length_app, length_replicate. done. }
    destruct (decide (addresses = [])) as [Hnil|Hne].
    + assert (Hin : inputs = []) by (subst inputs; by rewrite Hnil).
      rewrite Hin, Promise_all_nil, Hlen. simpl. rewrite Eo, Ep, Hnil. simpl.
      rewrite !app_nil_r. done.
    + rewrite Promise_all_pending, Hlen.
      * simpl. rewrite Eo, Ea, Ep. split; [done|]. split; [done|].
        split; [|done]. intros _. split; [done|].
        rewrite <- app_assoc. f_equal. clear.
        induction (length addresses) as [|n IH]; [done|]. simpl. by rewrite IH.
      * subst inputs. destruct addresses; done.
      * apply Forall_forall. intros q Hq. subst inputs.
        apply elem_of_seq in Hq. rewrite Ep.
        replace q with (length (promises w) + (q - length (promises w))) by lia.
        apply lookup_replicate_pending. lia.
  - intros w inputs target p address subscriberId err Hin Hp Hpp Ht w'.
    assert (Hw' : w' = exec (for_each (alls w) (notify_all p (Rejected err)))
                         (set_promises (fun ps => <[p := Rejected err]> ps) w)).
    { subst w'. unfold on_settled, try_catch, lift_completion, bind at 1, reject, settle.
      rewrite exec_bind. unfold gets at 1. rewrite Hpp.
      rewrite exec_bind. unfold modify at 1. rewrite exec_bind. by unfold gets at 1. }
    rewrite Hw'. clear Hw'. split; [|split].
    + rewrite notify_alls_keep_settled; simpl.
      * apply list_lookup_insert_eq. by eapply lookup_lt_Some.
      * rewrite list_lookup_insert_eq by (by eapply lookup_lt_Some). done.
    + apply (notify_alls_reject p target err inputs); auto. simpl.
      destruct (decide (p = target)) as [->|Hne].
      * right. apply list_lookup_insert_eq. by eapply lookup_lt_Some.
      * left. by rewrite list_lookup_insert_ne.
    + intros q Hq Hnot. rewrite notify_alls_other by done. simpl.
      by rewrite list_lookup_insert_ne.
  - intros w inputs target p v vs Huniq Hne Ht w' Hf.
    destruct (promises w !! p) as [[| |]|] eqn:Epp.
    2,3,4: exfalso; subst w'; unfold resolve, settle in Hf; rewrite exec_bind in Hf;
      unfold gets at 1 in Hf; rewrite Epp in Hf; unfold exec, ret in Hf; simpl in Hf;
      congruence.
    assert (Hw' : w' = exec (for_each (alls w) (notify_all p (Fulfilled v)))
                         (set_promises (fun ps => <[p := Fulfilled v]> ps) w)).
    { subst w'. unfold resolve, settle.
      rewrite exec_bind. unfold gets at 1. rewrite Epp.
      rewrite exec_bind. unfold modify at 1. rewrite exec_bind. by unfold gets at 1. }
    rewrite Hw' in *. clear Hw'.
    destruct (notify_alls_fulfil p target v inputs (alls w)
                (set_promises (fun ps => <[p:=Fulfilled v]> ps) w) Huniq) as [Hp|Hall];
      [left; simpl; by rewrite list_lookup_insert_ne| |done].
    congruence.
Qed.

(** ** The timeout timers *)

Lemma next_timers (l : nat) (v : StreamVal) (ts : list Timer) :
  preserves (fun w => timers w = ts) (next l v).
Proof. unfold next. preserve_all. Qed.

Lemma error_timers (l : nat) (err : JsVal) (ts : list Timer) :
  preserves (fun w => timers w = ts) (error l err).
Proof. unfold error. preserve_all. Qed.

Lemma clear_timer_spec (id : nat) (w : World) :
  timers (exec (clearTimeout id) w) = filter (fun t => tid t <> id) (timers w).
Proof.
  unfold exec, clearTimeout, clear_timer, modify. simpl.
  apply list_filter_iff. intros t. split; congruence.
Qed.

Lemma filter_twice {A} (P : A -> Prop) `{forall x, Decision (P x)} (xs : list A) :
  filter P (filter P xs) = filter P xs.
Proof. by apply list_filter_filter_l. Qed.

(** The timer of [submitAtom] is cleared when the call settles, whichever
    way. *)
Lemma submit_settled_clears_timer
    (timeout l : nat) (r : Completion JsVal) (w : World) :
  timers (exec (on_settled (KSubmit timeout l) r) w)
  = filter (fun t => tid t <> timeout) (timers w).
Proof.
  unfold on_settled, try_catch, exec, lift_completion.
  destruct r as [response|err]; unfold bind at 1.
  - unfold bind at 1.
    pose proof (clear_timer_spec timeout w) as H1. unfold exec in H1.
    destruct (clearTimeout timeout w) as [[[]|e] w1] eqn:E1; simpl in H1; [|done].
    pose proof (next_timers l (SVState "SUBMITTED") _ w1 H1) as H2. unfold exec in H2.
    destruct (next l (SVState "SUBMITTED") w1) as [[[]|e] w2]; simpl in *; [done|].
    unfold bind at 1.
    pose proof (clear_timer_spec timeout w2) as H3. unfold exec in H3.
    destruct (clearTimeout timeout w2) as [[[]|e'] w3] eqn:E3; simpl in H3; [|done].
    rewrite H2, filter_twice in H3.
    pose proof (error_timers l e _ w3 H3) as H4. exact H4.
  - unfold bind at 1.
    pose proof (clear_timer_spec timeout w) as H1. unfold exec in H1.
    destruct (clearTimeout timeout w) as [[[]|e] w1] eqn:E1; simpl in H1; [|done].
    pose proof (error_timers l err _ w1 H1) as H2. exact H2.
Qed.

(** C7, as the code has it.  The timer of a submission is disarmed when the
    remote call settles, accepted or rejected, so it cannot fire afterwards.
    The timer of [openConnection] is not disarmed when the socket opens: the
    handler for 'open' leaves it among the timers and only adds the ping
    interval; when it fires on a socket that is ready, it does nothing. *)
Theorem timeout_timers_when_the_transition_succeeds :
  (forall (w : World) (timeout l : nat) (r : Completion JsVal),
     timers (exec (on_settled (KSubmit timeout l) r) w)
     = filter (fun t => tid t <> timeout) (timers w))
  /\ (forall (w : World) (p : nat),
     exists interval,
       callback interval = Ping /\ period interval = Some 10000%N
       /\ timers (exec (on_socket_open p) w) = timers w ++ [interval])
  /\ (forall (w : World) (p : nat) (sock : Socket),
     _socket (conn w) = Some sock -> ready sock = true ->
     on_open_timeout p w = (Normal tt, w)).
Proof.
  split; [intros; apply submit_settled_clears_timer|]. split.
  - intros w p.
    exists {| tid := timerCount w; due := (now w + 10000)%N;
              period := Some 10000%N; callback := Ping |}.
    split; [done|]. split; [done|].
    unfold on_socket_open. rewrite exec_bind.
    change (setInterval Ping 10000 w) with
      (Normal (timerCount w),
       set_timers (fun ts => ts ++
           [ {| tid := timerCount w; due := (now w + 10000)%N;
                period := Some 10000%N; callback := Ping |} ])
         (set_timerCount S w)).
    cbv iota beta.
    match goal with |- timers (exec ?m ?w1) = ?ts =>
      apply (fun Hm : preserves (fun w' => timers w' = ts) m => Hm w1)
    end; [|done].
    unfold_operations. preserve_all.
  - intros w p sock Hs Hr.
    unfold on_open_timeout, the_socket, bind, gets, defined. rewrite Hs. simpl.
    by rewrite Hr.
Qed.

(** ** Looking an atom up *)



(** ** The calls of the application, one by one *)

Lemma js_delete_absent {V} (k : string) (o : JsObject V) :
  js_get k o = None -> js_delete k o = o.
Proof.
  induction o as [|[k' v'] o IH]; simpl; [done|].
  destruct (String.eqb k k'); [done|]. intros Hk. by rewrite IH.
Qed.





(** X3: what the answer to `Atoms.subscribe` does.  When the node accepts
    the call nothing changes.  When it refuses, the delivery channel of the
    subscription fails with the error of the node: its observers are handed
    that error.  The tables are left as they are, so the address stays
    registered under the identifier of the failed subscription. *)
Theorem subscribe_settles (address subscriberId : string) (call l : nat)
    (s : Subject) (w : World) :
  In (call, KSubscribe address subscriberId) (pending w) ->
  List.NoDup (map fst (pending w)) ->
  js_get subscriberId (_subscriptions (conn w)) = Some l ->
  subjects w !! l = Some s -> closed s = false ->
  let answered := set_pending (fun pd => filter (fun e => e.1 <> call) pd) w in
  (forall response, step (RpcSettled call (Normal response)) w = answered)
  /\ (forall err,
        step (RpcSettled call (Throw err)) w
        = set_trace (fun t => t ++ deliveries (observers s) (Error err))
            (set_subjects (fun hp => <[l := failed_subject s err]> hp) answered)).
Proof.
  intros Hin Hnd Hk Hl Hc answered. split.
  - intros response. by rewrite (step_settled call _ _ w Hin Hnd).
  - intros err. rewrite (step_settled call _ _ w Hin Hnd). fold answered.
    unfold task, on_settled, bind, gets. simpl. rewrite Hk. simpl.
    by rewrite (error_spec l err answered s).
Qed.

(** X4: [unsubscribe] of an address that has no subscription sends the
    cancel call without a subscriber identifier.  When the node accepts that
    call, completing the missing delivery channel throws, and the promise is
    rejected with the TypeError; subjects, streams and the other tables
    stay as they are. *)
Theorem unsubscribe_of_an_unknown_address (address : string) (w : World) (sock : Socket) :
  _socket (conn w) = Some sock ->
  js_get address (_addressSubscriptions (conn w)) = None ->
  let p := length (promises w) in
  let call := length (outbox w) in
  let k := KUnsubscribe address None p in
  unsubscribe address w = (Normal p, after_unsubscribe address w)
  /\ outbox (after_unsubscribe address w)
     = outbox w ++ [("Atoms.cancel", JObj [("subscriberId", JUndefined)])]
  /\ pending (after_unsubscribe address w) = pending w ++ [(call, k)]
  /\ (forall (w2 : World) (response : JsVal),
        In (call, k) (pending w2) -> List.NoDup (map fst (pending w2)) ->
        promises w2 !! p = Some Pending ->
        js_get "undefined" (_subscriptions (conn w2)) = None ->
        let w3 := step (RpcSettled call (Normal response)) w2 in
        promises w3 !! p = Some (Rejected TypeError)
        /\ subjects w3 = subjects w2 /\ trace w3 = trace w2
        /\ _subscriptions (conn w3) = _subscriptions (conn w2)
        /\ _syncedSubscriptions (conn w3) = _syncedSubscriptions (conn w2)
        /\ js_get address (_addressSubscriptions (conn w3)) = None).
Proof.
  intros Hsock Haddr p call k.
  split; [by apply (unsubscribe_spec address w sock)|].
  split; [unfold after_unsubscribe; by rewrite Haddr|].
  split; [unfold after_unsubscribe; by rewrite Haddr|].
  intros w2 response Hin Hnd Hp Hu w3.
  set (w' := set_conn (set__addressSubscriptions (js_delete address))
               (set_pending (fun pd => filter (fun e => e.1 <> call) pd) w2)).
  assert (Hw3 : w3 = task (settle p (Rejected TypeError)) w').
  { subst w3. rewrite (step_settled call k _ w2 Hin Hnd).
    unfold k, on_settled, try_catch, lift_completion, task.
    unfold bind at 1. unfold bind at 1, modify at 1.
    unfold bind at 1, gets at 1. simpl.
    unfold lookup_optional_key. simpl. rewrite Hu.
    unfold bind at 1. simpl. fold w'. unfold reject.
    pose proof (settle_returns p (Rejected TypeError) w') as Hret.
    by destruct (settle p (Rejected TypeError) w') as [[[]|e] w4]. }
  destruct (task_settle p (Rejected TypeError) w') as [Honly Hres]; [done..|].
  rewrite <- Hw3 in Honly, Hres.
  destruct Honly as (Ec & Es & Et & _). rewrite Ec, Es, Et, Hres.
  repeat split. simpl. apply js_get_delete_eq.
Qed.

(** X5: [ping] sends `Network.getInfo` only while the socket is there and
    ready, and otherwise does nothing; and the answer to a ping, a result
    or an error, has no effect at all: a ping that fails neither closes the
    connection nor touches a stream. *)
Theorem ping_is_only_a_probe (w : World) :
  (forall sock, _socket (conn w) = Some sock -> ready sock = false ->
     ping w = (Normal tt, w))
  /\ (forall sock, _socket (conn w) = Some sock -> ready sock = true ->
     ping w
     = (Normal tt,
        set_pending (fun pd => pd ++ [(length (outbox w), KPing)])
          (set_outbox (fun ob => ob ++ [("Network.getInfo", JObj [("id", JNum 0)])]) w)))
  /\ (forall call r,
     In (call, KPing) (pending w) -> List.NoDup (map fst (pending w)) ->
     step (RpcSettled call r) w
     = set_pending (fun pd => filter (fun e => e.1 <> call) pd) w).
Proof.
  repeat split.
  - intros sock Hs Hr. unfold ping, isReady, bind, gets, ret. by rewrite Hs, Hr.
  - intros sock Hs Hr.
    unfold ping, isReady, socket_call, the_socket, bind, gets, modify, ret, defined.
    simpl. rewrite Hs, Hr. simpl. by rewrite Hs.
  - intros call r Hin Hnd. by rewrite (step_settled call _ _ w Hin Hnd).
Qed.

Lemma step_submit_refused
    (cid timeout l : nat) (err : JsVal) (w : World)
    (pd : list (nat * Kont)) (s : Subject) :
  pending w = pd ++ [(cid, KSubmit timeout l)] ->
  Forall (fun e => e.1 <> cid) pd ->
  subjects w !! l = Some s -> closed s = false ->
  step (RpcSettled cid (Throw err)) w =
    set_trace (fun t => t ++ deliveries (observers s) (Error err))
      (set_subjects (fun hp => <[l := failed_subject s err]> hp)
        (set_timers (fun ts => filter (fun t => Some (tid t) <> Some timeout) ts)
          (set_pending (fun _ => pd) w))).
Proof.
  intros Hp Hf Hl Hc. unfold step, task, handle.
  unfold bind at 1. rewrite (take_pending_spec cid _ w pd Hp Hf).
  unfold on_settled, try_catch, lift_completion.
  unfold bind at 1. unfold bind at 1, clearTimeout, clear_timer, modify at 1.
  by rewrite (error_spec l err _ s).
Qed.

Lemma filter_fresh_timer (ts : list Timer) (tm : Timer) :
  Forall (fun x => tid x < tid tm) ts ->
  filter (fun x => Some (tid x) <> Some (tid tm)) (ts ++ [tm]) = ts.
Proof.
  intros Hts. rewrite filter_app, filter_cons.
  destruct (decide (Some (tid tm) <> Some (tid tm))); [done|].
  rewrite app_nil_r. induction Hts as [|x ts Hx _ IH]; [done|].
  rewrite filter_cons. destruct (decide (Some (tid x) <> Some (tid tm))) as [_|Hn].
  - by rewrite IH.
  - exfalso. apply Hn. intros [= E]. lia.
Qed.

(** X6: a submission that the node refuses.  The atom is submitted, the
    caller subscribes to the state stream, and the remote call is rejected:
    the subscriber is handed the initial value and then the error of the
    node, the stream has failed with that error, the timer of the submission
    is disarmed so that no timeout follows, and the socket is left open. *)
Theorem refused_submission_fails_the_stream
    (a : Atom) (w : World) (sock : Socket) (err : JsVal) :
  well_formed w ->
  _socket (conn w) = Some sock ->
  let atomStateSubject := length (subjects w) in
  let subscriber := observerCount w in
  let w' :=
    foldl (fun w ev => step ev w) w
      [CallSubmitAtom a;
       CallObserve atomStateSubject;
       RpcSettled (length (outbox w)) (Throw err)] in
  observed subscriber w' = [Next (SVState "CREATED"); Error err]
  /\ subjects w' !! atomStateSubject = Some (failed_subject created_subject err)
  /\ timers w' = timers w
  /\ pending w' = pending w
  /\ _socket (conn w') = Some sock.
Proof.
  intros Hwf Hsock l o w'.
  destruct Hwf as [Hids _ _ _ _ Htr Hpend _ _ _ _].
  subst w'. simpl.
  rewrite (step_submitAtom a w sock Hsock).
  rewrite (step_observe_live l (after_submitAtom a w) created_subject);
    [|by apply list_lookup_middle|done..].
  simpl (_value created_subject). simpl (observers created_subject ++ _).
  match goal with |- context [step (RpcSettled _ _) ?x] => set (w2 := x) end.
  pose (s2 := {| closed := false; isStopped := false; hasError := false;
                 thrownError := JNull; observers := [o];
                 _value := Some (SVState "CREATED") |}).
  assert (Hl2 : subjects w2 !! l = Some s2).
  { subst w2. simpl. rewrite list_lookup_insert_eq; [done|].
    rewrite length_app. simpl. lia. }
  rewrite (step_submit_refused (length (outbox w)) (timerCount w) l err w2
             (pending w) s2); [|done| |done..].
  2:{ eapply Forall_impl; [exact Hpend|]. simpl. intros; lia. }
  split; [|split; [|split; [|split]]].
  - pose proof (observed_fresh o w Htr) as Hfresh. unfold observed in Hfresh.
    subst w2. unfold observed. simpl.
    rewrite !filter_app, !map_app, Hfresh, !filter_cons. simpl. subst o.
    destruct (decide (observerCount w = observerCount w)); [|done]. reflexivity.
  - simpl. rewrite list_lookup_insert_eq; [done|].
    rewrite length_insert, length_app. simpl. lia.
  - simpl.
    apply (filter_fresh_timer (timers w)
             {| tid := timerCount w; due := (now w + 5000)%N; period := None;
                callback := SubmitTimeout l |}).
    exact Hids.
  - done.
  - simpl. exact Hsock.
Qed.

Lemma fromJSON_atoms_fails (jsons : list JsVal) (w : World) :
  (exists j, In j jsons /\ exists e, fromJSON j = Throw e) ->
  exists j e, In j jsons /\ fromJSON j = Throw e
    /\ fromJSON_atoms jsons w = (Throw e, w).
Proof.
  induction jsons as [|j jsons IH]; intros (j0 & Hin & e0 & He0); [destruct Hin|].
  simpl. unfold bind at 1, lift_completion.
  destruct (fromJSON j) as [a|e] eqn:Ej.
  - destruct Hin as [->|Hin]; [congruence|].
    destruct IH as (j1 & e1 & Hin1 & He1 & Hrun); [by eauto|].
    exists j1, e1. split; [by right|]. split; [done|].
    unfold bind. by rewrite Hrun.
  - exists j, e. split; [by left|]. done.
Qed.

Lemma forward_to_nobody (das : list Atom) (w : World) :
  das <> [] ->
  for_each das (fun a => bind (defined (@None nat)) (fun l => next l (store_update a))) w
  = (Throw TypeError, w).
Proof. destruct das as [|a das]; [done|]. intros _. reflexivity. Qed.

(** X7: a batch that cannot be delivered changes nothing.  When one of its
    atoms does not deserialize, the handler throws the error of that atom:
    no atom of the batch is forwarded, not even those before it, and the
    sync channel is not updated.  When no subscription has the subscriber
    identifier of the notification, the handler throws a TypeError. *)
Theorem undeliverable_batch_changes_nothing
    (notification : AtomReceivedNotification) (w : World) :
  ((exists j, In j (atoms notification) /\ exists e, fromJSON j = Throw e) ->
     exists j e, In j (atoms notification) /\ fromJSON j = Throw e
       /\ _onAtomReceivedNotification notification w = (Throw e, w))
  /\ (forall das,
        deserializes (atoms notification) das ->
        js_get (key_of (subscriberId notification)) (_subscriptions (conn w)) = None ->
        js_get (key_of (subscriberId notification)) (_syncedSubscriptions (conn w)) = None ->
        _onAtomReceivedNotification notification w = (Throw TypeError, w)).
Proof.
  split.
  - intros Hbad.
    destruct (fromJSON_atoms_fails (atoms notification) w Hbad) as (j & e & Hin & He & Hrun).
    exists j, e. split; [done|]. split; [done|].
    unfold _onAtomReceivedNotification. unfold bind at 1. by rewrite Hrun.
  - intros das Hd Hk Hs.
    unfold _onAtomReceivedNotification. unfold bind at 1.
    rewrite (fromJSON_atoms_spec _ _ _ Hd).
    unfold bind at 1.
    rewrite (check_hids_spec [] _ _ _ Hd).
    unfold bind at 1, gets at 1. rewrite Hk.
    destruct das as [|a das].
    + simpl. unfold bind, gets. simpl. by rewrite Hs.
    + unfold bind at 1. by rewrite forward_to_nobody.
Qed.

Lemma next_plain_stopped (l : nat) (v : StreamVal) (w : World) (s : Subject) :
  subjects w !! l = Some s ->
  closed s = false -> isStopped s = true -> _value s = None ->
  next l v w = (Normal tt, w).
Proof.
  intros Hl Hc Hs Hv.
  unfold next, read_subject, bind, gets, defined. rewrite Hl. simpl.
  rewrite Hv. simpl. rewrite Hl. simpl. by rewrite Hc, Hs.
Qed.

Lemma forward_stopped (l : nat) (das : list Atom) (w : World) (s : Subject) :
  subjects w !! l = Some s ->
  closed s = false -> isStopped s = true -> _value s = None ->
  for_each das (fun a => bind (defined (Some l)) (fun l => next l (store_update a))) w
  = (Normal tt, w).
Proof.
  intros Hl Hc Hs Hv. induction das as [|a das IH]; [reflexivity|].
  simpl. unfold bind at 1. unfold bind at 1. simpl.
  by rewrite (next_plain_stopped l _ w s).
Qed.

Lemma next_closed (l : nat) (v : StreamVal) (w : World) (s : Subject) :
  subjects w !! l = Some s -> closed s = true -> _value s = None ->
  next l v w = (Throw ObjectUnsubscribedError, w).
Proof.
  intros Hl Hc Hv.
  unfold next, read_subject, bind, gets, defined. rewrite Hl. simpl.
  rewrite Hv. simpl. rewrite Hl. simpl. by rewrite Hc.
Qed.

(** X8: a batch for a subscription whose delivery channel has ended.  When
    the channel has completed or failed, as after [unsubscribe], the atoms
    of the batch are handed to nobody, and yet the sync channel is given
    [isHead] as usual.  When the application has unsubscribed the channel
    itself, a batch that is not empty makes the handler throw
    ObjectUnsubscribedError, and the sync channel is not updated. *)
Theorem batch_for_an_ended_channel
    (notification : AtomReceivedNotification) (w : World)
    (das : list Atom) (l b : nat) (s sb : Subject) (v0 : StreamVal) :
  deserializes (atoms notification) das ->
  js_get (key_of (subscriberId notification)) (_subscriptions (conn w)) = Some l ->
  subjects w !! l = Some s -> _value s = None ->
  js_get (key_of (subscriberId notification)) (_syncedSubscriptions (conn w)) = Some b ->
  subjects w !! b = Some sb ->
  closed sb = false -> isStopped sb = false -> _value sb = Some v0 ->
  (closed s = false -> isStopped s = true ->
     _onAtomReceivedNotification notification w
     = (Normal tt,
        set_trace (fun t =>
            t ++ deliveries (observers sb) (Next (SVSynced (isHead notification))))
          (set_subjects (fun hp =>
             <[b := with_value sb (Some (SVSynced (isHead notification)))]> hp) w)))
  /\ (closed s = true -> das <> [] ->
     _onAtomReceivedNotification notification w = (Throw ObjectUnsubscribedError, w)).
Proof.
  intros Hd Hk Hl Hv Hkb Hb Hcb Hsb Hvb.
  split.
  - intros Hc Hs.
    unfold _onAtomReceivedNotification. unfold bind at 1.
    rewrite (fromJSON_atoms_spec _ _ _ Hd).
    unfold bind at 1.
    rewrite (check_hids_spec [] _ _ _ Hd).
    unfold bind at 1, gets at 1. rewrite Hk.
    unfold bind at 1. rewrite (forward_stopped l das w s) by done.
    unfold bind at 1, gets at 1. rewrite Hkb.
    unfold bind at 1. simpl.
    by rewrite (next_behavior_live b _ v0 w sb).
  - intros Hc Hne.
    unfold _onAtomReceivedNotification. unfold bind at 1.
    rewrite (fromJSON_atoms_spec _ _ _ Hd).
    unfold bind at 1.
    rewrite (check_hids_spec [] _ _ _ Hd).
    unfold bind at 1, gets at 1. rewrite Hk.
    destruct das as [|a das]; [done|].
    unfold bind at 1. simpl. unfold bind at 1. unfold bind at 1. simpl.
    by rewrite (next_closed l _ w s).
Qed.

(** ** A state update and the other streams *)

Lemma only_stream_refl (l : nat) (w : World) : only_stream l w w.
Proof.
  constructor; try done.
  - intros s' Hs'. exists s'. auto.
  - exists []. split; [by rewrite app_nil_r|]. by intros d s [].
Qed.

Lemma only_stream_write (l : nat) (w0 w : World) (s s' : Subject) :
  only_stream l w0 w -> subjects w !! l = Some s ->
  observers s' = observers s \/ observers s' = [] ->
  only_stream l w0 (set_subjects (fun hp => <[l := s']> hp) w).
Proof.
  intros [] Hl Ho.
  assert (Hlt : l < length (subjects w)) by (by eapply lookup_lt_Some).
  constructor; simpl; try done.
  - intros l' Hne. rewrite list_lookup_insert_ne by done. auto.
  - intros s'' Hs''. rewrite list_lookup_insert_eq in Hs'' by done.
    injection Hs'' as <-.
    destruct (os_observers0 s Hl) as (s0 & Hs0 & Hobs). exists s0. split; [done|].
    destruct Ho as [->| ->]; auto.
Qed.

Lemma only_stream_notify (l : nat) (w0 w : World) (s : Subject) (n : Notif) :
  only_stream l w0 w -> subjects w !! l = Some s ->
  only_stream l w0 (set_trace (fun t => t ++ deliveries (observers s) n) w).
Proof.
  intros [] Hl. constructor; simpl; try done.
  destruct os_trace0 as (ds & Et & Hds).
  exists (ds ++ deliveries (observers s) n). split; [by rewrite Et, app_assoc|].
  intros d s0 Hin Hs0. apply in_app_iff in Hin as [Hin|Hin]; [by eapply Hds|].
  destruct (os_observers0 s Hl) as (s1 & Hs1 & Hobs).
  assert (s1 = s0) as -> by congruence.
  apply in_map_iff in Hin as (o & <- & Ho). simpl.
  destruct Hobs as [<-|E]; [done|]. rewrite E in Ho. destruct Ho.
Qed.

Lemma next_only_stream (l : nat) (v : StreamVal) (w0 : World) :
  preserves (only_stream l w0) (next l v).
Proof.
  intros w Hw. unfold exec, next, read_subject, write_subject, notify,
    bind, gets, modify, defined, ret.
  destruct (subjects w !! l) as [s|] eqn:Hl; simpl; [|done].
  assert (Hlt : l < length (subjects w)) by (by eapply lookup_lt_Some).
  destruct (_value s) as [v0|]; simpl.
  - rewrite list_lookup_insert_eq by done. simpl.
    pose proof (only_stream_write l w0 w s (with_value s (Some v)) Hw Hl (or_introl eq_refl))
      as Hw1.
    destruct (closed s); simpl; [done|]. destruct (isStopped s); simpl; [done|].
    apply (only_stream_notify l w0 _ (with_value s (Some v))); [done|].
    simpl. by rewrite list_lookup_insert_eq.
  - rewrite Hl. simpl.
    destruct (closed s); simpl; [done|]. destruct (isStopped s); simpl; [done|].
    by apply only_stream_notify.
Qed.

Lemma error_only_stream (l : nat) (err : JsVal) (w0 : World) :
  preserves (only_stream l w0) (error l err).
Proof.
  intros w Hw. unfold exec, error, read_subject, write_subject, notify,
    bind, gets, modify, defined, ret.
  destruct (subjects w !! l) as [s|] eqn:Hl; simpl; [|done].
  destruct (closed s); simpl; [done|].
  pose proof (only_stream_notify l w0 w s (Error err) Hw Hl) as Hw1.
  apply (only_stream_write l w0 _ s (failed_subject s err)) in Hw1; [done|done|by right].
Qed.

Lemma complete_only_stream (l : nat) (w0 : World) :
  preserves (only_stream l w0) (complete l).
Proof.
  intros w Hw. unfold exec, complete, read_subject, write_subject, notify,
    bind, gets, modify, defined, ret.
  destruct (subjects w !! l) as [s|] eqn:Hl; simpl; [|done].
  destruct (closed s); simpl; [done|].
  pose proof (only_stream_notify l w0 w s Complete Hw Hl) as Hw1.
  apply (only_stream_write l w0 _ s (completed_subject s)) in Hw1; [done|done|by right].
Qed.

(** X9: a state update touches one stream.  When a submission is
    registered under the subscriber identifier of the notification, the
    handler changes at most the stream of that submission and what its
    observers have been handed: every other subject, the tables, the timers,
    the calls in flight and the promises stay as they are.  When none is
    registered, nothing changes at all, and for the values that the handler
    has a case for it throws a TypeError. *)
Theorem state_update_touches_one_stream
    (notification : AtomSubmissionStateUpdateNotification) (w : World) :
  let w' := exec (_onAtomSubmissionStateUpdate notification) w in
  match js_get (key_of (subscriberId notification)) (_atomUpdateSubjects (conn w)) with
  | Some l => only_stream l w w'
  | None =>
      w' = w
      /\ (In (value notification) known_states ->
          fst (_onAtomSubmissionStateUpdate notification w) = Throw TypeError)
  end.
Proof.
  intros w'. subst w'.
  destruct (js_get (key_of (subscriberId notification)) (_atomUpdateSubjects (conn w)))
    as [l|] eqn:Hk.
  - unfold _onAtomSubmissionStateUpdate. rewrite exec_bind. unfold gets at 1.
    cbv zeta. rewrite Hk.
    assert (Hrefl := only_stream_refl l w).
    repeat match goal with
    | |- context [if ?b then _ else _] => destruct b
    end; try done.
    + rewrite exec_bind. simpl. by apply next_only_stream.
    + rewrite exec_bind. simpl.
      apply (preserves_bind (only_stream l w) (next l _) (fun _ => complete l));
        [apply next_only_stream|intros _; apply complete_only_stream|done].
    + rewrite exec_bind. simpl. by apply error_only_stream.
  - unfold exec, _onAtomSubmissionStateUpdate, bind, gets. cbv zeta. rewrite Hk.
    split.
    + repeat match goal with
      | |- context [if ?b then _ else _] => destruct b
      end; reflexivity.
    + unfold known_states, progress_states, failure_states. simpl.
      intros Hin.
      repeat match goal with
      | H : _ \/ _ |- _ => destruct H as [<-|H]
      | H : False |- _ => destruct H
      end; reflexivity.
Qed.

(** ** Properties of every world that the connection reaches *)

(** What the handlers of the events and the callbacks of the timers keep,
    every run keeps. *)
Lemma run_invariant (P : World -> Prop) :
  (forall ev, preserves P (handle ev)) ->
  (forall a, preserves P (run_callback a)) ->
  (forall w e, P w -> P (set_uncaught (fun es => es ++ [e]) w)) ->
  (forall w f, P w -> P (set_now f w)) ->
  (forall w tm, P w -> P (set_timers (timers_after tm) w)) ->
  forall evs w, P w -> P (run evs w).
Proof.
  intros Hh Hc Hu Hn Ht.
  assert (Hfire : forall tm w, P w -> P (task (fire tm) w)).
  { intros tm w Hw.
    apply (preserves_task _ (run_callback (callback tm))
             (set_timers (timers_after tm) (set_now (N.max (due tm)) w))); auto. }
  assert (Hrun : forall fuel t w, P w -> P (run_timers fuel t w)).
  { induction fuel as [|fuel IH]; intros t w Hw; simpl; [done|].
    destruct (next_timer (timers w)) as [tm|]; [|done].
    destruct (due tm <=? t)%N; [|done]. by apply IH, Hfire. }
  induction evs as [|te evs IH]; intros w Hw; simpl; [done|].
  apply IH. unfold deliver, step, advance.
  apply preserves_task; auto.
Qed.

Lemma reachable_invariant (P : World -> Prop) (w : World) :
  P new_connection ->
  (forall ev, preserves P (handle ev)) ->
  (forall a, preserves P (run_callback a)) ->
  (forall w e, P w -> P (set_uncaught (fun es => es ++ [e]) w)) ->
  (forall w f, P w -> P (set_now f w)) ->
  (forall w tm, P w -> P (set_timers (timers_after tm) w)) ->
  reachable w -> P w.
Proof. intros H0 Hh Hc Hu Hn Ht [evs ->]. by apply run_invariant. Qed.

Lemma reachable_is_well_formed (w : World) : reachable w -> well_formed w.
Proof. intros [evs ->]. apply run_well_formed, well_formed_new_connection. Qed.

(** *** Subscriber identifiers *)

Lemma issued_later (last : N) (k : string) :
  issued last k -> issued (last + 1) k.
Proof. intros (n & -> & Hn). exists n. split; [done|lia]. Qed.

Lemma issued_next (last : N) : (1 <= last)%N -> issued (last + 1) (key_of (last + 1)).
Proof. intros Hl. exists (last + 1)%N. split; [done|lia]. Qed.


Lemma pretty_N_go_head (x : N) (s : string) :
  (0 < x)%N ->
  exists d rest, (d < 10)%N /\ pretty_N_go x s = String (pretty_N_char d) rest.
Proof.
  revert s. induction (N.lt_wf_0 x) as [x _ IH]; intros s Hx.
  rewrite pretty_N_go_step by done.
  destruct (decide (x `div` 10 = 0)%N) as [E|Hne].
  - rewrite E, pretty_N_go_0. exists (x `mod` 10)%N. eexists. split; [|done].
    by apply N.mod_lt.
  - apply IH.
    + apply N.div_lt; lia.
    + generalize dependent (x `div` 10)%N. intros; lia.
Qed.

Lemma key_of_head (n : N) :
  exists d rest, (d < 10)%N /\ key_of n = String (pretty_N_char d) rest.
Proof.
  unfold key_of, pretty, pretty_N.
  destruct (decide (n = 0)%N) as [->|Hne].
  - exists 0%N. eexists. split; [lia|done].
  - apply pretty_N_go_head. lia.
Qed.

(** No subscriber identifier reads "undefined". *)
Lemma key_of_not_undefined (n : N) : key_of n <> "undefined".
Proof.
  destruct (key_of_head n) as (d & rest & Hd & ->). intros [= E _].
  assert (Hcases : (d = 0 \/ d = 1 \/ d = 2 \/ d = 3 \/ d = 4 \/ d = 5 \/ d = 6
                    \/ d = 7 \/ d = 8 \/ d = 9)%N) by lia.
  repeat (destruct Hcases as [Hd0|Hcases]; [by subst d|]). by subst d.
Qed.

Lemma issued_not_undefined (last : N) (k : string) : issued last k -> k <> "undefined".
Proof. intros (n & -> & _). apply key_of_not_undefined. Qed.

Lemma ids_issued_new_connection : ids_issued new_connection.
Proof. constructor; simpl; [lia|constructor..]. Qed.

(** For a change of fields that the identifiers do not depend on. *)
Ltac ids_same :=
  let w := fresh "w" in
  let Hw := fresh "Hw" in
  intros w Hw; destruct Hw; constructor; simpl; auto using Forall_js_delete.

Lemma ids_next_subscriber (w : World) :
  ids_issued w ->
  ids_issued (set_conn (fun c => set_lastSubscriberId (lastSubscriberId c + 1)%N c) w).
Proof.
  intros [H0 H1 H2 H3 H4]. constructor; simpl; [lia|..].
  all: eapply Forall_impl; [eassumption|]; intros e He; by apply issued_later.
Qed.

Lemma ids_set_subscriptions (w : World) (k : string) (l : nat) :
  ids_issued w -> issued (lastSubscriberId (conn w)) k ->
  ids_issued (set_conn (set__subscriptions (js_set k l)) w).
Proof. intros [] Hk. constructor; simpl; auto. by apply Forall_js_set. Qed.

Lemma ids_set_atomUpdateSubjects (w : World) (k : string) (l : nat) :
  ids_issued w -> issued (lastSubscriberId (conn w)) k ->
  ids_issued (set_conn (set__atomUpdateSubjects (js_set k l)) w).
Proof. intros [] Hk. constructor; simpl; auto. by apply Forall_js_set. Qed.

Lemma ids_set_syncedSubscriptions (w : World) (k : string) (l : nat) :
  ids_issued w -> issued (lastSubscriberId (conn w)) k ->
  ids_issued (set_conn (set__syncedSubscriptions (js_set k l)) w).
Proof. intros [] Hk. constructor; simpl; auto. by apply Forall_js_set. Qed.

Lemma ids_set_addressSubscriptions (w : World) (address k : string) :
  ids_issued w -> issued (lastSubscriberId (conn w)) k ->
  ids_issued (set_conn (set__addressSubscriptions (js_set address k)) w).
Proof. intros [] Hk. constructor; simpl; auto. by apply Forall_js_set. Qed.

Lemma ids_set_subjects (w : World) (f : list Subject -> list Subject) :
  ids_issued w -> ids_issued (set_subjects f w).
Proof. revert w. ids_same. Qed.

Lemma before_subscribe_call_ids (address : string) (w : World) :
  ids_issued w -> ids_issued (before_subscribe_call address w).
Proof.
  intros Hw. pose proof (ids_first w Hw) as H0. unfold before_subscribe_call.
  apply ids_set_syncedSubscriptions; [|by apply issued_next].
  apply ids_set_subjects.
  apply ids_set_subscriptions; [|by apply issued_next].
  apply ids_set_subjects.
  apply ids_set_addressSubscriptions; [|by apply issued_next].
  by apply ids_next_subscriber.
Qed.

Lemma subscribe_ids_issued (address : string) :
  preserves ids_issued (subscribe address).
Proof.
  intros w Hw.
  assert (Hrun : exec (subscribe address) w = before_subscribe_call address w
               \/ exec (subscribe address) w = after_subscribe address w).
  { unfold exec, subscribe, getSubscriberId, new_subject, socket_call, the_socket,
      bind, gets, modify, ret, defined. simpl.
    unfold after_subscribe, before_subscribe_call.
    destruct (_socket (conn w)); simpl; rewrite ?length_app; simpl;
      [right|left]; reflexivity. }
  pose proof (before_subscribe_call_ids address w Hw) as Hb.
  destruct Hrun as [->| ->]; [done|].
  unfold after_subscribe. revert Hb.
  generalize (before_subscribe_call address w). ids_same.
Qed.

Lemma before_submit_call_ids (w : World) :
  ids_issued w -> ids_issued (before_submit_call w).
Proof.
  intros Hw. pose proof (ids_first w Hw) as H0. unfold before_submit_call.
  assert (H1 : ids_issued
                 (set_conn (set__atomUpdateSubjects
                      (js_set (key_of (lastSubscriberId (conn w) + 1)) (length (subjects w))))
                    (set_subjects (fun hp => hp ++ [created_subject])
                      (set_conn (fun c => set_lastSubscriberId (lastSubscriberId c + 1)%N c)
                         w)))).
  { apply ids_set_atomUpdateSubjects; [|by apply issued_next].
    by apply ids_set_subjects, ids_next_subscriber. }
  revert H1. generalize (set_conn (set__atomUpdateSubjects
                      (js_set (key_of (lastSubscriberId (conn w) + 1)) (length (subjects w))))
                    (set_subjects (fun hp => hp ++ [created_subject])
                      (set_conn (fun c => set_lastSubscriberId (lastSubscriberId c + 1)%N c)
                         w))).
  ids_same.
Qed.

Lemma submitAtom_ids_issued (a : Atom) : preserves ids_issued (submitAtom a).
Proof.
  intros w Hw.
  assert (Hrun : exec (submitAtom a) w = before_submit_call w
               \/ exec (submitAtom a) w = after_submitAtom a w).
  { unfold exec, submitAtom, getSubscriberId, new_subject, setTimeout, set_timer,
      socket_call, the_socket, bind, gets, modify, ret, defined. simpl.
    destruct (_socket (conn w)); simpl; [right|left]; reflexivity. }
  pose proof (before_submit_call_ids w Hw) as Hb.
  destruct Hrun as [->| ->]; [done|].
  unfold after_submitAtom. revert Hb. generalize (before_submit_call w). ids_same.
Qed.

(** The operations that take no identifier, down to [modify]. *)
Ltac unfold_other_operations :=
  unfold on_open_timeout, on_submit_timeout, ping, isReady, on_socket_open,
    on_socket_error, openConnection, unsubscribe, unsubscribeAll, isSynced,
    getAtomById, close, _onClosed, close_subject, _onAtomSubmissionStateUpdate,
    _onAtomReceivedNotification, check_hid, on_settled, take_pending, set_ready,
    socket_call, socket_close, the_socket, emit, resolve, reject, settle, notify_all,
    settle_one, Promise_all, new_promise, setTimeout, setInterval, set_timer,
    clearTimeout, clearInterval, clear_timer, subscribe_observer,
    unsubscribe_subject, complete, error, next, notify, write_subject, read_subject,
    run_callback.

Ltac ids_step :=
  first
    [ match goal with
      | |- preserves _ (subscribe _) => apply subscribe_ids_issued
      | |- preserves _ (submitAtom _) => apply submitAtom_ids_issued
      | |- preserves _ (fromJSON_atoms _) => apply fromJSON_atoms_pure
      | |- preserves _ (modify _) => apply preserves_modify; ids_same
      end
    | progress unfold_other_operations
    | apply preserves_ret
    | apply preserves_throw
    | apply preserves_gets
    | apply preserves_lift_completion
    | apply preserves_defined
    | apply preserves_bind; [|intros ?]
    | apply preserves_try_catch; [|intros ?]
    | apply preserves_for_each; intros ?
    | apply preserves_for_each_indexed; intros ? ?
    | match goal with
      | |- preserves _ (if ?b then _ else _) => destruct b
      | |- preserves _ (match ?x with _ => _ end) => destruct x
      end ].

Lemma unsubscribe_each_ids_issued (addresses : list string) :
  preserves ids_issued (unsubscribe_each addresses).
Proof.
  induction addresses as [|address rest IH]; simpl.
  - apply preserves_ret.
  - apply preserves_bind; [repeat ids_step|intros p].
    apply preserves_bind; [exact IH|intros ps]. apply preserves_ret.
Qed.

Lemma handle_ids_issued (ev : Event) : preserves ids_issued (handle ev).
Proof.
  destruct ev; unfold handle.
  all: try (apply preserves_bind; [unfold unsubscribeAll|intros ?; apply preserves_ret];
            apply preserves_bind; [apply preserves_gets|intros ?];
            apply preserves_bind; [apply unsubscribe_each_ids_issued|intros ?]).
  all: repeat ids_step.
Qed.

Lemma run_callback_ids_issued (a : TimerAction) : preserves ids_issued (run_callback a).
Proof. destruct a; repeat ids_step. Qed.

Lemma reachable_ids_issued (w : World) : reachable w -> ids_issued w.
Proof.
  apply reachable_invariant.
  - apply ids_issued_new_connection.
  - apply handle_ids_issued.
  - apply run_callback_ids_issued.
  - intros w0 e. revert w0. ids_same.
  - intros w0 f. revert w0. ids_same.
  - intros w0 tm. revert w0. ids_same.
Qed.

Lemma js_get_absent {V} (Q : string -> Prop) (k : string) (o : JsObject V) :
  Forall (fun e => Q e.1) o -> ~ Q k -> js_get k o = None.
Proof.
  intros Ho Hk. destruct (js_get k o) as [v|] eqn:E; [|done].
  apply js_get_In in E. rewrite Forall_forall in Ho.
  exfalso. apply Hk. by apply (Ho (k, v)), list_elem_of_In.
Qed.



(** X11: [isSynced] of an address that has no subscription, in any world
    that the connection reaches, returns [undefined] and changes nothing:
    the lookup under the missing identifier finds no sync channel. *)
Theorem isSynced_of_an_unknown_address (address : string) (w : World) :
  reachable w ->
  js_get address (_addressSubscriptions (conn w)) = None ->
  isSynced address w = (Normal None, w).
Proof.
  intros Hr Ha. destruct (reachable_ids_issued w Hr) as [H0 H1 H2 H3 H4].
  unfold isSynced, bind, gets, ret, lookup_optional_key. rewrite Ha. simpl.
  do 2 f_equal. eapply js_get_absent; [exact H3|].
  intros Hi. by apply issued_not_undefined in Hi.
Qed.

Lemma key_of_inj (m n : N) : key_of m = key_of n -> m = n.
Proof. unfold key_of. apply (inj pretty). Qed.








(** ** The close event *)

Lemma targets_spec (table : JsObject nat) (l : nat) :
  In l (targets table) <-> exists k, js_get k table = Some l.
Proof.
  unfold targets, js_keys. rewrite <- list_elem_of_In, list_elem_of_omap. split.
  - intros (k & _ & Hk). eauto.
  - intros (k & Hk). exists k. split; [|done].
    apply js_get_In in Hk. apply list_elem_of_In, in_map_iff. by exists (k, l).
Qed.

Lemma close_subject_spec (table : JsObject nat) (k : string) (l : nat) (w : World) :
  js_get k table = Some l -> l < length (subjects w) ->
  close_subject table k w = (Normal tt, fail_open socket_closed w l).
Proof.
  intros Hk Hl. destruct (lookup_lt_is_Some_2 _ _ Hl) as [s Hs].
  unfold close_subject, read_subject. unfold bind, defined, gets.
  rewrite Hk. simpl. unfold fail_open. rewrite Hs. simpl. destruct (closed s) eqn:Hc; simpl; [done|].
  by rewrite (error_spec l _ w s Hs Hc).
Qed.

Lemma fail_open_length (err : JsVal) (w : World) (l : nat) :
  length (subjects (fail_open err w l)) = length (subjects w).
Proof.
  unfold fail_open. destruct (subjects w !! l) as [s|]; [|done].
  destruct (closed s); [done|]. simpl. by rewrite length_insert.
Qed.

Lemma close_loop_spec (table : JsObject nat) (keys : list string) (w : World) :
  Forall (fun k => exists l, js_get k table = Some l /\ l < length (subjects w)) keys ->
  for_each keys (close_subject table) w
  = (Normal tt, fail_all socket_closed (omap (fun k => js_get k table) keys) w).
Proof.
  revert w. induction keys as [|k keys IH]; intros w Hk; simpl; [done|].
  inversion Hk as [|? ? (l & Hl & Hlt) Hrest]; subst.
  unfold bind. rewrite (close_subject_spec table k l w Hl Hlt). rewrite Hl. simpl.
  rewrite IH; [done|]. eapply Forall_impl; [exact Hrest|].
  intros k' (l' & Hl' & Hlt'). exists l'. by rewrite fail_open_length.
Qed.

Lemma table_loop_spec (table : JsObject nat) (w : World) :
  Forall (fun e => e.2 < length (subjects w)) table ->
  for_each (js_keys table) (close_subject table) w
  = (Normal tt, fail_all socket_closed (targets table) w).
Proof.
  intros Ht. apply close_loop_spec. apply Forall_forall. intros k Hk.
  unfold js_keys in Hk. apply list_elem_of_In, in_map_iff in Hk as ([k' v] & <- & Hin).
  simpl.
  destruct (js_get k' table) as [l|] eqn:E.
  - exists l. split; [done|]. apply js_get_In in E.
    rewrite Forall_forall in Ht. by apply (Ht (k', l)), list_elem_of_In.
  - exfalso. clear Ht. induction table as [|[k0 v0] table IH]; [done|].
    simpl in E. destruct (String.eqb_spec k' k0) as [->|Hne]; [done|].
    destruct Hin as [[= <- <-]|Hin]; [done|]. by apply IH.
Qed.

Lemma fail_all_length (err : JsVal) (ls : list nat) (w : World) :
  length (subjects (fail_all err ls w)) = length (subjects w).
Proof.
  revert w. induction ls as [|l ls IH]; intros w; simpl; [done|].
  unfold fail_all in *. simpl. by rewrite IH, fail_open_length.
Qed.

Lemma fail_all_app (err : JsVal) (ls ls' : list nat) (w : World) :
  fail_all err (ls ++ ls') w = fail_all err ls' (fail_all err ls w).
Proof. unfold fail_all. apply foldl_app. Qed.

(** What [fail_open] leaves alone. *)
Lemma fail_open_frame (err : JsVal) (w : World) (l : nat) :
  let w' := fail_open err w l in
  conn w' = conn w /\ observerCount w' = observerCount w /\ now w' = now w
  /\ timers w' = timers w /\ timerCount w' = timerCount w /\ outbox w' = outbox w
  /\ pending w' = pending w /\ promises w' = promises w /\ alls w' = alls w
  /\ emitted w' = emitted w /\ uncaught w' = uncaught w.
Proof.
  unfold fail_open. destruct (subjects w !! l) as [s|]; [|done]. by destruct (closed s).
Qed.

Lemma fail_all_frame (err : JsVal) (ls : list nat) (w : World) :
  let w' := fail_all err ls w in
  conn w' = conn w /\ observerCount w' = observerCount w /\ now w' = now w
  /\ timers w' = timers w /\ timerCount w' = timerCount w /\ outbox w' = outbox w
  /\ pending w' = pending w /\ promises w' = promises w /\ alls w' = alls w
  /\ emitted w' = emitted w /\ uncaught w' = uncaught w.
Proof.
  revert w. induction ls as [|l ls IH]; intros w; [done|].
  pose proof (IH (fail_open err w l)) as H1. pose proof (fail_open_frame err w l) as H2.
  unfold fail_all in *. simpl in *.
  destruct H1 as (-> & -> & -> & -> & -> & -> & -> & -> & -> & -> & ->).
  exact H2.
Qed.

Lemma fail_open_subject (err : JsVal) (w : World) (l l' : nat) (s : Subject) :
  subjects w !! l' = Some s ->
  subjects (fail_open err w l) !! l'
  = Some (if decide (l' = l) then (if closed s then s else failed_subject s err) else s).
Proof.
  intros Hs. unfold fail_open. destruct (decide (l' = l)) as [->|Hne].
  - rewrite Hs. destruct (closed s); [done|]. simpl.
    apply list_lookup_insert_eq. by eapply lookup_lt_Some.
  - destruct (subjects w !! l) as [s0|]; [|done]. destruct (closed s0); [done|].
    simpl. by rewrite list_lookup_insert_ne.
Qed.

(** The subjects after the loop: the open ones that it came by have failed,
    the others are as they were. *)
Lemma fail_all_subject (err : JsVal) (ls : list nat) (w : World) (l : nat) (s : Subject) :
  subjects w !! l = Some s ->
  subjects (fail_all err ls w) !! l
  = Some (if decide (l ∈ ls /\ closed s = false) then failed_subject s err else s).
Proof.
  revert w s. induction ls as [|a ls IH]; intros w s Hs.
  - destruct (decide (l ∈ [] /\ closed s = false)) as [[Hin _]|_]; [|exact Hs].
    by apply elem_of_nil in Hin.
  - unfold fail_all in *. cbn [foldl].
    rewrite (IH _ _ (fail_open_subject err w a l s Hs)).
    f_equal. destruct (decide (l = a)) as [->|Hne].
    + destruct (closed s) eqn:Hc.
      * rewrite Hc. destruct (decide _) as [[_ ?]|_]; [done|].
        destruct (decide _) as [[_ ?]|_]; done.
      * destruct (decide (a ∈ a :: ls /\ false = false)) as [_|Hn].
        -- by destruct (decide _).
        -- exfalso. apply Hn. split; [by left|done].
    + destruct (decide (l ∈ ls /\ closed s = false)) as [[Hin Hc]|Hn].
      * destruct (decide _) as [_|Hn']; [done|]. exfalso. apply Hn'. split; [by right|done].
      * destruct (decide _) as [[Hin Hc]|_]; [|done].
        apply elem_of_cons in Hin as [?|Hin]; [done|]. exfalso. by apply Hn.
Qed.

Lemma fail_open_trace (err : JsVal) (w : World) (l : nat) :
  exists ds, trace (fail_open err w l) = trace w ++ ds
    /\ forall d, In d ds <->
         d.2 = Error err
         /\ exists s, subjects w !! l = Some s /\ closed s = false /\ In d.1 (observers s).
Proof.
  unfold fail_open. destruct (subjects w !! l) as [s|] eqn:Hs.
  - destruct (closed s) eqn:Hc.
    + exists []. split; [by rewrite app_nil_r|]. intros d. split; [done|].
      intros (_ & s' & [= <-] & Hc' & _). congruence.
    + exists (deliveries (observers s) (Error err)). split; [done|].
      intros [o n]. unfold deliveries. rewrite in_map_iff. simpl. split.
      * intros (o' & [= <- <-] & Ho). split; [done|]. by exists s.
      * intros (-> & s' & [= <-] & _ & Ho). by exists o.
  - exists []. split; [by rewrite app_nil_r|]. intros d. split; [done|].
    by intros (_ & s' & [=] & _).
Qed.

(** What the loop hands out: the error, once to each observer of each open
    subject that it comes by. *)
Lemma fail_all_trace (err : JsVal) (ls : list nat) (w : World) :
  exists ds, trace (fail_all err ls w) = trace w ++ ds
    /\ forall d, In d ds <->
         d.2 = Error err
         /\ exists l s, In l ls /\ subjects w !! l = Some s /\ closed s = false
                        /\ In d.1 (observers s).
Proof.
  revert w. induction ls as [|a ls IH]; intros w.
  - exists []. split; [by rewrite app_nil_r|]. intros d. split; [done|].
    by intros (_ & l & s & [] & _).
  - destruct (fail_open_trace err w a) as (ds1 & Ht1 & Hd1).
    destruct (IH (fail_open err w a)) as (ds2 & Ht2 & Hd2).
    exists (ds1 ++ ds2). unfold fail_all in *. simpl. split.
    { by rewrite Ht2, Ht1, app_assoc. }
    intros d. rewrite in_app_iff, Hd1, Hd2. split.
    + intros [(Hn & s & Hs & Hc & Ho)|(Hn & l & s' & Hl & Hs' & Hc' & Ho')].
      * split; [done|]. exists a, s. split; [by left|done].
      * split; [done|]. destruct (subjects w !! l) as [s|] eqn:Hs.
        -- rewrite (fail_open_subject err w a l s Hs) in Hs'.
           destruct (decide (l = a)) as [->|Hne].
           ++ destruct (closed s) eqn:Hc; injection Hs' as <-; [congruence|].
              simpl in Ho'. destruct Ho'.
           ++ injection Hs' as <-. exists l, s. split; [by right|done].
        -- exfalso. apply lookup_ge_None in Hs. apply lookup_lt_Some in Hs'.
           rewrite fail_open_length in Hs'. lia.
    + intros (Hn & l & s & [<-|Hl] & Hs & Hc & Ho).
      * left. split; [done|]. by exists s.
      * destruct (decide (l = a)) as [->|Hne].
        -- left. split; [done|]. by exists s.
        -- right. split; [done|]. exists l, s. split; [done|]. split; [|done].
           rewrite (fail_open_subject err w a l s Hs). by destruct (decide (l = a)).
Qed.

Lemma _onClosed_spec (w : World) :
  well_formed w ->
  _onClosed w
  = (Normal tt,
     set_emitted (fun es => es ++ ["closed"])
       (fail_all socket_closed
          (targets (_subscriptions (conn w)) ++ targets (_atomUpdateSubjects (conn w)))
          (set_timers (fun ts => filter (fun t => Some (tid t) <> pingInterval (conn w)) ts)
             w))).
Proof.
  intros Hw. unfold _onClosed, clearInterval, clear_timer, emit.
  unfold bind at 1, gets at 1. unfold bind at 1, modify at 1.
  set (w1 := set_timers _ w).
  unfold bind at 1. rewrite (table_loop_spec (_subscriptions (conn w)) w1)
    by apply (wf_subscriptions w Hw).
  unfold bind at 1. rewrite (table_loop_spec (_atomUpdateSubjects (conn w)) _).
  - unfold modify. by rewrite fail_all_app.
  - rewrite fail_all_length. apply (wf_atomUpdateSubjects w Hw).
Qed.

Lemma _onClosed_outcome (w : World) :
  well_formed w ->
  let w' := exec _onClosed w in
  fst (_onClosed w) = Normal tt
  /\ conn w' = conn w
  /\ emitted w' = emitted w ++ ["closed"]
  /\ timers w' = filter (fun t => Some (tid t) <> pingInterval (conn w)) (timers w)
  /\ outbox w' = outbox w /\ pending w' = pending w /\ promises w' = promises w
  /\ (forall l s, subjects w !! l = Some s -> registered w l -> closed s = false ->
        subjects w' !! l = Some (failed_subject s socket_closed))
  /\ (forall l s, subjects w !! l = Some s -> ~ registered w l \/ closed s = true ->
        subjects w' !! l = Some s)
  /\ exists ds, trace w' = trace w ++ ds
       /\ forall d, In d ds <->
            d.2 = Error socket_closed
            /\ exists l s, registered w l /\ subjects w !! l = Some s
                           /\ closed s = false /\ In d.1 (observers s).
Proof.
  intros Hw w'. unfold w', exec. rewrite (_onClosed_spec w Hw). cbn [fst snd].
  set (ls := targets (_subscriptions (conn w)) ++ targets (_atomUpdateSubjects (conn w))).
  set (w1 := set_timers _ w).
  assert (Hls : forall l, In l ls <-> registered w l).
  { intros l. unfold ls, registered. rewrite in_app_iff, !targets_spec.
    split; [intros [[k Hk]|[k Hk]]; exists k; auto|].
    intros [k [Hk|Hk]]; [left|right]; by exists k. }
  destruct (fail_all_frame socket_closed ls w1)
    as (Hc & _ & _ & Ht & _ & Ho & Hp & Hpr & _ & He & _).
  split; [done|]. split; [exact Hc|]. split; [simpl; by rewrite He|].
  split; [exact Ht|]. split; [exact Ho|]. split; [exact Hp|]. split; [exact Hpr|].
  split; [|split].
  - intros l s Hs Hr Hcl. simpl.
    rewrite (fail_all_subject socket_closed ls w1 l s Hs).
    destruct (decide _) as [_|Hn]; [done|].
    exfalso. apply Hn. split; [|done]. by apply list_elem_of_In, Hls.
  - intros l s Hs Hor. simpl.
    rewrite (fail_all_subject socket_closed ls w1 l s Hs).
    destruct (decide _) as [[Hin Hcl]|_]; [|done].
    destruct Hor as [Hn|Hcl']; [|congruence].
    exfalso. by apply Hn, Hls, list_elem_of_In.
  - destruct (fail_all_trace socket_closed ls w1) as (ds & Htr & Hds).
    exists ds. split; [exact Htr|]. intros d. rewrite Hds. split.
    + intros (Hn & l & s & Hl & Hs & Hcl & Hob). split; [done|].
      exists l, s. split; [by apply Hls|done].
    + intros (Hn & l & s & Hl & Hs & Hcl & Hob). split; [done|].
      exists l, s. split; [by apply Hls|done].
Qed.


Lemma classic_registered (w : World) (l : nat) : registered w l \/ ~ registered w l.
Proof.
  destruct (decide (l ∈ targets (_subscriptions (conn w))
                         ++ targets (_atomUpdateSubjects (conn w)))) as [Hin|Hn].
  - left. apply elem_of_app in Hin as [Hin|Hin]; apply list_elem_of_In, targets_spec in Hin;
      destruct Hin as [k Hk]; exists k; auto.
  - right. intros [k [Hk|Hk]]; apply Hn, elem_of_app; [left|right];
      apply list_elem_of_In, targets_spec; by exists k.
Qed.

(** X13: the close event of the socket, in a world where the tables refer
    to subjects that exist.  The handler returns; it fails, with
    'Socket closed', every delivery channel and every submission stream
    that is registered and has not been unsubscribed, and hands that error
    to each of their observers; every other subject, the sync channels among
    them, stays as it was.  It emits 'closed' and clears the ping interval.
    It removes nothing from the tables, and the calls in flight and the
    promises are left as they are. *)
Theorem close_event_fails_the_open_streams (w : World) :
  well_formed w ->
  let w' := exec _onClosed w in
  fst (_onClosed w) = Normal tt
  /\ conn w' = conn w
  /\ emitted w' = emitted w ++ ["closed"]
  /\ timers w' = filter (fun t => Some (tid t) <> pingInterval (conn w)) (timers w)
  /\ outbox w' = outbox w /\ pending w' = pending w /\ promises w' = promises w
  /\ (forall l s, subjects w !! l = Some s -> registered w l -> closed s = false ->
        subjects w' !! l = Some (failed_subject s socket_closed))
  /\ (forall l s, subjects w !! l = Some s -> ~ registered w l \/ closed s = true ->
        subjects w' !! l = Some s)
  /\ exists ds, trace w' = trace w ++ ds
       /\ forall d, In d ds <->
            d.2 = Error socket_closed
            /\ exists l s, registered w l /\ subjects w !! l = Some s
                           /\ closed s = false /\ In d.1 (observers s).
Proof. exact (_onClosed_outcome w). Qed.

(** X14: a second close event finds nothing left to do to the streams: after
    [_onClosed] another [_onClosed] returns, hands no observer anything and
    leaves every subject as the first one left it; it only emits 'closed'
    once more. *)
Theorem second_close_event_is_quiet (w : World) :
  well_formed w ->
  let w1 := exec _onClosed w in
  let w2 := exec _onClosed w1 in
  fst (_onClosed w1) = Normal tt
  /\ subjects w2 = subjects w1
  /\ trace w2 = trace w1
  /\ conn w2 = conn w1 /\ timers w2 = timers w1
  /\ emitted w2 = emitted w ++ ["closed"; "closed"].
Proof.
  intros Hw w1 w2.
  assert (Hw1 : well_formed w1) by (by apply _onClosed_well_formed).
  destruct (_onClosed_outcome w Hw)
    as (_ & Hc & He & Ht & _ & _ & _ & Hopen & Hkeep & _).
  destruct (_onClosed_outcome w1 Hw1)
    as (Hret & Hc2 & He2 & Ht2 & _ & _ & _ & Hopen2 & Hkeep2 & ds & Htr & Hds).
  fold w1 in Hc, He, Ht, Hopen, Hkeep. fold w2 in Hc2, He2, Ht2, Hopen2, Hkeep2, Htr.
  assert (Hquiet : forall l s, registered w1 l -> subjects w1 !! l = Some s ->
                     closed s = false -> observers s = [] /\ failed_subject s socket_closed = s).
  { intros l s Hr Hs Hcl.
    assert (Hr0 : registered w l) by (unfold registered in *; by rewrite <- Hc).
    destruct (subjects w !! l) as [s0|] eqn:Hs0.
    - destruct (closed s0) eqn:Hcl0.
      + rewrite (Hkeep l s0 Hs0 (or_intror Hcl0)) in Hs. congruence.
      + rewrite (Hopen l s0 Hs0 Hr0 Hcl0) in Hs. injection Hs as <-. done.
    - exfalso. apply lookup_ge_None in Hs0. apply lookup_lt_Some in Hs.
      unfold w1, exec in Hs. rewrite (_onClosed_spec w Hw) in Hs. cbn [snd] in Hs.
      simpl in Hs. rewrite fail_all_length in Hs. simpl in Hs. lia. }
  split; [exact Hret|]. split; [|split; [|split; [exact Hc2|split]]].
  - apply list_eq. intros l. destruct (subjects w1 !! l) as [s|] eqn:Hs.
    + destruct (closed s) eqn:Hcl; [by apply Hkeep2; auto|].
      destruct (classic_registered w1 l) as [Hr|Hn]; [|by apply Hkeep2; auto].
      rewrite (Hopen2 l s Hs Hr Hcl). f_equal. by apply (Hquiet l s).
    + apply lookup_ge_None. apply lookup_ge_None in Hs.
      unfold w2, exec. rewrite (_onClosed_spec w1 Hw1). cbn [snd]. simpl.
      rewrite fail_all_length. simpl. lia.
  - rewrite Htr. destruct ds as [|d ds]; [by rewrite app_nil_r|].
    exfalso. destruct (proj1 (Hds d) (or_introl eq_refl)) as (_ & l & s & Hr & Hs & Hcl & Hob).
    destruct (Hquiet l s Hr Hs Hcl) as [Hnil _]. rewrite Hnil in Hob. destruct Hob.
  - rewrite Ht2, Ht, Hc. rewrite list_filter_filter. apply list_filter_iff.
    intros t. tauto.
  - rewrite He2, He. by rewrite <- app_assoc.
Qed.

(** ** The promises that are referred to *)

Lemma keeps_for_each_In {A} (P : World -> Prop) (xs : list A) (f : A -> M unit) :
  (forall x, In x xs -> keeps P (f x) (fun _ => True)) ->
  keeps P (for_each xs f) (fun _ => True).
Proof.
  induction xs as [|x xs IH]; intros Hf; simpl.
  - eapply keeps_weaken; [apply keeps_ret|done].
  - eapply keeps_bind; [apply Hf; by left|]. intros _ _. apply IH.
    intros y Hy. apply Hf. by right.
Qed.

Lemma pkw_frame (qs : list nat) (w w' : World) :
  promises_known_with qs w ->
  length (promises w) <= length (promises w') ->
  pending w' = pending w -> alls w' = alls w -> timers w' = timers w ->
  promises_known_with qs w'.
Proof.
  intros [[H1 H2 H3] Hq] Hl Ep Ea Et. split; [constructor|]; rewrite ?Ep, ?Ea, ?Et.
  - eapply Forall_impl; [exact H1|]. intros e He q Hk. specialize (He q Hk). lia.
  - eapply Forall_impl; [exact H2|]. intros e He. simpl in He. lia.
  - eapply Forall_impl; [exact H3|]. intros e He q Hk. specialize (He q Hk). lia.
  - eapply Forall_impl; [exact Hq|]. intros q Hlt. simpl in Hlt. lia.
Qed.

Lemma pkw_pending_more (qs : list nat) (w : World) (cid : nat) (k : Kont) :
  (forall q, kont_promise k = Some q -> In q qs) -> promises_known_with qs w ->
  promises_known_with qs (set_pending (fun pd => pd ++ [(cid, k)]) w).
Proof.
  intros Hk [[H1 H2 H3] Hq]. split; [constructor|]; simpl; auto.
  apply Forall_app. split; [done|]. constructor; [|constructor].
  intros q Eq. simpl in Eq. rewrite Forall_forall in Hq.
  by apply Hq, list_elem_of_In, Hk.
Qed.

Lemma pkw_pending_less (qs : list nat) (w : World) (cid : nat) :
  promises_known_with qs w -> promises_known_with qs (set_pending (fun pd => filter (fun e => e.1 <> cid) pd) w).
Proof.
  intros [[H1 H2 H3] Hq]. split; [constructor|]; simpl; auto.
  by apply Forall_filter_keeps.
Qed.

Lemma pkw_alls_more (qs : list nat) (w : World) (inputs : list nat) (target : nat) :
  In target qs -> promises_known_with qs w -> promises_known_with qs (set_alls (fun ws => ws ++ [(inputs, target)]) w).
Proof.
  intros Ht [[H1 H2 H3] Hq]. split; [constructor|]; simpl; auto.
  apply Forall_app. split; [done|]. constructor; [|constructor].
  simpl. rewrite Forall_forall in Hq. by apply Hq, list_elem_of_In.
Qed.

Lemma pkw_timers_more (qs : list nat) (w : World) (x : Timer) :
  (forall q, callback x = OpenTimeout q -> In q qs) -> promises_known_with qs w ->
  promises_known_with qs (set_timers (fun ts => ts ++ [x]) w).
Proof.
  intros Hx [[H1 H2 H3] Hq]. split; [constructor|]; simpl; auto.
  apply Forall_app. split; [done|]. constructor; [|constructor].
  intros q Eq. rewrite Forall_forall in Hq. by apply Hq, list_elem_of_In, Hx.
Qed.

Lemma pkw_timers_less (qs : list nat) (w : World) (id : option nat) :
  promises_known_with qs w -> promises_known_with qs (set_timers (fun ts => filter (fun t => Some (tid t) <> id) ts) w).
Proof.
  intros [[H1 H2 H3] Hq]. split; [constructor|]; simpl; auto.
  by apply Forall_filter_keeps.
Qed.

Ltac pk_side :=
  simpl;
  first
    [ done
    | lia
    | by intros ? [=]
    | intros ? [= <-]; simpl; tauto
    | simpl; tauto ].

Ltac pk_modify :=
  let w := fresh "w" in
  let Hw := fresh "Hw" in
  intros w Hw;
  first
    [ apply pkw_pending_more; [pk_side|exact Hw]
    | apply pkw_pending_less; exact Hw
    | apply pkw_alls_more; [pk_side|exact Hw]
    | apply pkw_timers_more; [pk_side|exact Hw]
    | apply pkw_timers_less; exact Hw
    | eapply pkw_frame;
        [exact Hw|simpl; rewrite ?length_app, ?length_insert; first [reflexivity|lia]..] ].

(** A promise that is made is known from then on. *)
Lemma pkw_new_promise {B} (qs : list nat) (k : nat -> M B) (Q : B -> Prop) :
  (forall q, keeps (promises_known_with (q :: qs)) (k q) Q) ->
  keeps (promises_known_with qs) (bind new_promise k) Q.
Proof.
  intros Hk w [Hpk Hqs].
  set (q := length (promises w)).
  set (w' := set_promises (fun ps => ps ++ [Pending]) w).
  assert (Hw' : promises_known_with (q :: qs) w').
  { assert (Hmore : promises_known_with qs w').
    { eapply pkw_frame; [by split|simpl; rewrite length_app; lia|reflexivity..]. }
    destruct Hmore as [H1 H2]. split; [done|]. constructor; [|done].
    subst q w'. simpl. rewrite length_app. simpl. lia. }
  destruct (Hk q w' Hw') as [[H1 H2] HQ].
  change (exec (bind new_promise k) w) with (exec (k q) w').
  change ((bind new_promise k w).1) with ((k q w').1).
  split; [|exact HQ]. split; [done|]. by inversion H2.
Qed.

Ltac pk_step :=
  keep_clean; cbv zeta;
  match goal with
  | |- keeps _ (bind new_promise _) _ =>
      keep_any_result; apply pkw_new_promise; intros ?
  | |- keeps _ (read_subject _) _ => keep_leaf ltac:(apply keeps_read_subject) pk_side
  | |- keeps _ the_socket _ => keep_leaf ltac:(apply keeps_the_socket) pk_side
  | |- keeps _ (ret _) _ => keep_leaf ltac:(apply keeps_ret) pk_side
  | |- keeps _ (throw _) _ => apply keeps_throw
  | |- keeps _ (gets _) _ => keep_leaf ltac:(apply keeps_gets) pk_side
  | |- keeps _ (defined _) _ => keep_leaf ltac:(apply keeps_defined) pk_side
  | |- keeps _ (lift_completion _) _ => keep_leaf ltac:(apply keeps_lift_completion) pk_side
  | |- keeps _ (fromJSON_atoms _) _ =>
      keep_any_result; apply preserves_keeps, fromJSON_atoms_pure
  | |- keeps _ (modify _) _ => keep_leaf ltac:(apply keeps_modify; pk_modify) pk_side
  | |- keeps _ (bind _ _) _ => keep_any_result; eapply keeps_bind; [|intros ? ?]
  | |- keeps _ (try_catch _ _) _ => keep_any_result; apply keeps_try_catch; [|intros ?]
  | |- keeps _ (for_each _ _) _ => keep_any_result; apply keeps_for_each; intros ?
  | |- keeps _ (for_each_indexed _ _ _) _ =>
      keep_any_result; apply keeps_for_each_indexed; intros ? ?
  | |- keeps _ (if ?b then _ else _) _ => keep_any_result; destruct b eqn:?
  | |- keeps _ (match ?x with _ => _ end) _ => keep_any_result; destruct x eqn:?
  end.

Ltac pk_unfold :=
  unfold on_open_timeout, on_submit_timeout, ping, isReady, on_socket_open,
    on_socket_error, openConnection, subscribe, unsubscribe, unsubscribeAll, isSynced,
    submitAtom, getAtomById, close, _onClosed, close_subject,
    _onAtomSubmissionStateUpdate, _onAtomReceivedNotification, check_hid,
    on_settled, take_pending, set_ready, getSubscriberId, socket_call, socket_close,
    emit, resolve, reject, settle, notify_all, settle_one, Promise_all,
    setTimeout, setInterval, set_timer, clearTimeout, clearInterval, clear_timer,
    lookup_optional_key, next, error, complete, unsubscribe_subject,
    subscribe_observer, write_subject, notify, new_subject, run_callback.

Ltac pk_steps := repeat first [pk_step | progress pk_unfold].

Lemma unsubscribe_each_known (qs : list nat) (addresses : list string) :
  keeps (promises_known_with qs) (unsubscribe_each addresses) (fun _ => True).
Proof.
  induction addresses as [|address rest IH]; simpl.
  - pk_steps.
  - eapply keeps_bind; [|intros q _].
    { keep_any_result. pk_steps. }
    eapply keeps_bind; [exact IH|intros ps _]. pk_steps.
Qed.

Lemma handle_known (ev : Event) :
  keeps (promises_known_with []) (handle ev) (fun _ => True).
Proof.
  destruct ev; unfold handle.
  all: try (eapply keeps_bind; [unfold unsubscribeAll|intros ? _; pk_steps];
            eapply keeps_bind; [keep_any_result; pk_steps|intros ? _];
            eapply keeps_bind; [apply unsubscribe_each_known|intros ? _]).
  all: pk_steps.
Qed.

Lemma run_callback_known (a : TimerAction) :
  keeps (promises_known_with []) (run_callback a) (fun _ => True).
Proof. destruct a; pk_steps. Qed.

Lemma pkw_timers_after (qs : list nat) (tm : Timer) (w : World) :
  promises_known_with qs w -> promises_known_with qs (set_timers (timers_after tm) w).
Proof.
  intros [[H1 H2 H3] Hq]. split; [constructor|]; simpl; auto.
  unfold timers_after. destruct (period tm) as [per|].
  - apply Forall_map. eapply Forall_impl; [exact H3|].
    intros x Hx q. rewrite reschedule_callback. apply Hx.
  - by apply Forall_filter_keeps.
Qed.

Lemma reachable_promises_known (w : World) : reachable w -> promises_known w.
Proof.
  intros Hr. apply (reachable_invariant (promises_known_with [])) in Hr; [apply Hr|..].
  - split; [constructor; constructor|constructor].
  - intros ev. eapply keeps_preserves, handle_known.
  - intros a. eapply keeps_preserves, run_callback_known.
  - intros w0 e Hw0. by eapply pkw_frame.
  - intros w0 f Hw0. by eapply pkw_frame.
  - intros w0 tm. apply pkw_timers_after.
Qed.

(** ** Opening the connection *)

Lemma openConnection_spec (w : World) :
  openConnection w = (Normal (length (promises w)), after_openConnection w).
Proof. reflexivity. Qed.

Lemma settle_settled_already (p : nat) (r r0 : Settled) (w : World) :
  promises w !! p = Some r0 -> r0 <> Pending -> settle p r w = (Normal tt, w).
Proof.
  intros Hp Hr. unfold settle, bind, gets. rewrite Hp. by destruct r0.
Qed.

(** X15: what becomes of the promise of [openConnection].  The call makes a
    new socket that is neither ready nor listened to for notifications, arms
    a timer of 5000 ms and returns a pending promise; the tables are kept.
    When the socket opens, the promise is fulfilled, 'open' is emitted, the
    ping interval of 10000 ms is armed and the notifications are listened
    to.  When the socket reports an error, the promise is rejected with it
    and nothing else changes.  A notification that comes before the socket
    has opened is ignored.  When the timer fires first, [close()] is called
    on the socket, 'closed' is emitted and the promise is rejected with
    'Timeout'; after an error the timer still closes the socket and emits
    'closed', and the promise keeps the error. *)
Theorem openConnection_and_its_promise (w : World) :
  let p := length (promises w) in
  let w1 := exec openConnection w in
  openConnection w = (Normal p, w1)
  /\ promises w1 = promises w ++ [Pending]
  /\ conn w1 = set__socket (Some (new_socket p 0)) (conn w)
  /\ timers w1 = timers w ++ [open_timer w]
  /\ (let w2 := step SocketOpen w1 in
      promises w2 !! p = Some (Fulfilled PUndefined)
      /\ emitted w2 = emitted w ++ ["open"]
      /\ _socket (conn w2)
         = Some {| ready := true; closeCalls := 0; listening := true; openPromise := p |}
      /\ pingInterval (conn w2) = Some (S (timerCount w))
      /\ timers w2
         = timers w1 ++ [ {| tid := S (timerCount w); due := (now w + 10000)%N;
                             period := Some 10000%N; callback := Ping |} ])
  /\ (forall err,
        let w2 := step (SocketError err) w1 in
        promises w2 !! p = Some (Rejected err) /\ only_promises w1 w2)
  /\ (forall notification, step (AtomsSubscribeUpdate notification) w1 = w1)
  /\ (forall notification, step (AtomSubmissionStateOnNext notification) w1 = w1)
  /\ (let w2 := task (on_open_timeout p) w1 in
      promises w2 !! p = Some (Rejected (JStr "Timeout"))
      /\ emitted w2 = emitted w ++ ["closed"]
      /\ _socket (conn w2) = Some (new_socket p 1))
  /\ (forall err,
        let w3 := task (on_open_timeout p) (step (SocketError err) w1) in
        promises w3 !! p = Some (Rejected err)
        /\ emitted w3 = emitted w ++ ["closed"]
        /\ _socket (conn w3) = Some (new_socket p 1)).
Proof.
  intros p w1.
  assert (Hw1 : w1 = after_openConnection w) by reflexivity.
  assert (Hp : promises w1 !! p = Some Pending).
  { rewrite Hw1. simpl. by apply list_lookup_middle. }
  assert (Herror : forall err,
            promises (step (SocketError err) w1) !! p = Some (Rejected err)
            /\ only_promises w1 (step (SocketError err) w1)).
  { intros err.
    change (step (SocketError err) w1) with (task (settle p (Rejected err)) w1).
    destruct (task_settle p (Rejected err) w1 Hp) as [Honly Hres]; done. }
  split; [done|]. split; [done|]. split; [done|]. split; [done|]. split.
  { set (w0 := set_conn (set__socket (Some {| ready := true; closeCalls := 0;
                                            listening := true; openPromise := p |}))
                 (set_emitted (fun es => es ++ ["open"])
                   (set_conn (set_pingInterval (Some (S (timerCount w))))
                     (set_timers (fun ts => ts ++
                          [ {| tid := S (timerCount w); due := (now w + 10000)%N;
                               period := Some 10000%N; callback := Ping |} ])
                       (set_timerCount S
                         (set_conn (set__socket (Some {| ready := true; closeCalls := 0;
                                            listening := false; openPromise := p |}))
                            w1)))))).
    change (step SocketOpen w1) with (task (settle p (Fulfilled PUndefined)) w0).
    destruct (task_settle p (Fulfilled PUndefined) w0) as [Honly Hres]; [exact Hp|done|].
    destruct Honly as (Hc & _ & _ & _ & _ & Ht & _ & _ & _ & _ & He & _).
    cbv zeta. rewrite Hres, He, Hc, Ht. done. }
  split; [intros err; by destruct (Herror err)|].
  split; [done|]. split; [done|]. split.
  { set (w0 := set_emitted (fun es => es ++ ["closed"])
                 (set_conn (set__socket (Some (new_socket p 1))) w1)).
    change (task (on_open_timeout p) w1) with (task (settle p (Rejected (JStr "Timeout"))) w0).
    destruct (task_settle p (Rejected (JStr "Timeout")) w0) as [Honly Hres]; [exact Hp|done|].
    destruct Honly as (Hc & _ & _ & _ & _ & Ht & _ & _ & _ & _ & He & _).
    cbv zeta. rewrite Hres, He, Hc. done. }
  intros err. destruct (Herror err) as [Hres Honly].
  set (w2 := step (SocketError err) w1) in *.
  destruct Honly as (Hc & _ & _ & _ & _ & _ & _ & _ & _ & _ & He & _).
  assert (Hs : _socket (conn w2) = Some (new_socket p 0)) by (by rewrite Hc).
  set (w0 := set_emitted (fun es => es ++ ["closed"])
               (set_conn (set__socket (Some (new_socket p 1))) w2)).
  assert (Hrun : task (on_open_timeout p) w2 = w0).
  { unfold task, on_open_timeout, socket_close, the_socket, emit, reject.
    unfold bind, gets, defined, modify. repeat (rewrite Hs; simpl).
    rewrite (settle_settled_already p _ (Rejected err)); [done|exact Hres|done]. }
  cbv zeta. rewrite Hrun. simpl. rewrite Hres, He, Hw1. done.
Qed.

(** *** The promise while the socket has not opened *)

Section Opening.

Variables (p tid0 : nat) (T : N).

Local Abbreviation awaiting := (opening p tid0 T).

Lemma op_frame (w w' : World) :
  awaiting w ->
  promises w' = promises w -> timers w' = timers w ->
  timerCount w <= timerCount w' ->
  pingInterval (conn w') = pingInterval (conn w) ->
  _socket (conn w') = _socket (conn w) ->
  pending w' = pending w ->
  awaiting w'.
Proof.
  intros [H1 H2 H3 H4 H5] Ep Et Ec Ei Es Epd.
  constructor; rewrite ?Ep, ?Et, ?Ei, ?Es, ?Epd; auto. lia.
Qed.

Lemma op_promise_more (w : World) :
  awaiting w -> awaiting (set_promises (fun ps => ps ++ [Pending]) w).
Proof.
  intros [H1 H2 H3 H4 H5]. constructor; simpl; auto.
  - rewrite length_app. lia.
  - rewrite lookup_app_l by done. exact H5.
Qed.

Lemma op_promise_set (w : World) (q : nat) (o : Settled) :
  o <> Pending -> awaiting w -> awaiting (set_promises (fun ps => <[q := o]> ps) w).
Proof.
  intros Ho [H1 H2 H3 H4 H5]. constructor; simpl; auto.
  - by rewrite length_insert.
  - destruct (decide (q = p)) as [->|Hne].
    + rewrite list_lookup_insert_eq by done. congruence.
    + by rewrite list_lookup_insert_ne.
Qed.

Lemma op_armed_more (w : World) (x : Timer) :
  awaiting w -> awaiting (set_timers (fun ts => ts ++ [x]) w).
Proof.
  intros [H1 H2 H3 H4 H5]. constructor; simpl; auto.
  intros Hp. destruct (H5 Hp) as [Hin Hs]. split; [|done].
  apply in_app_iff. by left.
Qed.

Lemma op_cleared (w : World) (id : option nat) :
  id <> Some tid0 -> awaiting w ->
  awaiting (set_timers (fun ts => filter (fun t => Some (tid t) <> id) ts) w).
Proof.
  intros Hid [H1 H2 H3 H4 H5]. constructor; simpl; auto.
  intros Hp. destruct (H5 Hp) as [Hin Hs]. split; [|done].
  apply list_elem_of_In, list_elem_of_filter. split; [|by apply list_elem_of_In].
  simpl. congruence.
Qed.

Lemma op_pending_more (w : World) (cid : nat) (k : Kont) :
  (forall t l, k = KSubmit t l -> t <> tid0) -> awaiting w ->
  awaiting (set_pending (fun pd => pd ++ [(cid, k)]) w).
Proof.
  intros Hk [H1 H2 H3 H4 H5]. constructor; simpl; auto.
  apply Forall_app. split; [done|]. by repeat constructor.
Qed.

Lemma op_pending_less (w : World) (cid : nat) :
  awaiting w -> awaiting (set_pending (fun pd => filter (fun e => e.1 <> cid) pd) w).
Proof.
  intros [H1 H2 H3 H4 H5]. constructor; simpl; auto.
  by apply Forall_filter_keeps.
Qed.

Lemma op_timerCount (w : World) : awaiting w -> awaiting (set_timerCount S w).
Proof. intros [H1 H2 H3 H4 H5]. constructor; simpl; auto. Qed.

Lemma op_conn (w : World) (f : Conn -> Conn) :
  (forall c, pingInterval (f c) = pingInterval c) ->
  (forall c, _socket (f c) = _socket c) ->
  awaiting w -> awaiting (set_conn f w).
Proof.
  intros Hi Hs [H1 H2 H3 H4 H5]. constructor; simpl; rewrite ?Hi, ?Hs; auto.
Qed.

Lemma op_fresh_timer (w : World) : awaiting w -> timerCount w <> tid0.
Proof. intros Hw. pose proof (op_timer _ _ _ _ Hw). lia. Qed.

Lemma op_pending_kont (w : World) (cid : nat) (k : Kont) (t l : nat) :
  awaiting w -> In (cid, k) (pending w) -> k = KSubmit t l -> t <> tid0.
Proof.
  intros Hw Hin. pose proof (op_pending _ _ _ _ Hw) as Hp.
  rewrite Forall_forall in Hp. apply (Hp (cid, k)). by apply list_elem_of_In.
Qed.

Ltac op_side :=
  simpl;
  first
    [ done
    | lia
    | congruence
    | by intros ? ? [=]
    | solve [eauto using op_fresh_timer, op_interval]
    | intros ? ? [= <- <-]; first [assumption | solve [eauto using op_fresh_timer]] ].

Ltac op_modify :=
  let w := fresh "w" in
  let Hw := fresh "Hw" in
  intros w Hw;
  first
    [ apply op_promise_more; exact Hw
    | apply op_promise_set; [op_side|exact Hw]
    | apply op_armed_more; exact Hw
    | apply op_cleared; [op_side|exact Hw]
    | apply op_pending_more; [op_side|exact Hw]
    | apply op_pending_less; exact Hw
    | apply op_timerCount; exact Hw
    | apply op_conn; [intros; reflexivity|intros; reflexivity|exact Hw]
    | eapply op_frame; [exact Hw|simpl; first [reflexivity|lia]..] ].

Ltac op_step known :=
  keep_clean;
  first
    [ known
    | match goal with
      | |- keeps _ (read_subject _) _ => keep_leaf ltac:(apply keeps_read_subject) op_side
      | |- keeps _ the_socket _ => keep_leaf ltac:(apply keeps_the_socket) op_side
      | |- keeps _ (ret _) _ => keep_leaf ltac:(apply keeps_ret) op_side
      | |- keeps _ (throw _) _ => apply keeps_throw
      | |- keeps _ (gets _) _ => keep_leaf ltac:(apply keeps_gets) op_side
      | |- keeps _ (defined _) _ => keep_leaf ltac:(apply keeps_defined) op_side
      | |- keeps _ (lift_completion _) _ => keep_leaf ltac:(apply keeps_lift_completion) op_side
      | |- keeps _ (modify _) _ => keep_leaf ltac:(apply keeps_modify; op_modify) op_side
      | |- keeps _ (bind _ _) _ => keep_any_result; eapply keeps_bind; [|intros ? ?]
      | |- keeps _ (try_catch _ _) _ => keep_any_result; apply keeps_try_catch; [|intros ?]
      | |- keeps _ (for_each _ _) _ => keep_any_result; apply keeps_for_each; intros ?
      | |- keeps _ (for_each_indexed _ _ _) _ =>
          keep_any_result; apply keeps_for_each_indexed; intros ? ?
      | |- keeps _ (if ?b then _ else _) _ => keep_any_result; destruct b eqn:?
      | |- keeps _ (match ?x with _ => _ end) _ => keep_any_result; destruct x eqn:?
      end ].

Ltac op_primitive :=
  unfold next, error, complete, unsubscribe_subject, subscribe_observer,
    write_subject, notify, new_subject, set_timer, clear_timer,
    socket_call, take_pending, settle, notify_all, settle_one, new_promise, emit;
  repeat op_step ltac:(idtac; fail).

Lemma socket_close_opening : keeps awaiting socket_close (fun _ => True).
Proof.
  intros w Hw. split; [|done].
  unfold exec, socket_close, the_socket, bind, gets, defined, modify.
  destruct (_socket (conn w)) as [s|] eqn:E; simpl; [|exact Hw].
  destruct Hw as [H1 H2 H3 H4 H5]. constructor; simpl; auto.
  intros Hp. destruct (H5 Hp) as [Hin (sock & Hs & Ho & Hr)]. split; [done|].
  rewrite E in Hs. injection Hs as <-. eexists. split; [reflexivity|]. by simpl.
Qed.

Lemma set_ready_false_opening : keeps awaiting (set_ready false) (fun _ => True).
Proof.
  intros w Hw. split; [|done].
  unfold exec, set_ready, bind, gets, modify, ret.
  destruct (_socket (conn w)) as [s|] eqn:E; simpl; [|exact Hw].
  destruct Hw as [H1 H2 H3 H4 H5]. constructor; simpl; auto.
  intros Hp. destruct (H5 Hp) as [Hin (sock & Hs & Ho & Hr)]. split; [done|].
  rewrite E in Hs. injection Hs as <-. eexists. split; [reflexivity|]. by simpl.
Qed.

Lemma set_timer_opening (delay : N) (per : option N) (a : TimerAction) :
  keeps awaiting (set_timer delay per a) (fun id => id <> tid0).
Proof. op_primitive. Qed.

Lemma clear_timer_opening (id : option nat) :
  id <> Some tid0 -> keeps awaiting (clear_timer id) (fun _ => True).
Proof. intros Hid. op_primitive. Qed.

Lemma socket_call_opening (method : string) (params : JsVal) (k : Kont) :
  (forall t l, k = KSubmit t l -> t <> tid0) ->
  keeps awaiting (socket_call method params k) (fun _ => True).
Proof. intros Hk. op_primitive. Qed.

Lemma settle_opening (q : nat) (o : Settled) :
  o <> Pending -> keeps awaiting (settle q o) (fun _ => True).
Proof. intros Ho. op_primitive. Qed.

Lemma take_pending_opening (cid : nat) :
  keeps awaiting (take_pending cid)
    (fun k => forall k', k = Some k' -> forall t l, k' = KSubmit t l -> t <> tid0).
Proof.
  op_primitive.
  eapply keeps_weaken; [apply keeps_ret|]. intros k -> k' Ek t l Ekt.
  destruct (filter (fun e : nat * Kont => e.1 = cid) (pending w0)) as [|e es] eqn:Ef;
    simpl in Ek; [done|]. injection Ek as <-.
  assert (Hin : e ∈ filter (fun e : nat * Kont => e.1 = cid) (pending w0))
    by (rewrite Ef; by left).
  apply list_elem_of_filter in Hin as [_ Hin]. destruct e as [cid' k].
  eapply op_pending_kont; [exact Hw0| |exact Ekt]. apply list_elem_of_In, Hin.
Qed.

Ltac op_known :=
  match goal with
  | |- keeps _ socket_close _ => keep_any_result; apply socket_close_opening
  | |- keeps _ (set_ready false) _ => keep_any_result; apply set_ready_false_opening
  | |- keeps _ (set_timer _ _ _) _ =>
      keep_leaf ltac:(apply set_timer_opening) op_side
  | |- keeps _ (clear_timer _) _ =>
      keep_leaf ltac:(apply clear_timer_opening; op_side) op_side
  | |- keeps _ (socket_call _ _ _) _ =>
      keep_leaf ltac:(apply socket_call_opening; op_side) op_side
  | |- keeps _ (settle _ _) _ =>
      keep_leaf ltac:(apply settle_opening; op_side) op_side
  | |- keeps _ (take_pending _) _ =>
      keep_leaf ltac:(apply take_pending_opening) op_side
  | |- keeps _ (fromJSON_atoms _) _ =>
      keep_any_result; apply preserves_keeps, fromJSON_atoms_pure
  end.

Ltac op_unfold :=
  unfold on_open_timeout, on_submit_timeout, ping, isReady,
    on_socket_error, subscribe, unsubscribe, unsubscribeAll, isSynced,
    submitAtom, getAtomById, close, _onClosed, close_subject,
    _onAtomSubmissionStateUpdate, _onAtomReceivedNotification, check_hid,
    getSubscriberId, emit, resolve, reject, settle_one, Promise_all, new_promise,
    setTimeout, setInterval, clearTimeout, clearInterval, lookup_optional_key,
    next, error, complete, unsubscribe_subject, subscribe_observer,
    write_subject, notify, new_subject.

Ltac op_steps_with known :=
  repeat first [op_step ltac:(idtac; known) | progress op_unfold].

Ltac op_steps := op_steps_with ltac:(idtac; op_known).

Lemma on_settled_opening (k : Kont) (r : Completion JsVal) :
  (forall t l, k = KSubmit t l -> t <> tid0) ->
  keeps awaiting (on_settled k r) (fun _ => True).
Proof.
  intros Hk. destruct k as [|address sid|address sid q|t l'|q]; unfold on_settled.
  4: pose proof (Hk t l' eq_refl) as Ht.
  all: op_steps.
Qed.

Lemma unsubscribe_each_opening (addresses : list string) :
  keeps awaiting (unsubscribe_each addresses) (fun _ => True).
Proof.
  induction addresses as [|address rest IH]; simpl.
  - op_steps.
  - eapply keeps_bind; [|intros q _].
    { keep_any_result. op_steps. }
    eapply keeps_bind; [exact IH|intros ps _]. op_steps.
Qed.

Lemma run_callback_opening (a : TimerAction) :
  keeps awaiting (run_callback a) (fun _ => True).
Proof. destruct a as [q|l'|]; unfold run_callback; op_steps. Qed.

Ltac op_known_handlers :=
  first
    [ op_known
    | match goal with
      | |- keeps _ (on_settled _ _) _ =>
          keep_any_result; apply on_settled_opening; op_side
      | |- keeps _ (unsubscribe_each _) _ =>
          keep_any_result; apply unsubscribe_each_opening
      end ].

(** Every event but the opening of the socket and another [openConnection]. *)
Lemma handle_opening (ev : Event) :
  ev <> CallOpenConnection -> ev <> SocketOpen ->
  keeps awaiting (handle ev) (fun _ => True).
Proof.
  intros Hopen Hsock. destruct ev; try done; unfold handle.
  all: op_steps_with ltac:(idtac; op_known_handlers).
Qed.


(** *** The promise while the socket neither opens nor fails *)

Variable st : Settled.

Local Abbreviation lonely := (alone p tid0 T st).

Lemma al_target (w : World) (watch : list nat * nat) :
  lonely w -> In watch (alls w) -> watch.2 <> p.
Proof.
  intros Hw Hin. pose proof (al_alls _ _ _ _ _ Hw) as Ha.
  rewrite Forall_forall in Ha. by apply Ha, list_elem_of_In.
Qed.

Lemma al_fresh_promise (w : World) : lonely w -> length (promises w) <> p.
Proof.
  intros Hw. pose proof (op_promise _ _ _ _ (al_opening _ _ _ _ _ Hw)). lia.
Qed.

Lemma al_fresh_timer (w : World) : lonely w -> timerCount w <> tid0.
Proof. intros Hw. eapply op_fresh_timer, al_opening, Hw. Qed.

Lemma al_interval (w : World) : lonely w -> pingInterval (conn w) <> Some tid0.
Proof. intros Hw. eapply op_interval, al_opening, Hw. Qed.

Lemma al_lookup_more (w : World) :
  lonely w -> (promises w ++ [Pending]) !! p = Some st.
Proof.
  intros Hw. rewrite lookup_app_l by apply (op_promise _ _ _ _ (al_opening _ _ _ _ _ Hw)).
  apply Hw.
Qed.

Ltac al_side :=
  simpl;
  first
    [ done
    | lia
    | congruence
    | by intros ? ? [=]
    | by intros [=]
    | solve [eauto using al_fresh_timer, al_interval, al_fresh_promise, al_target]
    | intros [= ?]; solve [eauto using al_fresh_promise]
    | intros [= ?]; subst; solve [eapply al_fresh_promise; eauto]
    | intros ? ? [= <- <-]; first [assumption | solve [eauto using al_fresh_timer]] ].

Ltac al_modify :=
  let w := fresh "w" in
  let Hw := fresh "Hw" in
  let Hop := fresh "Hop" in
  intros w Hw;
  pose proof (al_opening _ _ _ _ _ Hw) as Hop;
  pose proof (al_lookup_more w Hw);
  constructor;
  [ clear Hw; revert Hop; generalize w;
    first
      [ intros ? ?; apply op_promise_more; assumption
      | intros ? ?; apply op_promise_set; [al_side|assumption]
      | intros ? ?; apply op_armed_more; assumption
      | intros ? ?; apply op_cleared; [al_side|assumption]
      | intros ? ?; apply op_pending_more; [al_side|assumption]
      | intros ? ?; apply op_pending_less; assumption
      | intros ? ?; apply op_timerCount; assumption
      | intros ? ?; apply op_conn; [intros; reflexivity|intros; reflexivity|assumption]
      | intros ? ?; eapply op_frame; [eassumption|simpl; first [reflexivity|lia]..] ]
  | simpl;
    first [ apply Hw
          | apply Forall_app; split; [apply Hw|repeat constructor; al_side]
          | apply Forall_filter_keeps, Hw ]..
  | simpl;
    first [ apply Hw
          | assumption
          | rewrite list_lookup_insert_ne by al_side; apply Hw ] ].

Ltac al_step known :=
  keep_clean;
  first
    [ known
    | match goal with
      | |- keeps _ (read_subject _) _ => keep_leaf ltac:(apply keeps_read_subject) al_side
      | |- keeps _ the_socket _ => keep_leaf ltac:(apply keeps_the_socket) al_side
      | |- keeps _ (ret _) _ => keep_leaf ltac:(apply keeps_ret) al_side
      | |- keeps _ (throw _) _ => apply keeps_throw
      | |- keeps _ (gets _) _ => keep_leaf ltac:(apply keeps_gets) al_side
      | |- keeps _ (defined _) _ => keep_leaf ltac:(apply keeps_defined) al_side
      | |- keeps _ (lift_completion _) _ => keep_leaf ltac:(apply keeps_lift_completion) al_side
      | |- keeps _ (modify _) _ => keep_leaf ltac:(apply keeps_modify; al_modify) al_side
      | |- keeps _ (bind _ _) _ => keep_any_result; eapply keeps_bind; [|intros ? ?]
      | |- keeps _ (try_catch _ _) _ => keep_any_result; apply keeps_try_catch; [|intros ?]
      | |- keeps _ (for_each _ _) _ =>
          keep_any_result; apply keeps_for_each_In; intros ? ?
      | |- keeps _ (for_each_indexed _ _ _) _ =>
          keep_any_result; apply keeps_for_each_indexed; intros ? ?
      | |- keeps _ (if ?b then _ else _) _ => keep_any_result; destruct b eqn:?
      | |- keeps _ (match ?x with _ => _ end) _ => keep_any_result; destruct x eqn:?
      end ].

Ltac al_primitive :=
  unfold next, error, complete, unsubscribe_subject, subscribe_observer,
    write_subject, notify, new_subject, set_timer, clear_timer,
    socket_call, take_pending, settle, notify_all, settle_one, new_promise, emit;
  repeat al_step ltac:(idtac; fail).

Lemma alone_from_opening (w w' : World) :
  lonely w -> opening p tid0 T w' ->
  pending w' = pending w -> alls w' = alls w -> timers w' = timers w ->
  promises w' = promises w ->
  lonely w'.
Proof.
  intros [_ H2 H3 H4 H5] Hop Ep Ea Et Epr. constructor; rewrite ?Ep, ?Ea, ?Et, ?Epr; auto.
Qed.

Lemma socket_close_alone : keeps lonely socket_close (fun _ => True).
Proof.
  intros w Hw. split; [|done].
  destruct (socket_close_opening w (al_opening _ _ _ _ _ Hw)) as [Hop _].
  eapply alone_from_opening; [exact Hw|exact Hop|..].
  all: unfold exec, socket_close, the_socket, bind, gets, defined, modify.
  all: by destruct (_socket (conn w)).
Qed.

Lemma set_ready_false_alone : keeps lonely (set_ready false) (fun _ => True).
Proof.
  intros w Hw. split; [|done].
  destruct (set_ready_false_opening w (al_opening _ _ _ _ _ Hw)) as [Hop _].
  eapply alone_from_opening; [exact Hw|exact Hop|..].
  all: unfold exec, set_ready, bind, gets, modify, ret.
  all: by destruct (_socket (conn w)).
Qed.

Lemma set_timer_alone (delay : N) (per : option N) (a : TimerAction) :
  a <> OpenTimeout p ->
  keeps lonely (set_timer delay per a) (fun id => id <> tid0).
Proof. intros Ha. al_primitive. Qed.

Lemma clear_timer_alone (id : option nat) :
  id <> Some tid0 -> keeps lonely (clear_timer id) (fun _ => True).
Proof. intros Hid. al_primitive. Qed.

Lemma socket_call_alone (method : string) (params : JsVal) (k : Kont) :
  (forall t l, k = KSubmit t l -> t <> tid0) -> kont_promise k <> Some p ->
  keeps lonely (socket_call method params k) (fun _ => True).
Proof. intros Hk Hq. al_primitive. Qed.

Lemma settle_alone (q : nat) (o : Settled) :
  q <> p -> o <> Pending -> keeps lonely (settle q o) (fun _ => True).
Proof. intros Hq Ho. al_primitive. Qed.

Lemma settle_one_alone (q : nat) (o : Settled) :
  q <> p -> o <> Pending -> keeps lonely (settle_one q o) (fun _ => True).
Proof. intros Hq Ho. al_primitive. Qed.

Lemma new_promise_alone : keeps lonely new_promise (fun q => q <> p).
Proof. al_primitive. Qed.

Lemma take_pending_alone (cid : nat) :
  keeps lonely (take_pending cid)
    (fun k => forall k', k = Some k' ->
                (forall t l, k' = KSubmit t l -> t <> tid0) /\ kont_promise k' <> Some p).
Proof.
  al_primitive.
  eapply keeps_weaken; [apply keeps_ret|]. intros k -> k' Ek.
  destruct (filter (fun e : nat * Kont => e.1 = cid) (pending w0)) as [|e es] eqn:Ef;
    simpl in Ek; [done|]. injection Ek as <-.
  assert (Hin : e ∈ filter (fun e : nat * Kont => e.1 = cid) (pending w0))
    by (rewrite Ef; by left).
  apply list_elem_of_filter in Hin as [_ Hin]. destruct e as [cid' k]. split.
  - intros t l Ekt.
    eapply op_pending_kont; [eapply al_opening, Hw0| |exact Ekt]. apply list_elem_of_In, Hin.
  - pose proof (al_pending _ _ _ _ _ Hw0) as Hp. rewrite Forall_forall in Hp.
    apply (Hp (cid', k) Hin).
Qed.
Ltac al_known :=
  match goal with
  | |- keeps _ socket_close _ => keep_any_result; apply socket_close_alone
  | |- keeps _ (set_ready false) _ => keep_any_result; apply set_ready_false_alone
  | |- keeps _ (set_timer _ _ _) _ =>
      keep_leaf ltac:(apply set_timer_alone; al_side) al_side
  | |- keeps _ (clear_timer _) _ =>
      keep_leaf ltac:(apply clear_timer_alone; al_side) al_side
  | |- keeps _ (socket_call _ _ _) _ =>
      keep_leaf ltac:(apply socket_call_alone; al_side) al_side
  | |- keeps _ (settle _ _) _ =>
      keep_leaf ltac:(apply settle_alone; al_side) al_side
  | |- keeps _ (settle_one _ _) _ =>
      keep_leaf ltac:(apply settle_one_alone; al_side) al_side
  | |- keeps _ (take_pending _) _ =>
      keep_leaf ltac:(apply take_pending_alone) al_side
  | |- keeps _ new_promise _ =>
      keep_leaf ltac:(apply new_promise_alone) al_side
  | |- keeps _ (fromJSON_atoms _) _ =>
      keep_any_result; apply preserves_keeps, fromJSON_atoms_pure
  end.

Ltac al_unfold :=
  unfold on_open_timeout, on_submit_timeout, ping, isReady,
    subscribe, unsubscribe, unsubscribeAll, isSynced,
    submitAtom, getAtomById, close, _onClosed, close_subject,
    _onAtomSubmissionStateUpdate, _onAtomReceivedNotification, check_hid,
    getSubscriberId, emit, resolve, reject, Promise_all,
    setTimeout, setInterval, clearTimeout, clearInterval, lookup_optional_key,
    next, error, complete, unsubscribe_subject, subscribe_observer,
    write_subject, notify, new_subject.

Ltac al_steps_with known :=
  repeat first [al_step ltac:(idtac; known) | progress al_unfold].

Ltac al_steps := al_steps_with ltac:(idtac; al_known).

Lemma on_settled_alone (k : Kont) (r : Completion JsVal) :
  (forall t l, k = KSubmit t l -> t <> tid0) -> kont_promise k <> Some p ->
  keeps lonely (on_settled k r) (fun _ => True).
Proof.
  intros Hk Hq. destruct k as [|address sid|address sid q|t l'|q]; unfold on_settled.
  3: assert (q <> p) by (intros ->; by apply Hq).
  4: pose proof (Hk t l' eq_refl) as Ht.
  5: assert (q <> p) by (intros ->; by apply Hq).
  all: al_steps.
Qed.

Lemma unsubscribe_each_alone (addresses : list string) :
  keeps lonely (unsubscribe_each addresses) (fun _ => True).
Proof.
  induction addresses as [|address rest IH]; simpl.
  - al_steps.
  - eapply keeps_bind; [|intros q _].
    { keep_any_result. al_steps. }
    eapply keeps_bind; [exact IH|intros ps _]. al_steps.
Qed.

Lemma run_callback_alone (a : TimerAction) :
  a <> OpenTimeout p -> keeps lonely (run_callback a) (fun _ => True).
Proof.
  intros Ha. destruct a as [q|l'|]; unfold run_callback.
  1: assert (q <> p) by congruence.
  all: al_steps.
Qed.

Ltac al_known_handlers :=
  first
    [ al_known
    | match goal with
      | Hk : forall k', Some ?k = Some k' -> _ |- keeps _ (on_settled ?k _) _ =>
          keep_any_result; destruct (Hk k eq_refl); apply on_settled_alone; assumption
      | |- keeps _ (unsubscribe_each _) _ =>
          keep_any_result; apply unsubscribe_each_alone
      end ].

(** The events that neither open the socket nor fail it nor replace it
    leave the promise as it is. *)
Lemma handle_alone (ev : Event) :
  undecided ev -> keeps lonely (handle ev) (fun _ => True).
Proof.
  intros Hev. destruct ev; try done; unfold handle.
  all: al_steps_with ltac:(idtac; al_known_handlers).
Qed.

End Opening.

Lemma opening_uncaught (p tid0 : nat) (T : N) (w : World) (e : JsVal) :
  opening p tid0 T w -> opening p tid0 T (set_uncaught (fun es => es ++ [e]) w).
Proof. intros Hw. by eapply op_frame. Qed.

Lemma task_opening (p tid0 : nat) (T : N) (m : M unit) (w : World) :
  keeps (opening p tid0 T) m (fun _ => True) ->
  opening p tid0 T w -> opening p tid0 T (task m w).
Proof.
  intros Hm Hw. apply preserves_task; [by eapply keeps_preserves| |done].
  intros w' e. apply opening_uncaught.
Qed.

(** Once the promise has been settled, only the references to the timer
    are left to keep. *)
Lemma opening_settled (p tid0 : nat) (T : N) (w w' : World) (r : Settled) :
  opening p tid0 T w ->
  promises w' !! p = Some r -> r <> Pending ->
  timerCount w <= timerCount w' ->
  pingInterval (conn w') <> Some tid0 ->
  pending w' = pending w ->
  opening p tid0 T w'.
Proof.
  intros [H1 H2 H3 H4 H5] Hp Hr Hc Hi Epd. constructor; rewrite ?Epd; auto.
  - by eapply lookup_lt_Some.
  - lia.
  - congruence.
Qed.

Lemma pending_or_not (ps : list Settled) (p : nat) :
  ps !! p = Some Pending \/ ps !! p <> Some Pending.
Proof. destruct (ps !! p) as [[| |]|]; auto. Qed.

(** The socket opens: the promise is fulfilled. *)
Lemma socket_open_opening (p tid0 : nat) (T : N) (w : World) :
  opening p tid0 T w -> opening p tid0 T (step SocketOpen w).
Proof.
  intros Hw. unfold step, task, handle. unfold bind at 1, gets at 1.
  destruct (_socket (conn w)) as [s|] eqn:E; [|exact Hw].
  set (w0 := set_conn (set__socket (Some {| ready := true; closeCalls := closeCalls s;
                                            listening := true;
                                            openPromise := openPromise s |}))
               (set_emitted (fun es => es ++ ["open"])
                 (set_conn (set_pingInterval (Some (timerCount w)))
                   (set_timers (fun ts => ts ++
                        [ {| tid := timerCount w; due := (now w + 10000)%N;
                             period := Some 10000%N; callback := Ping |} ])
                     (set_timerCount S
                       (set_conn (set__socket (Some {| ready := true;
                                            closeCalls := closeCalls s;
                                            listening := listening s;
                                            openPromise := openPromise s |}))
                          w)))))).
  assert (Hrun : bind (set_ready true) (fun _ => on_socket_open (openPromise s)) w
                 = settle (openPromise s) (Fulfilled PUndefined) w0).
  { unfold set_ready, on_socket_open, setInterval, set_timer, emit, the_socket, resolve.
    unfold bind, gets, modify, ret, defined. rewrite E. reflexivity. }
  rewrite Hrun.
  change (opening p tid0 T (task (settle (openPromise s) (Fulfilled PUndefined)) w0)).
  pose proof (op_timer _ _ _ _ Hw) as Htid.
  destruct (pending_or_not (promises w) p) as [Hp|Hp].
  - destruct (op_armed _ _ _ _ Hw Hp) as [_ (sock & Hs & Ho & _)].
    rewrite E in Hs. injection Hs as <-. rewrite Ho.
    destruct (task_settle p (Fulfilled PUndefined) w0 Hp) as [Honly Hres]; [done|].
    destruct Honly as (Hc & _ & _ & _ & _ & _ & Htc & _ & Hpd & _).
    eapply (opening_settled p tid0 T w); [exact Hw|exact Hres|done|..].
    + rewrite Htc. simpl. lia.
    + rewrite Hc. simpl. intros [= Hi]. lia.
    + by rewrite Hpd.
  - apply task_opening; [by apply settle_opening|].
    destruct Hw as [H1 H2 H3 H4 H5]. constructor; simpl; auto.
    + intros [= Hi]. lia.
    + intros Hp'. done.
Qed.

Lemma step_opening (p tid0 : nat) (T : N) (ev : Event) (w : World) :
  ev <> CallOpenConnection ->
  opening p tid0 T w -> opening p tid0 T (step ev w).
Proof.
  intros Hev Hw.
  assert (Hcases : ev = SocketOpen \/ ev <> SocketOpen)
    by (destruct ev; auto; right; discriminate).
  destruct Hcases as [->|Hne].
  - by apply socket_open_opening.
  - unfold step. apply task_opening; [|done]. by apply handle_opening.
Qed.

Lemma timers_after_keeps (tm x : Timer) (ts : list Timer) :
  tid x <> tid tm -> In x ts -> In x (timers_after tm ts).
Proof.
  intros Hne Hin. unfold timers_after. destruct (period tm) as [per|].
  - apply in_map_iff. exists x. split; [|done].
    unfold reschedule. by destruct (decide (tid x = tid tm)).
  - apply list_elem_of_In, list_elem_of_filter. split; [done|by apply list_elem_of_In].
Qed.

(** A timer fires: when it is the timer of the promise and the promise is
    pending, the promise is rejected. *)
Lemma fire_opening (p tid0 : nat) (T : N) (tm : Timer) (w : World) :
  List.NoDup (map tid (timers w)) ->
  opening p tid0 T w -> In tm (timers w) ->
  opening p tid0 T (task (fire tm) w).
Proof.
  intros Hnd Hw Hin.
  set (w1 := set_timers (timers_after tm) (set_now (N.max (due tm)) w)).
  unfold task. change (fire tm w) with (run_callback (callback tm) w1).
  change (opening p tid0 T (task (run_callback (callback tm)) w1)).
  assert (Hcases : (promises w !! p = Some Pending /\ tid tm = tid0)
                   \/ ~ (promises w !! p = Some Pending /\ tid tm = tid0)).
  { destruct (pending_or_not (promises w) p) as [Hp|Hp]; [|right; tauto].
    destruct (decide (tid tm = tid0)); [left|right]; tauto. }
  destruct Hcases as [[Hp Ht]|Hn].
  - destruct (op_armed _ _ _ _ Hw Hp) as [Hin0 (sock & Hs & Ho & Hr)].
    assert (Htm : tm = open_timeout p tid0 T) by (by apply (tid_inj (timers w))).
    set (w2 := set_emitted (fun es => es ++ ["closed"])
                 (set_conn (set__socket (Some {| ready := ready sock;
                                                 closeCalls := S (closeCalls sock);
                                                 listening := listening sock;
                                                 openPromise := openPromise sock |}))
                    w1)).
    assert (Hrun : task (run_callback (callback tm)) w1
                   = task (settle p (Rejected (JStr "Timeout"))) w2).
    { rewrite Htm. unfold task, run_callback, open_timeout, callback.
      unfold on_open_timeout, socket_close, the_socket, emit, reject.
      unfold bind, gets, defined, modify.
      change (_socket (conn w1)) with (_socket (conn w)).
      repeat (rewrite Hs; simpl). rewrite Hr. cbn [negb]. cbv beta.
      change (_socket (conn w1)) with (_socket (conn w)). rewrite Hs. reflexivity. }
    rewrite Hrun.
    destruct (task_settle p (Rejected (JStr "Timeout")) w2 Hp) as [Honly Hres]; [done|].
    destruct Honly as (Hc & _ & _ & _ & _ & _ & Htc & _ & Hpd & _).
    eapply (opening_settled p tid0 T w); [exact Hw|exact Hres|done|..].
    + by rewrite Htc.
    + rewrite Hc. simpl. apply (op_interval _ _ _ _ Hw).
    + by rewrite Hpd.
  - apply task_opening; [apply run_callback_opening|].
    destruct Hw as [H1 H2 H3 H4 H5]. constructor; simpl; auto.
    intros Hp. destruct (H5 Hp) as [Hin0 Hsock]. split; [|done].
    apply timers_after_keeps; [|done]. simpl. intros E. apply Hn. by split.
Qed.

Lemma run_timers_opening (p tid0 : nat) (T : N) (fuel : nat) (t : N) (w : World) :
  well_formed w -> opening p tid0 T w ->
  opening p tid0 T (run_timers fuel t w).
Proof.
  revert w. induction fuel as [|fuel IH]; intros w Hwf Hw; simpl; [done|].
  destruct (next_timer (timers w)) as [tm|] eqn:En; [|done].
  destruct (due tm <=? t)%N; [|done].
  apply IH.
  - apply preserves_task; [apply fire_well_formed|apply wf_uncaught|done].
  - apply fire_opening; [apply (wf_timer_distinct w Hwf)|done|by apply next_timer_In].
Qed.

Lemma advance_opening (p tid0 : nat) (T : N) (t : N) (w : World) :
  well_formed w -> opening p tid0 T w -> opening p tid0 T (advance t w).
Proof.
  intros Hwf Hw. unfold advance.
  eapply op_frame; [by apply run_timers_opening|reflexivity..].
Qed.

Lemma run_opening (p tid0 : nat) (T : N) (evs : list (N * Event)) (w : World) :
  Forall (fun te => te.2 <> CallOpenConnection) evs ->
  well_formed w -> opening p tid0 T w ->
  well_formed (run evs w) /\ opening p tid0 T (run evs w).
Proof.
  intros Hevs. revert w. induction Hevs as [|te evs Hte _ IH]; intros w Hwf Hw; [done|].
  simpl. apply IH.
  - by apply deliver_well_formed.
  - unfold deliver. apply step_opening; [done|]. by apply advance_opening.
Qed.

(** *** The clock *)

Lemma firings_none (t : N) (ts : list Timer) :
  firings t ts = 0 -> Forall (fun x => (t < due x)%N) ts.
Proof.
  unfold firings. induction ts as [|x ts IH]; [done|].
  intros Hsum. change (firings_of t x + sum_list (map (firings_of t) ts) = 0) in Hsum.
  apply Nat.eq_add_0 in Hsum as [Hx Hts]. constructor; [|by apply IH].
  unfold firings_of in Hx. destruct (N.leb_spec (due x) t) as [Hd|Hd]; [|done].
  exfalso. by destruct (period x).
Qed.

(** With fuel for every firing that is due, no timer that is due by [t] is
    left armed. *)
Lemma run_timers_exhausts (fuel : nat) (t : N) (w : World) :
  well_formed w -> firings t (timers w) <= fuel ->
  Forall (fun x => (t < due x)%N) (timers (run_timers fuel t w)).
Proof.
  revert w. induction fuel as [|fuel IH]; intros w Hwf Hfuel.
  - apply firings_none. simpl. lia.
  - simpl. destruct (next_timer (timers w)) as [tm|] eqn:En.
    + pose proof (next_timer_In _ _ En) as Hin.
      destruct (N.leb_spec (due tm) t) as [Hd|Hd].
      * apply IH.
        -- apply preserves_task; [apply fire_well_formed|apply wf_uncaught|done].
        -- pose proof (firings_fire t tm w Hin Hd (wf_timer_periods w Hwf)). lia.
      * apply Forall_forall. intros x Hx. apply list_elem_of_In in Hx.
        pose proof (next_timer_least _ _ En x Hx). lia.
    + destruct (timers w) as [|x ts] eqn:Et; [done|].
      destruct (next_timer_some (x :: ts) x) as [tm Htm]; [by left|]. congruence.
Qed.

(** *** The ping interval on record *)

Ltac interval_modify :=
  let w := fresh "w" in
  let Hw := fresh "Hw" in
  let i := fresh "i" in
  let Hi := fresh "Hi" in
  intros w Hw i Hi; simpl in *; first [exact (Hw i Hi) | specialize (Hw i Hi); lia].

Lemma settle_interval_known (q : nat) (o : Settled) :
  preserves interval_known (settle q o).
Proof.
  intros w Hw.
  destruct (settle_only_promises w q o w (only_promises_refl _))
    as (Hc & _ & _ & _ & _ & _ & Htc & _).
  intros i Hi. rewrite Hc in Hi. rewrite Htc. by apply Hw.
Qed.

Lemma on_socket_open_interval_known (q : nat) :
  preserves interval_known (on_socket_open q).
Proof.
  intros w Hw. unfold exec, on_socket_open, setInterval, set_timer, emit, the_socket, resolve.
  unfold bind, gets, modify, ret, defined. simpl.
  destruct (_socket (conn w)) as [s|]; simpl.
  - match goal with
    | |- interval_known (settle ?q ?o ?w0).2 =>
        apply (settle_interval_known q o w0)
    end.
    intros i [= <-]. simpl. lia.
  - intros i [= <-]. simpl. lia.
Qed.

Ltac interval_step :=
  first
    [ match goal with
      | |- preserves _ (on_socket_open _) => apply on_socket_open_interval_known
      | |- preserves _ (settle _ _) => apply settle_interval_known
      | |- preserves _ (fromJSON_atoms _) => apply fromJSON_atoms_pure
      | |- preserves _ (modify _) => apply preserves_modify; interval_modify
      end
    | progress unfold on_open_timeout, on_submit_timeout, ping, isReady,
        on_socket_error, openConnection, subscribe, unsubscribe, unsubscribeAll,
        isSynced, submitAtom, getAtomById, close, _onClosed, close_subject,
        _onAtomSubmissionStateUpdate, _onAtomReceivedNotification, check_hid,
        on_settled, take_pending, set_ready, getSubscriberId, socket_call,
        socket_close, the_socket, emit, resolve, reject, Promise_all, settle_one,
        new_promise, setTimeout, setInterval, set_timer, clearTimeout, clearInterval,
        clear_timer, subscribe_observer, unsubscribe_subject, complete, error, next,
        notify, write_subject, read_subject, new_subject, run_callback
    | apply preserves_ret
    | apply preserves_throw
    | apply preserves_gets
    | apply preserves_lift_completion
    | apply preserves_defined
    | apply preserves_bind; [|intros ?]
    | apply preserves_try_catch; [|intros ?]
    | apply preserves_for_each; intros ?
    | apply preserves_for_each_indexed; intros ? ?
    | match goal with
      | |- preserves _ (if ?b then _ else _) => destruct b
      | |- preserves _ (match ?x with _ => _ end) => destruct x
      end ].

Lemma unsubscribe_each_interval_known (addresses : list string) :
  preserves interval_known (unsubscribe_each addresses).
Proof.
  induction addresses as [|address rest IH]; simpl.
  - apply preserves_ret.
  - apply preserves_bind; [repeat interval_step|intros q].
    apply preserves_bind; [exact IH|intros ps]. apply preserves_ret.
Qed.

Lemma handle_interval_known (ev : Event) : preserves interval_known (handle ev).
Proof.
  destruct ev; unfold handle.
  all: try (apply preserves_bind; [unfold unsubscribeAll|intros ?; apply preserves_ret];
            apply preserves_bind; [apply preserves_gets|intros ?];
            apply preserves_bind; [apply unsubscribe_each_interval_known|intros ?]).
  all: repeat interval_step.
Qed.

Lemma run_callback_interval_known (a : TimerAction) :
  preserves interval_known (run_callback a).
Proof. destruct a; repeat interval_step. Qed.

Lemma reachable_interval_known (w : World) : reachable w -> interval_known w.
Proof.
  apply reachable_invariant.
  - by intros i.
  - apply handle_interval_known.
  - apply run_callback_interval_known.
  - intros w0 e. revert w0. interval_modify.
  - intros w0 f. revert w0. interval_modify.
  - intros w0 tm. revert w0. interval_modify.
Qed.

(** [openConnection] leaves its promise waiting for the socket. *)
Lemma openConnection_is_opening (w : World) :
  well_formed w -> interval_known w ->
  opening (length (promises w)) (timerCount w) (now w + 5000)
    (step CallOpenConnection w).
Proof.
  intros Hwf Hik.
  change (step CallOpenConnection w) with (after_openConnection w).
  constructor; simpl.
  - rewrite length_app. simpl. lia.
  - lia.
  - intros Hi. specialize (Hik _ Hi). lia.
  - pose proof (wf_pending_subjects w Hwf) as Hp.
    eapply Forall_impl; [exact Hp|]. intros e He t l Ee.
    destruct (He t l Ee) as [_ Ht]. lia.
  - intros _. split.
    + apply in_app_iff. right. by left.
    + by eexists.
Qed.

(** X16: the promise of [openConnection] does not stay pending.  In a world
    that the connection reaches, [openConnection] is called; whatever
    happens afterwards, as long as [openConnection] is not called again,
    the promise it returned has been settled once 5000 ms have passed
    since the call: fulfilled because the socket opened, or rejected
    because of an error or because the timer found the socket not
    ready. *)
Theorem openConnection_promise_settles_in_time
    (w : World) (evs : list (N * Event)) (t : N) :
  reachable w ->
  Forall (fun te => te.2 <> CallOpenConnection) evs ->
  (now w + 5000 <= t)%N ->
  settled (length (promises w)) (advance t (run evs (step CallOpenConnection w))).
Proof.
  intros Hr Hevs Ht.
  pose proof (reachable_is_well_formed w Hr) as Hwf.
  pose proof (reachable_interval_known w Hr) as Hik.
  set (p := length (promises w)).
  set (w1 := step CallOpenConnection w).
  destruct (run_opening p (timerCount w) (now w + 5000) evs w1 Hevs) as [Hwf2 Hop2].
  { by apply step_well_formed. }
  { by apply openConnection_is_opening. }
  set (w2 := run evs w1) in *.
  pose proof (advance_opening _ _ _ t w2 Hwf2 Hop2) as Hop3.
  pose proof (run_timers_exhausts (firings t (timers w2)) t w2 Hwf2 (le_n _)) as Hdue.
  destruct (lookup_lt_is_Some_2 _ _ (op_promise _ _ _ _ Hop3)) as [r Hres].
  exists r. split; [exact Hres|]. intros ->.
  destruct (op_armed _ _ _ _ Hop3 Hres) as [Hin _].
  unfold advance in Hin. simpl in Hin.
  rewrite Forall_forall in Hdue. apply list_elem_of_In in Hin.
  specialize (Hdue _ Hin). simpl in Hdue. lia.
Qed.

(** ** A submission that is stored before its call is answered *)

Lemma next_behavior_stopped (l : nat) (v v0 : StreamVal) (w : World) (s : Subject) :
  subjects w !! l = Some s ->
  closed s = false -> isStopped s = true -> _value s = Some v0 ->
  next l v w = (Normal tt, set_subjects (fun hp => <[l := with_value s (Some v)]> hp) w).
Proof.
  intros Hl Hc Hs Hv.
  assert (Hlt : l < length (subjects w)) by (eapply lookup_lt_Some; eauto).
  unfold next, read_subject, write_subject, bind, gets, modify, defined.
  rewrite Hl. simpl. rewrite Hv. simpl.
  rewrite list_lookup_insert_eq by done. simpl. rewrite Hc, Hs. reflexivity.
Qed.

Lemma step_submit_accepted_late
    (cid timeout l : nat) (response : JsVal) (w : World)
    (pd : list (nat * Kont)) (s : Subject) (v0 : StreamVal) :
  pending w = pd ++ [(cid, KSubmit timeout l)] ->
  Forall (fun e => e.1 <> cid) pd ->
  subjects w !! l = Some s ->
  closed s = false -> isStopped s = true -> _value s = Some v0 ->
  step (RpcSettled cid (Normal response)) w =
    set_subjects (fun hp => <[l := with_value s (Some (SVState "SUBMITTED"))]> hp)
      (set_timers (fun ts => filter (fun t => Some (tid t) <> Some timeout) ts)
        (set_pending (fun _ => pd) w)).
Proof.
  intros Hp Hf Hl Hc Hs Hv. unfold step, task, handle.
  unfold bind at 1. rewrite (take_pending_spec cid _ w pd Hp Hf).
  unfold on_settled, try_catch, lift_completion.
  unfold bind at 1. unfold bind at 1, clearTimeout, clear_timer, modify at 1.
  rewrite (next_behavior_stopped l _ v0 _ s) by done. reflexivity.
Qed.

(** X17: the node reports STORED before the call of [submitAtom] has been
    answered.  The subscriber of the state stream is handed CREATED and
    STORED and the stream completes, but the timer of the submission stays
    armed: only the answer to the call disarms it.  When the answer comes
    afterwards, the timer is disarmed and the subscriber is handed nothing
    more.  When instead the timer fires, [close()] is called on the socket
    and the completed stream is turned into one that failed with
    'Socket timeout', although the atom has been stored. *)
Theorem stored_before_the_call_is_answered
    (a : Atom) (w : World) (sock : Socket) (m : option string) (response : JsVal) :
  well_formed w ->
  _socket (conn w) = Some sock -> listening sock = true ->
  let atomStateSubject := length (subjects w) in
  let subscriber := observerCount w in
  let timeout :=
    {| tid := timerCount w; due := (now w + 5000)%N; period := None;
       callback := SubmitTimeout atomStateSubject |} in
  let w' :=
    foldl (fun w ev => step ev w) w
      [CallSubmitAtom a;
       CallObserve atomStateSubject;
       AtomSubmissionStateOnNext
         (state_notification (lastSubscriberId (conn w) + 1) "STORED" m)] in
  observed subscriber w'
  = [Next (SVState "CREATED"); Next (SVState "STORED"); Complete]
  /\ timers w' = timers w ++ [timeout]
  /\ (let answered := step (RpcSettled (length (outbox w)) (Normal response)) w' in
      observed subscriber answered = observed subscriber w'
      /\ timers answered = timers w
      /\ (hasError <$> subjects answered !! atomStateSubject) = Some false)
  /\ (let expired := task (fire timeout) w' in
      observed subscriber expired = observed subscriber w'
      /\ (thrownError <$> subjects expired !! atomStateSubject) = Some socket_timeout
      /\ (hasError <$> subjects expired !! atomStateSubject) = Some true
      /\ (closeCalls <$> _socket (conn expired)) = Some (S (closeCalls sock))).
Proof.
  intros Hwf Hsock Hlisten l o tm w'.
  destruct Hwf as [Hids _ _ _ _ Htr Hpend _ _ _ _].
  subst w'. simpl.
  rewrite (step_submitAtom a w sock Hsock).
  rewrite (step_observe_live l (after_submitAtom a w) created_subject);
    [|by apply list_lookup_middle|done..].
  simpl (_value created_subject). simpl (observers created_subject ++ _).
  match goal with |- context [step (AtomSubmissionStateOnNext _) ?x] => set (w2 := x) end.
  pose (s2 := {| closed := false; isStopped := false; hasError := false;
                 thrownError := JNull; observers := [o];
                 _value := Some (SVState "CREATED") |}).
  assert (Hlen : l < length (subjects w ++ [created_subject]))
    by (rewrite length_app; simpl; lia).
  assert (Hl2 : subjects w2 !! l = Some s2).
  { subst w2. simpl. by rewrite list_lookup_insert_eq. }
  rewrite (step_stored _ m w2 sock l s2 (SVState "CREATED"));
    [|done|done|apply js_get_set_eq|done..].
  set (s3 := completed_subject (with_value s2 (Some (SVState "STORED")))).
  match goal with |- context [observed o ?x = [_; _; _]] => set (w3 := x) end.
  assert (Hl3 : subjects w3 !! l = Some s3).
  { subst w3. simpl. rewrite list_lookup_insert_eq; [done|]. by rewrite length_insert. }
  assert (Hobs : observed o w3
                 = [Next (SVState "CREATED"); Next (SVState "STORED"); Complete]).
  { pose proof (observed_fresh o w Htr) as Hfresh. unfold observed in Hfresh.
    subst w3 w2. unfold observed. simpl.
    rewrite !filter_app, !map_app, Hfresh, !filter_cons. simpl. subst o.
    destruct (decide (observerCount w = observerCount w)); [|done]. reflexivity. }
  split; [exact Hobs|]. split; [done|]. split.
  - rewrite (step_submit_accepted_late (length (outbox w)) (timerCount w) l response w3
               (pending w) s3 (SVState "STORED")); [|done| |done..].
    2:{ eapply Forall_impl; [exact Hpend|]. simpl. intros; lia. }
    split; [done|]. split.
    + simpl. apply (filter_fresh_timer (timers w) tm). exact Hids.
    + simpl. rewrite list_lookup_insert_eq; [done|]. by rewrite !length_insert.
  - set (w4 := set_conn (set__socket (Some {| ready := ready sock;
                                              closeCalls := S (closeCalls sock);
                                              listening := listening sock;
                                              openPromise := openPromise sock |}))
                 (set_timers (timers_after tm) (set_now (N.max (due tm)) w3))).
    assert (Hrun : task (fire tm) w3
                   = set_trace (fun t => t ++ deliveries (observers s3) (Error socket_timeout))
                       (set_subjects (fun hp => <[l := failed_subject s3 socket_timeout]> hp)
                          w4)).
    { unfold task, fire. unfold bind at 1, modify at 1. unfold bind at 1, modify at 1.
      change (callback tm) with (SubmitTimeout l). unfold run_callback, on_submit_timeout.
      unfold bind at 1. unfold socket_close, the_socket.
      unfold bind at 1. unfold bind at 1, gets at 1.
      change (_socket (conn (set_timers (timers_after tm) (set_now (N.max (due tm)) w3))))
        with (_socket (conn w)).
      rewrite Hsock. unfold defined, ret, modify. fold w4.
      by rewrite (error_spec l _ w4 s3 Hl3). }
    rewrite Hrun. split; [|split; [|split]].
    + unfold observed. simpl. by rewrite app_nil_r.
    + simpl. rewrite list_lookup_insert_eq; [done|]. by rewrite !length_insert.
    + simpl. rewrite list_lookup_insert_eq; [done|]. by rewrite !length_insert.
    + done.
Qed.

(** ** The tables of the subscriptions *)

Lemma js_get_None {V} (k : string) (o : JsObject V) :
  ~ In k (js_keys o) -> js_get k o = None.
Proof.
  induction o as [|[k' v'] o IH]; simpl; [done|]. intros Hn.
  destruct (String.eqb_spec k k') as [->|Hne]; [exfalso; apply Hn; by left|].
  apply IH. intros Hin. apply Hn. by right.
Qed.

Lemma js_get_Some {V} (k : string) (o : JsObject V) :
  In k (js_keys o) -> is_Some (js_get k o).
Proof.
  induction o as [|[k' v'] o IH]; simpl; [done|]. intros Hin.
  destruct (String.eqb_spec k k') as [->|Hne]; [by eexists|].
  apply IH. destruct Hin as [E|Hin]; [congruence|done].
Qed.

Lemma js_get_key {V} (k : string) (v : V) (o : JsObject V) :
  js_get k o = Some v -> In k (js_keys o).
Proof.
  intros Hk. apply js_get_In in Hk. unfold js_keys. apply in_map_iff. by exists (k, v).
Qed.

(** A key that is new goes last. *)
Lemma js_set_fresh {V} (k : string) (v : V) (o : JsObject V) :
  ~ In k (js_keys o) -> js_set k v o = o ++ [(k, v)].
Proof.
  induction o as [|[k' v'] o IH]; simpl; [done|]. intros Hn.
  destruct (String.eqb_spec k k') as [->|Hne]; [exfalso; apply Hn; by left|].
  rewrite IH; [done|]. intros Hin. apply Hn. by right.
Qed.

Lemma js_get_more {V} (k : string) (o o' : JsObject V) :
  is_Some (js_get k o) -> is_Some (js_get k (o ++ o')).
Proof.
  induction o as [|[k' v'] o IH]; simpl; [by intros [? [=]]|].
  destruct (String.eqb k k'); auto.
Qed.

Lemma ascending_later (last : N) (ks : list string) :
  ascending last ks -> ascending (last + 1) ks.
Proof.
  intros (ns & -> & Hs & Hb). exists ns. split; [done|]. split; [done|].
  eapply Forall_impl; [exact Hb|]. intros n Hn. simpl in Hn. lia.
Qed.

Lemma ascending_fresh (last : N) (ks : list string) :
  ascending last ks -> ~ In (key_of (last + 1)) ks.
Proof.
  intros (ns & -> & _ & Hb) Hin. apply in_map_iff in Hin as (n & E & Hn).
  apply key_of_inj in E. subst n.
  rewrite Forall_forall in Hb. apply list_elem_of_In in Hn.
  specialize (Hb _ Hn). simpl in Hb. lia.
Qed.

Lemma StronglySorted_snoc (ns : list N) (n : N) :
  StronglySorted N.lt ns -> Forall (fun m => (m < n)%N) ns ->
  StronglySorted N.lt (ns ++ [n]).
Proof.
  induction 1 as [|m ns Hs IH Hm]; intros Hb; simpl.
  - repeat constructor.
  - inversion Hb as [|? ? Hmn Hb']; subst. constructor; [by apply IH|].
    apply Forall_app. split; [done|]. by repeat constructor.
Qed.

Lemma ascending_next (last : N) (ks : list string) :
  (1 <= last)%N -> ascending last ks ->
  ascending (last + 1) (ks ++ [key_of (last + 1)]).
Proof.
  intros H1 (ns & -> & Hs & Hb). exists (ns ++ [(last + 1)%N]).
  split; [by rewrite map_app|]. split.
  - apply StronglySorted_snoc; [done|].
    eapply Forall_impl; [exact Hb|]. intros n Hn. simpl in Hn. lia.
  - apply Forall_app. split.
    + eapply Forall_impl; [exact Hb|]. intros n Hn. simpl in Hn. lia.
    + repeat constructor; lia.
Qed.

Lemma js_keys_app {V} (o o' : JsObject V) : js_keys (o ++ o') = js_keys o ++ js_keys o'.
Proof. unfold js_keys. apply map_app. Qed.

Lemma tables_linked_new_connection : tables_linked new_connection.
Proof.
  constructor; simpl; [lia| | |done|constructor].
  all: exists []; repeat split; constructor.
Qed.

(** For a change of fields that the tables do not depend on. *)
Ltac linked_same :=
  let w := fresh "w" in
  let Hw := fresh "Hw" in
  intros w Hw; destruct Hw; constructor; simpl; auto using Forall_js_delete.

Lemma before_subscribe_call_linked (address : string) (w : World) :
  tables_linked w -> tables_linked (before_subscribe_call address w).
Proof.
  intros [H1 Hs Hu Hk Ha]. unfold before_subscribe_call.
  set (k := key_of (lastSubscriberId (conn w) + 1)).
  assert (Hfresh : ~ In k (js_keys (_subscriptions (conn w))))
    by (by apply ascending_fresh).
  assert (Hfresh' : ~ In k (js_keys (_syncedSubscriptions (conn w))))
    by (by rewrite Hk).
  constructor; simpl.
  - lia.
  - rewrite (js_set_fresh k _ _ Hfresh), js_keys_app. by apply ascending_next.
  - by apply ascending_later.
  - rewrite (js_set_fresh k _ _ Hfresh), (js_set_fresh k _ _ Hfresh'), !js_keys_app.
    by rewrite Hk.
  - rewrite (js_set_fresh k _ _ Hfresh). apply Forall_js_set.
    + eapply Forall_impl; [exact Ha|]. intros e He. by apply js_get_more.
    + simpl. apply js_get_Some. rewrite js_keys_app. apply in_app_iff. right. by left.
Qed.

Lemma subscribe_linked (address : string) : preserves tables_linked (subscribe address).
Proof.
  intros w Hw.
  assert (Hrun : exec (subscribe address) w = before_subscribe_call address w
               \/ exec (subscribe address) w = after_subscribe address w).
  { unfold exec, subscribe, getSubscriberId, new_subject, socket_call, the_socket,
      bind, gets, modify, ret, defined. simpl.
    unfold after_subscribe, before_subscribe_call.
    destruct (_socket (conn w)); simpl; rewrite ?length_app; simpl;
      [right|left]; reflexivity. }
  pose proof (before_subscribe_call_linked address w Hw) as Hb.
  destruct Hrun as [->| ->]; [done|].
  unfold after_subscribe. revert Hb.
  generalize (before_subscribe_call address w). linked_same.
Qed.

Lemma submitAtom_linked (a : Atom) : preserves tables_linked (submitAtom a).
Proof.
  intros w Hw.
  assert (Hrun : exec (submitAtom a) w = before_submit_call w
               \/ exec (submitAtom a) w = after_submitAtom a w).
  { unfold exec, submitAtom, getSubscriberId, new_subject, setTimeout, set_timer,
      socket_call, the_socket, bind, gets, modify, ret, defined. simpl.
    destruct (_socket (conn w)); simpl; [right|left]; reflexivity. }
  assert (Hb : tables_linked (before_submit_call w)).
  { destruct Hw as [H1 Hs Hu Hk Ha]. unfold before_submit_call.
    assert (Hfresh : ~ In (key_of (lastSubscriberId (conn w) + 1))
                       (js_keys (_atomUpdateSubjects (conn w))))
      by (by apply ascending_fresh).
    constructor; simpl; auto.
    - lia.
    - by apply ascending_later.
    - rewrite (js_set_fresh _ _ _ Hfresh), js_keys_app. by apply ascending_next. }
  destruct Hrun as [->| ->]; [done|].
  unfold after_submitAtom. revert Hb. generalize (before_submit_call w). linked_same.
Qed.

Ltac linked_step :=
  first
    [ match goal with
      | |- preserves _ (subscribe _) => apply subscribe_linked
      | |- preserves _ (submitAtom _) => apply submitAtom_linked
      | |- preserves _ (fromJSON_atoms _) => apply fromJSON_atoms_pure
      | |- preserves _ (modify _) => apply preserves_modify; linked_same
      end
    | progress unfold_other_operations
    | apply preserves_ret
    | apply preserves_throw
    | apply preserves_gets
    | apply preserves_lift_completion
    | apply preserves_defined
    | apply preserves_bind; [|intros ?]
    | apply preserves_try_catch; [|intros ?]
    | apply preserves_for_each; intros ?
    | apply preserves_for_each_indexed; intros ? ?
    | match goal with
      | |- preserves _ (if ?b then _ else _) => destruct b
      | |- preserves _ (match ?x with _ => _ end) => destruct x
      end ].

Lemma unsubscribe_each_linked (addresses : list string) :
  preserves tables_linked (unsubscribe_each addresses).
Proof.
  induction addresses as [|address rest IH]; simpl.
  - apply preserves_ret.
  - apply preserves_bind; [repeat linked_step|intros q].
    apply preserves_bind; [exact IH|intros ps]. apply preserves_ret.
Qed.

Lemma handle_linked (ev : Event) : preserves tables_linked (handle ev).
Proof.
  destruct ev; unfold handle.
  all: try (apply preserves_bind; [unfold unsubscribeAll|intros ?; apply preserves_ret];
            apply preserves_bind; [apply preserves_gets|intros ?];
            apply preserves_bind; [apply unsubscribe_each_linked|intros ?]).
  all: repeat linked_step.
Qed.

Lemma run_callback_linked (a : TimerAction) : preserves tables_linked (run_callback a).
Proof. destruct a; repeat linked_step. Qed.

Lemma reachable_linked (w : World) : reachable w -> tables_linked w.
Proof.
  apply reachable_invariant.
  - apply tables_linked_new_connection.
  - apply handle_linked.
  - apply run_callback_linked.
  - intros w0 e. revert w0. linked_same.
  - intros w0 f. revert w0. linked_same.
  - intros w0 tm. revert w0. linked_same.
Qed.

(** X18: an address with a subscription has both its channels.  In every
    world that the connection reaches, the identifier recorded for an
    address is registered with a delivery channel and with a sync channel,
    both of them subjects that exist; so [isSynced(address)] returns the
    sync channel, never [undefined], and the delivery channel that
    [unsubscribe(address)] is to complete is there. *)
Theorem subscribed_address_has_both_channels
    (w : World) (address subscriberId : string) :
  reachable w ->
  js_get address (_addressSubscriptions (conn w)) = Some subscriberId ->
  exists l b s sb,
    js_get subscriberId (_subscriptions (conn w)) = Some l
    /\ js_get subscriberId (_syncedSubscriptions (conn w)) = Some b
    /\ subjects w !! l = Some s /\ subjects w !! b = Some sb
    /\ isSynced address w = (Normal (Some b), w).
Proof.
  intros Hr Ha.
  destruct (reachable_linked w Hr) as [_ _ _ Hk Haddr].
  pose proof (reachable_is_well_formed w Hr) as Hwf.
  rewrite Forall_forall in Haddr.
  destruct (Haddr (address, subscriberId)) as [l Hl].
  { by apply list_elem_of_In, js_get_In. }
  simpl in Hl.
  destruct (js_get_Some subscriberId (_syncedSubscriptions (conn w))) as [b Hb].
  { rewrite Hk. by eapply js_get_key. }
  assert (Hlt : l < length (subjects w)).
  { pose proof (wf_subscriptions w Hwf) as Hf. rewrite Forall_forall in Hf.
    apply (Hf (subscriberId, l)). by apply list_elem_of_In, js_get_In. }
  assert (Hbt : b < length (subjects w)).
  { pose proof (wf_syncedSubscriptions w Hwf) as Hf. rewrite Forall_forall in Hf.
    apply (Hf (subscriberId, b)). by apply list_elem_of_In, js_get_In. }
  destruct (lookup_lt_is_Some_2 _ _ Hlt) as [s Hs].
  destruct (lookup_lt_is_Some_2 _ _ Hbt) as [sb Hsb].
  exists l, b, s, sb. repeat split; try done.
  unfold isSynced, bind, gets, ret, lookup_optional_key. rewrite Ha. simpl. by rewrite Hb.
Qed.

(** X19: the tables are filled in the order of the identifiers.  In every
    world that the connection reaches, the keys of the delivery channels,
    which are also those of the sync channels, and the keys of the
    submission streams are the decimal forms of strictly increasing
    numbers between 2 and the last identifier handed out: a [for ... in]
    loop over one of these tables visits the entries in the order in which
    they were made. *)
Theorem tables_are_filled_in_order (w : World) :
  reachable w ->
  exists subscriptions submissions : list N,
    js_keys (_subscriptions (conn w)) = map key_of subscriptions
    /\ js_keys (_syncedSubscriptions (conn w)) = map key_of subscriptions
    /\ js_keys (_atomUpdateSubjects (conn w)) = map key_of submissions
    /\ StronglySorted N.lt subscriptions /\ StronglySorted N.lt submissions
    /\ Forall (fun n => (1 < n <= lastSubscriberId (conn w))%N)
         (subscriptions ++ submissions).
Proof.
  intros Hr. destruct (reachable_linked w Hr) as [_ Hs Hu Hk _].
  destruct Hs as (ns & Es & Hss & Hbs). destruct Hu as (nu & Eu & Hsu & Hbu).
  exists ns, nu. rewrite Hk. repeat split; try done. by apply Forall_app.
Qed.

End Facts.

(** * The connection at work, with the sample serializer *)

Import Sample.

Lemma unknown_state_is_ignored_witness :
  ~ In (value (state_notification 2 "PENDING" None)) known_states
  /\ _onAtomSubmissionStateUpdate (state_notification 2 "PENDING" None) submitted
     = (Normal tt, submitted).
Proof.
  assert (Hn : ~ In (value (state_notification 2 "PENDING" None)) known_states).
  { vm_compute. intuition discriminate. }
  exact (conj Hn (unknown_state_is_ignored (state_notification 2 "PENDING" None) submitted Hn)).
Defined.


(** C1, as stated, fails: the subscriber of the state stream of a stored
    atom is handed CREATED before SUBMITTED and STORED. *)
Lemma stored_stream_starts_with_created :
  observed 0 stored
  = [Next (SVState "CREATED"); Next (SVState "SUBMITTED");
     Next (SVState "STORED"); Complete]
  /\ observed 0 stored
     <> [Next (SVState "SUBMITTED"); Next (SVState "STORED"); Complete].
Proof.
  assert (Hobs : observed 0 stored
                 = [Next (SVState "CREATED"); Next (SVState "SUBMITTED");
                    Next (SVState "STORED"); Complete])
    by (vm_compute; reflexivity).
  split; [exact Hobs|]. rewrite Hobs. discriminate.
Qed.

Lemma stream_of_a_stored_atom_witness :
  observed 0
    (foldl (fun w ev => step ev w) opened
       [CallSubmitAtom "atom"; CallObserve 0; RpcSettled 0 (Normal JNull);
        AtomSubmissionStateOnNext (state_notification 2 "STORED" None)])
  = [Next (SVState "CREATED"); Next (SVState "SUBMITTED");
     Next (SVState "STORED"); Complete].
Proof.
  destruct (@stream_of_a_stored_atom serializer "atom" opened
              {| ready := true; closeCalls := 0; listening := true; openPromise := 0 |}
              JNull None) as (Hobs & _).
  - vm_compute. reflexivity.
  - reflexivity.
  - vm_compute. constructor.
  - vm_compute. constructor.
  - exact Hobs.
Defined.

(** C3: the handler for the close event calls [error] on a stream that has
    already completed.  The stream of the stored atom had completed, without
    an error, and its subscriber had been told so; after the close event the
    same stream carries the error of the close, and a subscriber that comes
    later is handed that error. *)
Theorem close_fails_a_completed_stream :
  observed 0 stored
  = [Next (SVState "CREATED"); Next (SVState "SUBMITTED");
     Next (SVState "STORED"); Complete]
  /\ (hasError <$> subjects stored !! 0) = Some false
  /\ (closed <$> subjects stored !! 0) = Some false
  /\ (hasError <$> subjects stored_then_closed !! 0) = Some true
  /\ (thrownError <$> subjects stored_then_closed !! 0) = Some (JStr "Socket closed")
  /\ observed 0 stored_then_closed = observed 0 stored
  /\ observed 1 stored_then_closed = [Error (JStr "Socket closed")].
Proof. vm_compute. repeat split; reflexivity. Qed.


Lemma opened_is_well_formed : well_formed opened.
Proof.
  constructor; vm_compute; repeat constructor; try lia; try discriminate;
    try (intros [|[]]; discriminate); try (intros ? [=]); try (intros []).
Qed.

Lemma unanswered_submission_times_out_witness :
  let submitted_at_100 := step (CallObserve 0) (step (CallSubmitAtom "atom") opened) in
  let meanwhile :=
    [(1000%N, CallSubscribe "A1");
     (1200%N, CallObserve 0);
     (1500%N, RpcSettled 1 (Normal (JStr "ok")));
     (2000%N, AtomsSubscribeUpdate (atoms_notification 3 [JStr "atomA"] true));
     (2500%N, AtomSubmissionStateOnNext (state_notification 2 "SUBMITTING" None));
     (3000%N, CallSubmitAtom "other");
     (4000%N, AtomSubmissionStateOnNext (state_notification 4 "STORED" None))] in
  (exists reports s,
     reports `sublist_of` ["SUBMITTING"]
     /\ observed 0 (advance 5100 (run meanwhile submitted_at_100))
        = handed reports ++ [Error socket_timeout]
     /\ subjects (advance 5100 (run meanwhile submitted_at_100)) !! 0 = Some s
     /\ isStopped s = true /\ hasError s = true
     /\ thrownError s = socket_timeout /\ observers s = []
     /\ close_count 1 (advance 5100 (run meanwhile submitted_at_100)))
  /\ (exists reports s,
       reports `sublist_of` ["SUBMITTING"]
       /\ observed 0 (advance 5099 (run meanwhile submitted_at_100)) = handed reports
       /\ subjects (advance 5099 (run meanwhile submitted_at_100)) !! 0 = Some s
       /\ isStopped s = false /\ hasError s = false).
Proof.
  intros submitted_at_100 meanwhile.
  assert (Hothers : Forall (fun te : N * Event => unanswering 2 0 0 te.2) meanwhile).
  { repeat (constructor;
      [vm_compute; first [exact I | discriminate | intros _; intuition discriminate]|]).
    constructor. }
  destruct (@unanswered_submission_times_out serializer "atom" opened
              {| ready := true; closeCalls := 0; listening := true; openPromise := 0 |}
              meanwhile 5100 opened_is_well_formed eq_refl Hothers) as [Hlate _].
  destruct (@unanswered_submission_times_out serializer "atom" opened
              {| ready := true; closeCalls := 0; listening := true; openPromise := 0 |}
              meanwhile 5099 opened_is_well_formed eq_refl Hothers) as [_ Hearly].
  split.
  - apply Hlate. vm_compute. discriminate.
  - apply Hearly; [vm_compute; reflexivity|repeat constructor].
Defined.

(** What the subscriber is handed in the run above. *)
Example unanswered_submission_is_handed :
  observed 0
    (advance 5100
       (run [(1000%N, CallSubscribe "A1");
             (1200%N, CallObserve 0);
             (1500%N, RpcSettled 1 (Normal (JStr "ok")));
             (2000%N, AtomsSubscribeUpdate (atoms_notification 3 [JStr "atomA"] true));
             (2500%N, AtomSubmissionStateOnNext (state_notification 2 "SUBMITTING" None));
             (3000%N, CallSubmitAtom "other");
             (4000%N, AtomSubmissionStateOnNext (state_notification 4 "STORED" None))]
          (step (CallObserve 0) (step (CallSubmitAtom "atom") opened))))
  = [Next (SVState "CREATED"); Next (SVState "SUBMITTING"); Error socket_timeout].
Proof. vm_compute. reflexivity. Qed.


(** C5, as stated, fails: the promise of [unsubscribeAll] is rejected with
    the first failure while the unsubscription of A2 has not completed: its
    promise is pending and its call unanswered. *)
Lemma unsubscribeAll_reports_before_all_complete :
  promises unsubscribing !! 3 = Some Pending
  /\ promises first_refused !! 3 = Some (Rejected (JStr "refused"))
  /\ promises first_refused !! 2 = Some Pending
  /\ pending first_refused = [(3, KUnsubscribe "A2" (Some "3") 2)].
Proof. vm_compute. repeat split; reflexivity. Qed.

Lemma unsubscribeAll_fans_out_and_fails_fast_witness :
  outbox (exec unsubscribeAll (run [(150%N, CallSubscribe "A1"); (160%N, CallSubscribe "A2")] opened))
  = outbox (run [(150%N, CallSubscribe "A1"); (160%N, CallSubscribe "A2")] opened)
    ++ [cancel_call (Some "2"); cancel_call (Some "3")]
  /\ promises (exec (on_settled (KUnsubscribe "A1" (Some "2") 1) (Throw (JStr "refused")))
                 unsubscribing) !! 3
     = Some (Rejected (JStr "refused"))
  /\ promises (exec (on_settled (KUnsubscribe "A1" (Some "2") 1) (Throw (JStr "refused")))
                 unsubscribing) !! 2
     = Some Pending.
Proof.
  destruct (@unsubscribeAll_fans_out_and_fails_fast serializer) as (Hfan & Hfail & _).
  destruct (Hfan (run [(150%N, CallSubscribe "A1"); (160%N, CallSubscribe "A2")] opened)
              {| ready := true; closeCalls := 0; listening := true; openPromise := 0 |}
              eq_refl) as (_ & Hout & _).
  destruct (Hfail unsubscribing [1; 2] 3 1 "A1" (Some "2") (JStr "refused"))
    as (_ & Hrej & Hothers).
  - vm_compute. tauto.
  - vm_compute. tauto.
  - vm_compute. reflexivity.
  - vm_compute. reflexivity.
  - split; [exact Hout|]. split; [exact Hrej|].
    rewrite (Hothers 2); [vm_compute; reflexivity|discriminate|].
    vm_compute. repeat constructor. discriminate.
Defined.

(** C7, as stated, fails for the timer of [openConnection]: the socket
    opened in time, yet the timer stays armed; the socket then closes, and
    when the timer fires it calls [close()] and emits 'closed' once more. *)
Lemma open_timer_fires_after_the_socket_opened :
  promises opened !! 0 = Some (Fulfilled PUndefined)
  /\ In {| tid := 0; due := 5000; period := None; callback := OpenTimeout 0 |}
       (timers opened)
  /\ emitted (run [(200%N, SocketClose)] opened) = ["open"; "closed"]
  /\ emitted opened_then_closed = ["open"; "closed"; "closed"]
  /\ (closeCalls <$> _socket (conn opened_then_closed)) = Some 1.
Proof. vm_compute. repeat split; try reflexivity. by left. Qed.

Lemma timeout_timers_when_the_transition_succeeds_witness :
  timers (exec (on_settled (KSubmit 2 0) (Normal JNull)) submitted)
  = filter (fun t => tid t <> 2) (timers submitted)
  /\ on_open_timeout 0 opened = (Normal tt, opened).
Proof.
  destruct (@timeout_timers_when_the_transition_succeeds serializer)
    as (Hsubmit & _ & Hopen).
  split; [apply Hsubmit|].
  apply (Hopen opened 0
           {| ready := true; closeCalls := 0; listening := true; openPromise := 0 |});
    reflexivity.
Defined.




(** ** Further scenarios *)

Lemma subscribed_is_reachable : reachable subscribed.
Proof.
  exists [(0%N, CallOpenConnection); (100%N, SocketOpen);
          (150%N, CallSubscribe "A1"); (150%N, CallObserve 0); (150%N, CallObserve 1)].
  vm_compute. reflexivity.
Qed.




Lemma subscribe_settles_witness :
  subjects (step (RpcSettled 0 (Throw (JStr "refused"))) subscribed) !! 0
  = Some (failed_subject delivery_channel (JStr "refused"))
  /\ observed 0 (step (RpcSettled 0 (Throw (JStr "refused"))) subscribed)
     = [Error (JStr "refused")]
  /\ js_get "A1" (_addressSubscriptions
                    (conn (step (RpcSettled 0 (Throw (JStr "refused"))) subscribed)))
     = Some "2".
Proof.
  destruct (subscribe_settles "A1" "2" 0 0 delivery_channel subscribed) as [_ Hrefused].
  - vm_compute. by left.
  - vm_compute. repeat constructor. intros [].
  - reflexivity.
  - reflexivity.
  - reflexivity.
  - rewrite (Hrefused (JStr "refused")). vm_compute. repeat split; reflexivity.
Defined.

Lemma unsubscribe_of_an_unknown_address_witness :
  outbox (after_unsubscribe "A9" opened)
  = [("Atoms.cancel", JObj [("subscriberId", JUndefined)])]
  /\ promises (step (RpcSettled 0 (Normal JNull)) (after_unsubscribe "A9" opened)) !! 1
     = Some (Rejected TypeError).
Proof.
  destruct (unsubscribe_of_an_unknown_address "A9" opened open_socket eq_refl eq_refl)
    as (_ & Hout & _ & Hsettled).
  split; [exact Hout|].
  destruct (Hsettled (after_unsubscribe "A9" opened) JNull) as (Hp & _).
  - vm_compute. by left.
  - vm_compute. repeat constructor. intros [].
  - reflexivity.
  - reflexivity.
  - exact Hp.
Defined.

Lemma ping_is_only_a_probe_witness :
  outbox (exec ping opened) = [("Network.getInfo", JObj [("id", JNum 0)])]
  /\ ping new_connection = (Normal tt, new_connection)
  /\ step (RpcSettled 0 (Throw (JStr "unreachable"))) (exec ping opened)
     = set_outbox (fun ob => ob ++ [("Network.getInfo", JObj [("id", JNum 0)])]) opened.
Proof.
  destruct (ping_is_only_a_probe opened) as (_ & Hready & _).
  destruct (ping_is_only_a_probe (exec ping opened)) as (_ & _ & Hanswer).
  split; [|split].
  - unfold exec. rewrite (Hready open_socket eq_refl eq_refl). vm_compute. reflexivity.
  - reflexivity.
  - rewrite Hanswer; [vm_compute; reflexivity|vm_compute; by left|].
    vm_compute. repeat constructor. intros [].
Defined.

Lemma refused_submission_fails_the_stream_witness :
  observed 0
    (foldl (fun w ev => step ev w) opened
       [CallSubmitAtom "atom"; CallObserve 0; RpcSettled 0 (Throw (JStr "refused"))])
  = [Next (SVState "CREATED"); Error (JStr "refused")]
  /\ timers
       (foldl (fun w ev => step ev w) opened
          [CallSubmitAtom "atom"; CallObserve 0; RpcSettled 0 (Throw (JStr "refused"))])
     = timers opened.
Proof.
  destruct (@refused_submission_fails_the_stream serializer "atom" opened open_socket
              (JStr "refused")
              opened_is_well_formed eq_refl) as (Hobserved & _ & Htimers & _).
  split; [exact Hobserved|exact Htimers].
Defined.

Lemma undeliverable_batch_changes_nothing_witness :
  (exists j e, In j [JStr "atomA"; JNum 1]
     /\ fromJSON j = Throw e
     /\ _onAtomReceivedNotification (atoms_notification 2 [JStr "atomA"; JNum 1] true)
          subscribed
        = (Throw e, subscribed))
  /\ _onAtomReceivedNotification (atoms_notification 7 [JStr "atomA"] true) subscribed
     = (Throw TypeError, subscribed).
Proof.
  destruct (undeliverable_batch_changes_nothing
              (atoms_notification 2 [JStr "atomA"; JNum 1] true) subscribed) as [Hfails _].
  destruct (undeliverable_batch_changes_nothing
              (atoms_notification 7 [JStr "atomA"] true) subscribed) as [_ Hunknown].
  split.
  - apply Hfails. exists (JNum 1). split; [right; by left|].
    by exists (JError "UnknownType" "atom").
  - apply (Hunknown ["atomA"]); [|reflexivity|reflexivity].
    unfold deserializes. simpl. repeat constructor. intros [=].
Defined.

Lemma batch_for_an_ended_channel_witness :
  observed 0 (exec (_onAtomReceivedNotification (atoms_notification 2 [JStr "atomA"] true))
                unsubscribed)
  = [Complete]
  /\ observed 1 (exec (_onAtomReceivedNotification
                         (atoms_notification 2 [JStr "atomA"] true)) unsubscribed)
     = [Next (SVSynced false); Next (SVSynced true)].
Proof.
  destruct (batch_for_an_ended_channel (atoms_notification 2 [JStr "atomA"] true)
              unsubscribed ["atomA"] 0 1 (completed_subject delivery_channel) sync_channel
              (SVSynced false)) as [Hended _].
  - unfold deserializes. simpl. repeat constructor. intros [=].
  - reflexivity.
  - reflexivity.
  - reflexivity.
  - reflexivity.
  - reflexivity.
  - reflexivity.
  - reflexivity.
  - reflexivity.
  - unfold exec. rewrite (Hended eq_refl eq_refl). vm_compute. split; reflexivity.
Defined.


Lemma isSynced_of_an_unknown_address_witness :
  isSynced "A2" subscribed = (Normal None, subscribed).
Proof.
  exact (isSynced_of_an_unknown_address "A2" subscribed subscribed_is_reachable eq_refl).
Defined.


Lemma close_event_fails_the_open_streams_witness :
  fst (_onClosed subscribed) = Normal tt
  /\ subjects (exec _onClosed subscribed) !! 0
     = Some (failed_subject delivery_channel socket_closed)
  /\ subjects (exec _onClosed subscribed) !! 1 = Some sync_channel
  /\ conn (exec _onClosed subscribed) = conn subscribed.
Proof.
  destruct (close_event_fails_the_open_streams subscribed
              (reachable_is_well_formed subscribed subscribed_is_reachable))
    as (Hret & Hconn & _ & _ & _ & _ & _ & Hopen & Hkeep & _).
  split; [exact Hret|]. split; [|split; [|exact Hconn]].
  - apply (Hopen 0 delivery_channel); [vm_compute; reflexivity| |reflexivity].
    exists "2". left. vm_compute. reflexivity.
  - apply (Hkeep 1 sync_channel); [vm_compute; reflexivity|]. left.
    assert (Hsubs : _subscriptions (conn subscribed) = [("2", 0)])
      by (vm_compute; reflexivity).
    assert (Hupd : _atomUpdateSubjects (conn subscribed) = [])
      by (vm_compute; reflexivity).
    intros [k [Hk|Hk]]; apply js_get_In in Hk.
    + rewrite Hsubs in Hk. destruct Hk as [[=]|[]].
    + rewrite Hupd in Hk. destruct Hk.
Defined.

Lemma second_close_event_is_quiet_witness :
  subjects (exec _onClosed (exec _onClosed subscribed))
  = subjects (exec _onClosed subscribed)
  /\ trace (exec _onClosed (exec _onClosed subscribed))
     = trace (exec _onClosed subscribed).
Proof.
  destruct (second_close_event_is_quiet subscribed
              (reachable_is_well_formed subscribed subscribed_is_reachable))
    as (_ & Hsubjects & Htrace & _).
  split; [exact Hsubjects|exact Htrace].
Defined.

Lemma new_connection_is_reachable : reachable new_connection.
Proof. by exists []. Qed.

Lemma openConnection_promise_settles_in_time_witness :
  settled 0
    (advance 5000
       (run [(1000%N, CallSubscribe "A1"); (2000%N, CallSubmitAtom "atom")]
          (step CallOpenConnection new_connection)))
  /\ promises
       (advance 5000
          (run [(1000%N, CallSubscribe "A1"); (2000%N, CallSubmitAtom "atom")]
             (step CallOpenConnection new_connection))) !! 0
     = Some (Rejected (JStr "Timeout")).
Proof.
  split; [|vm_compute; reflexivity].
  apply (openConnection_promise_settles_in_time new_connection _ 5000
           new_connection_is_reachable).
  - repeat constructor; discriminate.
  - vm_compute. discriminate.
Defined.

Lemma stored_before_the_call_is_answered_witness :
  observed 0
    (foldl (fun w ev => step ev w) opened
       [CallSubmitAtom "atom"; CallObserve 0;
        AtomSubmissionStateOnNext (state_notification 2 "STORED" None)])
  = [Next (SVState "CREATED"); Next (SVState "STORED"); Complete]
  /\ (thrownError <$>
        subjects
          (task (fire {| tid := 2; due := 5100; period := None;
                         callback := SubmitTimeout 0 |})
             (foldl (fun w ev => step ev w) opened
                [CallSubmitAtom "atom"; CallObserve 0;
                 AtomSubmissionStateOnNext (state_notification 2 "STORED" None)])) !! 0)
     = Some socket_timeout.
Proof.
  destruct (@stored_before_the_call_is_answered serializer "atom" opened open_socket
              None JNull opened_is_well_formed eq_refl eq_refl)
    as (Hobserved & _ & _ & _ & Herror & _).
  split; [exact Hobserved|exact Herror].
Defined.

Lemma subscribed_address_has_both_channels_witness :
  exists l b s sb,
    js_get "2" (_subscriptions (conn subscribed)) = Some l
    /\ js_get "2" (_syncedSubscriptions (conn subscribed)) = Some b
    /\ subjects subscribed !! l = Some s /\ subjects subscribed !! b = Some sb
    /\ isSynced "A1" subscribed = (Normal (Some b), subscribed).
Proof.
  apply (subscribed_address_has_both_channels subscribed "A1" "2" subscribed_is_reachable).
  vm_compute. reflexivity.
Defined.

Lemma tables_are_filled_in_order_witness :
  exists subscriptions submissions : list N,
    js_keys (_subscriptions (conn subscribed)) = map key_of subscriptions
    /\ js_keys (_syncedSubscriptions (conn subscribed)) = map key_of subscriptions
    /\ js_keys (_atomUpdateSubjects (conn subscribed)) = map key_of submissions
    /\ StronglySorted N.lt subscriptions /\ StronglySorted N.lt submissions
    /\ Forall (fun n => (1 < n <= lastSubscriberId (conn subscribed))%N)
         (subscriptions ++ submissions).
Proof. exact (tables_are_filled_in_order subscribed subscribed_is_reachable). Defined.
